(** * Grokker: embedding-indexed chunk store and answer assembler

    A shallow embedding of the first-generation [grokker] package
    (documents, chunks, incremental update, garbage collection, batched
    embedding requests, similarity ranking, context assembly), with the
    properties of its specification stated and settled against it.

    Go values are modelled as follows.
    - [int] is [Z]; [string] is [String.string] (a Go string is a byte
      sequence and [len] counts bytes, as [String.length] does);
      [float64] is the primitive binary64 type [float].
    - [[]*Document] is a Go slice: a backing array and a length, because
      [UpdateEmbeddings] ranges over the slice while [RemoveDocument]
      shifts the same backing array.
    - a method with [defer Return(&err)] and [Ck(err)] becomes a
      computation in the monad [M]: state is the store plus the log of the
      requests sent to the remote services, and the result is an
      [outcome].
    - the file system and the two remote services are an explicit
      environment [Env]; [sort.Slice] is a parameter with its documented
      contract.

    [Save] and [Load] call [json.Marshal] and [json.Unmarshal], which are
    parameters with the contract their documentation gives.  The
    functions of package [aidda] that read and create the prompt file and
    the ignore file are embedded in the module [Aidda], over a file
    system that is written to. *)

From Stdlib Require Import String Ascii ZArith Lia Bool Arith List.
From Stdlib Require Import Permutation Sorted Floats.
From Equations Require Import Equations.
Import ListNotations.

Set Implicit Arguments.

(** ** Outcomes of a call *)

Inductive error : Type :=
| EStat       (* os.Stat failed with something else than "not exist" *)
| EReadFile   (* ioutil.ReadFile failed *)
| EEmbedding  (* the embedding request failed *)
| EChat.      (* the chat completion request failed *)

(** [Ok]: the call returns normally.  [Err]: [Ck] raised the error; a
    method with [defer Return(&err)] hands it to its caller as its result
    [err], and a method without one ([CreateEmbeddings]) is left by a
    panic that carries it, which the [defer Return(&err)] of its caller
    recovers (see [ending] and [noDefer] below).  [Panic]: a Go run-time
    panic (index or slice bound out of range).  [OutOfFuel]: a loop of
    the source that makes no progress. *)
Inductive outcome (A : Type) : Type :=
| Ok (a : A)
| Err (e : error)
| Panic
| OutOfFuel.

Arguments Ok {A} a.
Arguments Err {A} e.
Arguments Panic {A}.
Arguments OutOfFuel {A}.

Definition obind {A B} (o : outcome A) (f : A -> outcome B) : outcome B :=
  match o with
  | Ok a => f a
  | Err e => Err e
  | Panic => Panic
  | OutOfFuel => OutOfFuel
  end.

(** ** Go slices *)

Module Slice.

(** A slice header over its backing array: [array] holds the whole
    backing array (its length is the capacity), [len] the slice
    length. *)
Record slice (A : Type) : Type := mkSlice { array : list A; len : nat }.

Definition elems {A} (s : slice A) : list A := firstn (len s) (array s).

Definition nil {A} : slice A := mkSlice [] 0.

Definition of_list {A} (l : list A) : slice A := mkSlice l (length l).

(** [append(s[:i], s[i+1:]...)]: the capacity of [s[:i]] is that of [s],
    so the tail is moved down inside the same backing array; the slot at
    [len-1] keeps its old content. *)
Definition delete {A} (s : slice A) (i : nat) : slice A :=
  mkSlice (firstn i (array s)
             ++ firstn (len s - S i) (skipn (S i) (array s))
             ++ skipn (len s - 1) (array s))
          (len s - 1).

(** [append(s, x)]: in place when the capacity allows it, in a fresh
    array otherwise (the spare capacity Go adds there is never read). *)
Definition append {A} (s : slice A) (x : A) : slice A :=
  if len s <? length (array s)
  then mkSlice (firstn (len s) (array s) ++ x :: skipn (S (len s)) (array s))
               (S (len s))
  else mkSlice (elems s ++ [x]) (S (len s)).

End Slice.

Import Slice.

(** ** Strings *)

Definition newline : string := String (ascii_of_nat 10) EmptyString.

Definition sep2 : string := (newline ++ newline)%string.

(** [len(s)], a number of bytes. *)
Definition strlen (s : string) : Z := Z.of_nat (String.length s).

(** [s[:n]] and [s[n:]] for [0 <= n <= len(s)]. *)
Definition take (n : nat) (s : string) : string := substring 0 n s.
Definition drop (n : nat) (s : string) : string :=
  substring n (String.length s - n) s.

(** [strings.Split(s, sep)] for a non-empty [sep]: cut at the leftmost
    occurrences of [sep], which do not overlap.  [k] counts the bytes of a
    separator just found that are still to be skipped. *)
Fixpoint Split_from (sep : string) (k : nat) (s : string) : list string :=
  match s with
  | EmptyString => [EmptyString]
  | String c s' =>
      match k with
      | S k' => Split_from sep k' s'
      | O =>
          if prefix sep s
          then EmptyString :: Split_from sep (String.length sep - 1) s'
          else match Split_from sep 0 s' with
               | p :: ps => String c p :: ps
               | [] => [String c EmptyString]
               end
      end
  end.

Definition Split (s sep : string) : list string := Split_from sep 0 s.

(** ** Data model *)

Record Document : Type := mkDocument { Path : string }.

Record Chunk : Type := mkChunk {
  ChunkDocument : Document;      (* field [Document *Document] *)
  Text : string;
  Embedding : list float
}.

Record Grokker : Type := mkGrokker {
  Root : string;
  Documents : slice Document;
  Chunks : list Chunk;
  MaxChunkSize : Z;
  CharsPerToken : float
}.

Definition set_Documents (g : Grokker) (d : slice Document) : Grokker :=
  mkGrokker (Root g) d (Chunks g) (MaxChunkSize g) (CharsPerToken g).

Definition set_Chunks (g : Grokker) (c : list Chunk) : Grokker :=
  mkGrokker (Root g) (Documents g) c (MaxChunkSize g) (CharsPerToken g).

(** [New]: [MaxChunkSize: 4096 * 4.0], [CharsPerToken: 3.5]. *)
Definition New : Grokker :=
  mkGrokker EmptyString Slice.nil [] (4096 * 4) 3.5%float.

(** ** Environment: file system and remote services *)

Inductive StatResult : Type :=
| StatOk (modTime : Z)
| StatNotExist
| StatFail.

Record Message : Type := mkMessage { Role : string; Content : string }.

(** [Choices] holds [Message.Content] of each choice of the response. *)
Record ChatResponse : Type := mkChatResponse {
  Choices : list string;
  TotalTokens : Z
}.

Record Env : Type := mkEnv {
  stat : string -> StatResult;
  readFile : string -> option string;
  (* one embedding request: [res.Data] of the response, [None] on error *)
  embeddingAPI : list string -> option (list (list float));
  (* one chat completion request *)
  chatAPI : list Message -> option ChatResponse
}.

(** ** The state monad of the methods *)

Record World : Type := mkWorld {
  store : Grokker;
  embeddingLog : list (list string);   (* [Input] of each embedding request *)
  chatLog : list (list Message)        (* [Messages] of each chat request *)
}.

Definition M (A : Type) : Type := World -> outcome A * World.

Definition ret {A} (a : A) : M A := fun w => (Ok a, w).

Definition bind {A B} (m : M A) (f : A -> M B) : M B :=
  fun w =>
    match m w with
    | (Ok a, w') => f a w'
    | (Err e, w') => (Err e, w')
    | (Panic, w') => (Panic, w')
    | (OutOfFuel, w') => (OutOfFuel, w')
    end.

Declare Scope go_scope.
Delimit Scope go_scope with go.
Notation "x <- m ;; k" := (bind m (fun x => k))
  (at level 61, m at next level, right associativity) : go_scope.
Notation "m ;;; k" := (bind m (fun _ => k))
  (at level 61, right associativity) : go_scope.

Definition getStore : M Grokker := fun w => (Ok (store w), w).

Definition modifyStore (f : Grokker -> Grokker) : M unit :=
  fun w => (Ok tt, mkWorld (f (store w)) (embeddingLog w) (chatLog w)).

Definition lift {A} (o : outcome A) : M A := fun w => (o, w).

(** A call of a method whose error result the caller drops; the methods
    called this way ([RemoveDocument], [GC]) never fail. *)
Definition run {A} (m : M A) (w : World) : outcome A := fst (m w).
Definition exec {A} (m : M A) (w : World) : World := snd (m w).

Definition initWorld (g : Grokker) : World := mkWorld g [] [].

Local Open Scope go_scope.

(** ** Chunker *)

(** The inner loop of [chunkStrings] on one paragraph:
    [for len(paragraph) > 0 { ... }].  Each round consumes
    [MaxChunkSize] bytes, so the loop makes no progress when
    [MaxChunkSize] is 0, and [paragraph[:MaxChunkSize]] is out of range
    when it is negative. *)
Fixpoint chunkParagraph (fuel : nat) (maxChunkSize : Z) (paragraph : string)
  : outcome (list string) :=
  if (String.length paragraph =? 0)%nat then Ok []
  else
    match fuel with
    | O => OutOfFuel
    | S fuel' =>
        if (strlen paragraph >? maxChunkSize)%Z
        then
          if (maxChunkSize <? 0)%Z then Panic
          else
            obind (chunkParagraph fuel' maxChunkSize
                     (drop (Z.to_nat maxChunkSize) paragraph))
                  (fun c => Ok (take (Z.to_nat maxChunkSize) paragraph :: c))
        else Ok [paragraph]
    end.

(** The outer loop over the paragraphs, appending to [c]. *)
Fixpoint chunkParagraphs (maxChunkSize : Z) (paragraphs : list string)
  : outcome (list string) :=
  match paragraphs with
  | [] => Ok []
  | paragraph :: rest =>
      obind (chunkParagraph (String.length paragraph) maxChunkSize paragraph)
            (fun c1 => obind (chunkParagraphs maxChunkSize rest)
                             (fun c2 => Ok (c1 ++ c2)))
  end.

(** [chunkStrings] after the file is read: split on paragraph boundaries,
    then cut the long paragraphs. *)
Definition chunkText (maxChunkSize : Z) (txt : string)
  : outcome (list string) :=
  chunkParagraphs maxChunkSize (Split txt sep2).

Definition chunkStrings (env : Env) (g : Grokker) (doc : Document)
  : outcome (list string) :=
  match readFile env (Path doc) with
  | None => Err EReadFile
  | Some txt => chunkText (MaxChunkSize g) txt
  end.

(** ** Embedding client *)

(** The loop of [CreateEmbeddings]:
    [for i := 0; i < len(texts); i += 100], which sends [texts[i:end]] and
    appends every element of [res.Data].  The second component is the log
    of the requests sent.  The method has no [defer Return(&err)]:
    [Ck(err)] leaves it by a panic that carries the error, written [Err]
    here, and its callers [UpdateDocument] and [FindChunks], which have
    the defer, recover that panic and return the error.  [noDefer] gives
    the ending of a direct call. *)
Equations CreateEmbeddings_loop
  (api : list string -> option (list (list float)))
  (texts : list string) (i : nat)
  (embeddings : list (list float)) (log : list (list string))
  : outcome (list (list float)) * list (list string)
  by wf (length texts - i) lt :=
CreateEmbeddings_loop api texts i embeddings log
  with lt_dec i (length texts) := {
  | right _ => (Ok embeddings, log)
  | left _
    with api (firstn (Nat.min (i + 100) (length texts) - i)
                     (skipn i texts)) := {
    | None =>
        (Err EEmbedding,
         log ++ [firstn (Nat.min (i + 100) (length texts) - i)
                        (skipn i texts)])
    | Some data =>
        CreateEmbeddings_loop api texts (i + 100) (embeddings ++ data)
          (log ++ [firstn (Nat.min (i + 100) (length texts) - i)
                          (skipn i texts)])
    }
  }.
Next Obligation. lia. Qed.

Definition CreateEmbeddings (env : Env) (texts : list string)
  : M (list (list float)) :=
  fun w =>
    let '(r, log) :=
      CreateEmbeddings_loop (embeddingAPI env) texts 0 [] (embeddingLog w) in
    (r, mkWorld (store w) log (chatLog w)).

(** ** Chunk store *)

(** Index of the first document whose path is [path]. *)
Fixpoint indexOfPath (path : string) (docs : list Document) : option nat :=
  match docs with
  | [] => None
  | d :: rest =>
      if (Path d =? path)%string then Some O
      else option_map S (indexOfPath path rest)
  end.

Definition RemoveDocument (doc : Document) : M unit :=
  modifyStore (fun g =>
    match indexOfPath (Path doc) (elems (Documents g)) with
    | Some i => set_Documents g (delete (Documents g) i)
    | None => g
    end).

(** [referenced] of the body of [GC]. *)
Definition referenced (docs : list Document) (chunk : Chunk) : bool :=
  existsb (fun doc => (Path doc =? Path (ChunkDocument chunk))%string) docs.

Definition GC : M unit :=
  modifyStore (fun g =>
    set_Chunks g (filter (referenced (elems (Documents g))) (Chunks g))).

(** The first loop of [UpdateDocument]: the existing chunks of the
    document, found by its path. *)
Definition chunksOfPath (path : string) (chunks : list Chunk) : list Chunk :=
  filter (fun chunk => (Path (ChunkDocument chunk) =? path)%string) chunks.

(** The search of [UpdateDocument] for [chunkString] among [oldChunks]:
    the first chunk with that text is taken out of the list. *)
Fixpoint takeOld (chunkString : string) (oldChunks : list Chunk)
  : option (list Chunk) :=
  match oldChunks with
  | [] => None
  | oldChunk :: rest =>
      if (Text oldChunk =? chunkString)%string then Some rest
      else option_map (cons oldChunk) (takeOld chunkString rest)
  end.

(** The loop over [chunkStrings]; the state is
    [(oldChunks, updated, newChunkStrings)]. *)
Fixpoint diffChunks (chunkStrings : list string) (oldChunks : list Chunk)
  (updated : bool) (newChunkStrings : list string)
  : list Chunk * bool * list string :=
  match chunkStrings with
  | [] => (oldChunks, updated, newChunkStrings)
  | chunkString :: rest =>
      match takeOld chunkString oldChunks with
      | Some oldChunks' => diffChunks rest oldChunks' updated newChunkStrings
      | None =>
          diffChunks rest oldChunks true (newChunkStrings ++ [chunkString])
      end
  end.

(** The last loop of [UpdateDocument], from index [i] on: each new chunk
    is appended to [g.Chunks] at once, and [embeddings[i]] panics when the
    response was too short. *)
Fixpoint appendChunks (doc : Document) (texts : list string) (i : nat)
  (embeddings : list (list float)) : M unit :=
  match texts with
  | [] => ret tt
  | text :: rest =>
      match nth_error embeddings i with
      | None => lift Panic
      | Some e =>
          modifyStore
            (fun g => set_Chunks g (Chunks g ++ [mkChunk doc text e]));;;
          appendChunks doc rest (S i) embeddings
      end
  end.

Definition UpdateDocument (env : Env) (doc : Document) : M bool :=
  g <- getStore;;
  chunkStrings <- lift (chunkStrings env g doc);;
  let oldChunks := chunksOfPath (Path doc) (Chunks g) in
  let '(_, updated, newChunkStrings) :=
    diffChunks chunkStrings oldChunks false [] in
  embeddings <- CreateEmbeddings env newChunkStrings;;
  appendChunks doc newChunkStrings 0 embeddings;;;
  ret updated.

Definition AddDocument (env : Env) (path : string) : M unit :=
  let doc := mkDocument path in
  g <- getStore;;
  (if existsb (fun d => (Path d =? Path doc)%string) (elems (Documents g))
   then ret tt
   else modifyStore (fun g => set_Documents g (append (Documents g) doc)));;;
  _ <- UpdateDocument env doc;;
  ret tt.

(** The loop [for _, doc := range g.Documents] of [UpdateEmbeddings].
    The range expression is evaluated once: the loop runs over the length
    the slice had at entry and reads element [i] of the backing array when
    it reaches it, after whatever [RemoveDocument] moved meanwhile.
    [todo] is the number of rounds left. *)
Fixpoint rangeDocuments (env : Env) (lastUpdate : Z) (todo i : nat)
  (update : bool) : M bool :=
  match todo with
  | O => ret update
  | S todo' =>
      g <- getStore;;
      match nth_error (array (Documents g)) i with
      | None => lift Panic
      | Some doc =>
          match stat env (Path doc) with
          | StatNotExist =>
              RemoveDocument doc;;;
              rangeDocuments env lastUpdate todo' (S i) true
          | StatFail => lift (Err EStat)
          | StatOk modTime =>
              if (modTime >? lastUpdate)%Z
              then
                updated <- UpdateDocument env doc;;
                rangeDocuments env lastUpdate todo' (S i) (update || updated)
              else rangeDocuments env lastUpdate todo' (S i) update
          end
      end
  end.

Definition UpdateEmbeddings (env : Env) (grokfn : string) : M bool :=
  match stat env grokfn with
  | StatOk lastUpdate =>
      g <- getStore;;
      update <- rangeDocuments env lastUpdate (len (Documents g)) 0 false;;
      GC;;;
      ret update
  | _ => lift (Err EStat)
  end.

(** [RefreshEmbeddings]: no removal here, the range is over an unchanged
    slice. *)
Fixpoint refreshDocuments (env : Env) (docs : list Document) : M unit :=
  match docs with
  | [] => ret tt
  | doc :: rest => _ <- UpdateDocument env doc;; refreshDocuments env rest
  end.

Definition RefreshEmbeddings (env : Env) : M unit :=
  g <- getStore;;
  refreshDocuments env (elems (Documents g));;;
  GC.

(** ** Similarity ranker *)

Local Open Scope float_scope.

(** [Similarity]: the loop [for i := range a] reads [b[i]], which panics
    when [b] is shorter than [a].  Each operation is rounded on its own;
    a Go compiler may fuse [x*y + z] on some machines, which changes the
    last bit of a score and nothing that is proved below. *)
Fixpoint Similarity_loop (a b : list float) (dot magA magB : float)
  : outcome float :=
  match a with
  | [] => Ok (dot / (sqrt magA * sqrt magB))
  | x :: a' =>
      match b with
      | [] => Panic
      | y :: b' =>
          Similarity_loop a' b' (dot + x * y) (magA + x * x) (magB + y * y)
      end
  end.

Definition Similarity (a b : list float) : outcome float :=
  Similarity_loop a b 0 0 0.

Record Sim : Type := mkSim { chunk : Chunk; score : float }.

(** The first loop of [SimilarChunks]. *)
Fixpoint scoreChunks (embedding : list float) (chunks : list Chunk)
  : outcome (list Sim) :=
  match chunks with
  | [] => Ok []
  | c :: rest =>
      obind (Similarity embedding (Embedding c)) (fun s =>
      obind (scoreChunks embedding rest) (fun sims =>
      Ok (mkSim c s :: sims)))
  end.

(** The [less] function handed to [sort.Slice]:
    [sims[i].score > sims[j].score]. *)
Definition simLess (x y : Sim) : bool := score y <? score x.

Local Close Scope float_scope.

(** The last loop of [SimilarChunks],
    [for i := 0; i < K && i < len(sims); i++], on [sims[i:]]. *)
Fixpoint topChunks (K i : Z) (sims : list Sim) (chunks : list Chunk)
  : list Chunk :=
  match sims with
  | [] => chunks
  | s :: rest =>
      if (i <? K)%Z then topChunks K (i + 1)%Z rest (chunks ++ [chunk s])
      else chunks
  end.

Definition promptTmpl : string :=
  ("{{.Question}}" ++ newline ++ newline ++ "Context:" ++ newline
     ++ "{{.Context}}")%string.

(** The loop of [Answer] that builds [context]. *)
Fixpoint contextLoop (maxSize : Z) (chunks : list Chunk) (context : string)
  : string :=
  match chunks with
  | [] => context
  | c :: rest =>
      let context := (context ++ (Text c ++ sep2))%string in
      if (strlen context + strlen promptTmpl >? maxSize)%Z
      then context
      else contextLoop maxSize rest context
  end.

(** [chat]: one chat completion request; [resp.Choices[0]] is read for the
    debug line. *)
Definition chat (env : Env) (messages : list Message) : M ChatResponse :=
  fun w =>
    let w' := mkWorld (store w) (embeddingLog w) (chatLog w ++ [messages]) in
    match chatAPI env messages with
    | None => (Err EChat, w')
    | Some resp =>
        match Choices resp with
        | [] => (Panic, w')
        | _ :: _ => (Ok resp, w')
        end
    end.

(** [Generate]; the result [query] is never assigned. *)
Definition Generate (env : Env) (question ctxt : string) (global : bool)
  : M (ChatResponse * string) :=
  let messages := [mkMessage "system" "You are a helpful assistant."] in
  messages <-
    (if global
     then
       let messages := messages ++ [mkMessage "user" question] in
       resp <- chat env messages;;
       match Choices resp with
       | [] => lift Panic
       | content :: _ => ret (messages ++ [mkMessage "assistant" content])
       end
     else ret messages);;
  let messages :=
    messages ++ [mkMessage "user" ctxt;
                 mkMessage "assistant" "Great! I've read the context."] in
  let messages := messages ++ [mkMessage "user" question] in
  resp <- chat env messages;;
  ret (resp, EmptyString).

Section Ranker.

(** [sort.Slice(x, less)] of the Go library, on the elements of [x]. *)
Variable sort_Slice : forall A : Type, (A -> A -> bool) -> list A -> list A.

Definition SimilarChunks (g : Grokker) (embedding : list float) (K : Z)
  : outcome (list Chunk) :=
  obind (scoreChunks embedding (Chunks g)) (fun sims =>
  let sims := sort_Slice simLess sims in
  let K := if (K =? 0)%Z then Z.of_nat (length sims) else K in
  Ok (topChunks K 0 sims [])).

Definition FindChunks (env : Env) (query : string) (K : Z)
  : M (list Chunk) :=
  embeddings <- CreateEmbeddings env [query];;
  match embeddings with
  | [] => lift Panic
  | queryEmbedding :: _ =>
      g <- getStore;;
      lift (SimilarChunks g queryEmbedding K)
  end.

(** [maxSize := int(float64(g.MaxChunkSize) * 0.5)]: halving is exact in
    binary64 for sizes below 2^53, and [int] truncates toward zero. *)
Definition Answer (env : Env) (question : string) (global : bool)
  : M (ChatResponse * string) :=
  chunks <- FindChunks env question 0;;
  g <- getStore;;
  let maxSize := Z.quot (MaxChunkSize g) 2 in
  let context := contextLoop maxSize chunks EmptyString in
  Generate env question context global.

End Ranker.

(** *** The contract of [sort.Slice]

    The documentation of the Go library promises that the slice is sorted
    by [less] when [less] is a transitive ordering (both [less] and its
    negation are transitive), and says that the sort is not guaranteed to
    be stable. *)

Definition orders {A} (less : A -> A -> bool) (l : list A) : Prop :=
  (forall x, In x l -> less x x = false)
  /\ (forall x y z, In x l -> In y l -> In z l ->
        less x y = true -> less y z = true -> less x z = true)
  /\ (forall x y z, In x l -> In y l -> In z l ->
        less x y = false -> less y z = false -> less x z = false).

Definition sort_contract
  (sort : forall A : Type, (A -> A -> bool) -> list A -> list A) : Prop :=
  forall (A : Type) (less : A -> A -> bool) (l : list A),
    Permutation l (sort A less l)
    /\ (orders less l ->
        StronglySorted (fun x y => less y x = false) (sort A less l)).

(** * Definitions used by the statements *)

(** ** Store *)

(** What [RemoveDocument] leaves of the document list: the first entry
    with the given path is taken out. *)
Fixpoint removePath (path : string) (docs : list Document) : list Document :=
  match docs with
  | [] => []
  | d :: rest =>
      if (Path d =? path)%string then rest else d :: removePath path rest
  end.

(** What a call leaves alone in the store. *)
Definition sameConfig (g g' : Grokker) : Prop :=
  Root g' = Root g
  /\ Documents g' = Documents g
  /\ MaxChunkSize g' = MaxChunkSize g
  /\ CharsPerToken g' = CharsPerToken g.

(** The chunk strings that [diffChunks] finds new: those that match no
    old chunk still unmatched. *)
Fixpoint newStrings (chunkStrings : list string) (oldChunks : list Chunk)
  : list string :=
  match chunkStrings with
  | [] => []
  | s :: rest =>
      match takeOld s oldChunks with
      | Some oldChunks' => newStrings rest oldChunks'
      | None => s :: newStrings rest oldChunks
      end
  end.

Definition nonEmpty {A} (l : list A) : bool :=
  match l with [] => false | _ :: _ => true end.

(** Sizes of the successive embedding requests for [n] texts still to
    send. *)
Fixpoint batchSizes (fuel n : nat) : list nat :=
  match fuel with
  | O => []
  | S fuel' =>
      if n =? 0 then [] else Nat.min 100 n :: batchSizes fuel' (n - 100)
  end.

(** ** The deduplication invariant and sequences of calls *)

(** No two chunks of the same document path have the same text. *)
Definition dedup (g : Grokker) : Prop :=
  forall path, NoDup (map Text (chunksOfPath path (Chunks g))).

(** The operations of the store, each with the environment it runs in. *)
Inductive op : Type :=
| OpAddDocument (env : Env) (path : string)
| OpUpdateDocument (env : Env) (doc : Document)
| OpRemoveDocument (doc : Document)
| OpGC.

Definition step (o : op) : M unit :=
  match o with
  | OpAddDocument env path => AddDocument env path
  | OpUpdateDocument env doc => _ <- UpdateDocument env doc;; ret tt
  | OpRemoveDocument doc => RemoveDocument doc
  | OpGC => GC
  end.

(** A sequence of calls; a call that fails leaves the store as it was at
    the failure and the next call goes on from there. *)
Definition runOps (ops : list op) (w : World) : World :=
  fold_left (fun w o => exec (step o) w) ops w.

(** The file of the document, when it can be read and chunked, has no
    segment twice. *)
Definition distinctSegments (maxChunkSize : Z) (env : Env) (path : string)
  : Prop :=
  forall txt cs,
    readFile env path = Some txt ->
    chunkText maxChunkSize txt = Ok cs ->
    NoDup cs.

Definition opDistinct (maxChunkSize : Z) (o : op) : Prop :=
  match o with
  | OpAddDocument env path => distinctSegments maxChunkSize env path
  | OpUpdateDocument env doc => distinctSegments maxChunkSize env (Path doc)
  | OpRemoveDocument _ => True
  | OpGC => True
  end.

(** ** Order of binary64 numbers

    The comparison of two numbers that are not NaN, in the specification
    of the primitive floats, is the lexicographic comparison of these
    keys. *)

Definition sfkey (f : spec_float) : Z * Z * Z :=
  match f with
  | S754_nan => (0, 0, 0)%Z
  | S754_zero _ => (0, 0, 0)%Z
  | S754_infinity true => (-2, 0, 0)%Z
  | S754_infinity false => (2, 0, 0)%Z
  | S754_finite true m e => (-1, - e, - Z.pos m)%Z
  | S754_finite false m e => (1, e, Z.pos m)%Z
  end.

Definition kcmp (a b : Z * Z * Z) : comparison :=
  let '(a1, a2, a3) := a in
  let '(b1, b2, b3) := b in
  match (a1 ?= b1)%Z with
  | Eq => match (a2 ?= b2)%Z with
          | Eq => (a3 ?= b3)%Z
          | c => c
          end
  | c => c
  end.

Definition fkey (x : float) : Z * Z * Z := sfkey (Prim2SF x).

(** ** Two sorts that meet the contract of [sort.Slice] *)

Fixpoint insertSorted {A} (less : A -> A -> bool) (x : A) (l : list A)
  : list A :=
  match l with
  | [] => [x]
  | y :: r => if less y x then y :: insertSorted less x r else x :: y :: r
  end.

(** Insertion sort; equal elements keep their order. *)
Fixpoint insertionSort {A} (less : A -> A -> bool) (l : list A) : list A :=
  match l with
  | [] => []
  | x :: r => insertSorted less x (insertionSort less r)
  end.

(** The same sort started from the other end: equal elements come out in
    reverse order. *)
Definition reversingSort (A : Type) (less : A -> A -> bool) (l : list A)
  : list A :=
  insertionSort less (rev l).

(** ** Embedding requests, whatever the service answers *)

(** [batchRun api requests r]: the requests that the loop of
    [CreateEmbeddings] sends to [api], one after the other, and what the
    loop ends with: all of them answered, or the last one refused. *)
Inductive batchRun (api : list string -> option (list (list float)))
  : list (list string) -> outcome (list (list float)) -> Prop :=
| batchRun_done : batchRun api [] (Ok [])
| batchRun_fail input :
    api input = None -> batchRun api [input] (Err EEmbedding)
| batchRun_next input data requests r :
    api input = Some data ->
    batchRun api requests r ->
    batchRun api (input :: requests)
      (match r with Ok embeddings => Ok (data ++ embeddings) | _ => r end).

(** ** Documents and their files *)

(** The file of the document is there, as far as [os.Stat] tells: any
    answer but [os.IsNotExist]. *)
Definition onDisk (env : Env) (d : Document) : bool :=
  match stat env (Path d) with
  | StatNotExist => false
  | _ => true
  end.

(** The chunks of the store cover the file of the document: chunking the
    file again finds no new chunk string. *)
Definition settled (env : Env) (g : Grokker) (doc : Document) : Prop :=
  exists cs,
    chunkStrings env g doc = Ok cs
    /\ newStrings cs (chunksOfPath (Path doc) (Chunks g)) = [].

(** ** Chat requests and the context *)

Definition systemMessage : Message :=
  mkMessage "system" "You are a helpful assistant.".

(** A chat request that starts with the system message and ends with the
    question. *)
Definition framed (question : string) (messages : list Message) : Prop :=
  hd_error messages = Some systemMessage
  /\ last messages systemMessage = mkMessage "user" question.

(** The texts of the chunks, each followed by a blank line. *)
Fixpoint joinChunks (chunks : list Chunk) : string :=
  match chunks with
  | [] => EmptyString
  | c :: rest => (Text c ++ sep2 ++ joinChunks rest)%string
  end.

(** ** How a call ends for the code that makes it

    In the monad [M] the outcome [Err e] is the error that [Ck] raised, on
    its way up.  A method with [defer Return(&err)] hands it to its caller
    as its result [err], and every caller in the package raises it again
    with [Ck(err)].  A method without that defer ([CreateEmbeddings],
    [Save], [Load]) is left by a panic that carries the error, which the
    [defer Return(&err)] of a caller up the stack recovers, if there is
    one. *)
Inductive ending (E A : Type) : Type :=
| Returns (a : A)             (* the method returns; [a] holds its results *)
| PanicsWithError (e : E)     (* [Ck(err)] in a method with no
                                 [defer Return(&err)] *)
| PanicsAtRuntime             (* index or slice bound out of range *)
| RunsForever.

Arguments Returns {E A} a.
Arguments PanicsWithError {E A} e.
Arguments PanicsAtRuntime {E A}.
Arguments RunsForever {E A}.

(** The ending of a direct call of a method that has no
    [defer Return(&err)], from its outcome in [M]; the result [err] of
    such a method is [nil] whenever it returns. *)
Definition noDefer {A} (o : outcome A) : ending error A :=
  match o with
  | Ok a => Returns a
  | Err e => PanicsWithError e
  | Panic => PanicsAtRuntime
  | OutOfFuel => RunsForever
  end.

(** ** Persistence: [Save] and [Load] *)

(** *** UTF-8, as package [unicode/utf8] reads it *)

Definition between (lo hi : nat) (c : ascii) : bool :=
  (lo <=? nat_of_ascii c) && (nat_of_ascii c <=? hi).

(** A continuation byte, 0x80 to 0xBF. *)
Definition continuation (c : ascii) : bool := between 128 191 c.

(** The number of bytes of the well-formed UTF-8 sequence that [s] starts
    with, and 0 when it starts with none: what [utf8.DecodeRuneInString]
    reports as the error rune of width 1 (or 0 for the empty string). *)
Definition runeLen (s : string) : nat :=
  match s with
  | EmptyString => 0
  | String b0 s1 =>
      if between 0 127 b0 then 1
      else
        match s1 with
        | EmptyString => 0
        | String b1 s2 =>
            if between 194 223 b0 && continuation b1 then 2
            else
              match s2 with
              | EmptyString => 0
              | String b2 s3 =>
                  if (between 224 224 b0 && between 160 191 b1
                      || between 225 236 b0 && continuation b1
                      || between 237 237 b0 && between 128 159 b1
                      || between 238 239 b0 && continuation b1)
                     && continuation b2
                  then 3
                  else
                    match s3 with
                    | EmptyString => 0
                    | String b3 _ =>
                        if (between 240 240 b0 && between 144 191 b1
                            || between 241 243 b0 && continuation b1
                            || between 244 244 b0 && between 128 143 b1)
                           && continuation b2 && continuation b3
                        then 4
                        else 0
                    end
              end
        end
  end.

(** [utf8.ValidString]; [skip] counts the bytes of the current sequence
    still to pass. *)
Fixpoint ValidString_from (skip : nat) (s : string) : bool :=
  match s with
  | EmptyString => true
  | String _ s' =>
      match skip with
      | S k => ValidString_from k s'
      | O =>
          match runeLen s with
          | O => false
          | S k => ValidString_from k s'
          end
      end
  end.

Definition ValidString (s : string) : bool := ValidString_from 0 s.

(** U+FFFD, the replacement rune, in UTF-8. *)
Definition replacement : string :=
  String (ascii_of_nat 239)
    (String (ascii_of_nat 191) (String (ascii_of_nat 189) EmptyString)).

(** A string as [json.Marshal] encodes it and [json.Unmarshal] gives it
    back: coerced to valid UTF-8, each invalid byte replaced by the
    replacement rune. *)
Fixpoint coerceUTF8_from (skip : nat) (s : string) : string :=
  match s with
  | EmptyString => EmptyString
  | String c s' =>
      match skip with
      | S k => String c (coerceUTF8_from k s')
      | O =>
          match runeLen s with
          | O => (replacement ++ coerceUTF8_from 0 s')%string
          | S k => String c (coerceUTF8_from k s')
          end
      end
  end.

Definition coerceUTF8 (s : string) : string := coerceUTF8_from 0 s.

Definition coerceDocument (d : Document) : Document :=
  mkDocument (coerceUTF8 (Path d)).

Definition coerceChunk (c : Chunk) : Chunk :=
  mkChunk (coerceDocument (ChunkDocument c)) (coerceUTF8 (Text c))
    (Embedding c).

(** *** What the store holds *)

(** No number of the store is NaN or infinite. *)
Definition finiteNumbers (g : Grokker) : bool :=
  PrimFloat.is_finite (CharsPerToken g)
  && forallb (fun c => forallb PrimFloat.is_finite (Embedding c)) (Chunks g).

(** Every string of the store is valid UTF-8. *)
Definition validStrings (g : Grokker) : bool :=
  ValidString (Root g)
  && forallb (fun d => ValidString (Path d)) (elems (Documents g))
  && forallb (fun c => ValidString (Path (ChunkDocument c))
                       && ValidString (Text c)) (Chunks g).

(** *** Writer and reader *)

Inductive persistError : Type :=
| EMarshal      (* [json.Marshal] *)
| EWrite        (* [w.Write] *)
| EReadAll      (* [ioutil.ReadAll] *)
| EUnmarshal.   (* [json.Unmarshal] *)

(** An [io.Writer] that keeps what is written to it, or refuses. *)
Record Writer (bytes : Type) : Type := mkWriter {
  refuses : bool;
  written : list bytes
}.

Definition Write {bytes} (w : Writer bytes) (data : bytes)
  : Writer bytes * option persistError :=
  if refuses w then (w, Some EWrite)
  else (mkWriter false (written w ++ [data]), None).

Section Persistence.

(** The encoded store, [[]byte] in the source: only [json.Marshal] makes
    it and only [json.Unmarshal] reads it. *)
Variable bytes : Type.

(** [json.Marshal(g)]: the data, or [None] for an error. *)
Variable json_Marshal : Grokker -> option bytes.

(** [json.Unmarshal(buf, g)]: what [g] points to after the call, and
    whether the call returned an error. *)
Variable json_Unmarshal : bytes -> Grokker -> Grokker * bool.

(** [Load]; [r] is what [ioutil.ReadAll] reads, [None] for an error.
    The result is the pair [(g, err)]. *)
Definition Load (r : option bytes)
  : ending persistError (Grokker * option persistError) :=
  match r with
  | None => PanicsWithError EReadAll
  | Some buf =>
      let g := New in
      let '(g, failed) := json_Unmarshal buf g in
      Returns (g, if failed then Some EUnmarshal else None)
  end.

(** [Save]; the result is [err]. *)
Definition Save (g : Grokker) (w : Writer bytes)
  : ending persistError (option persistError) * Writer bytes :=
  match json_Marshal g with
  | None => (PanicsWithError EMarshal, w)
  | Some data =>
      let '(w, err) := Write w data in
      (Returns err, w)
  end.

End Persistence.

(** *** The contract of [json.Marshal] and [json.Unmarshal]

    What the documentation of package [encoding/json] promises for a
    value of type [Grokker]: the exported fields are encoded, a number
    that is NaN or infinite is refused with an error, a string is encoded
    coerced to valid UTF-8, and decoding the data into a value that holds
    no document and no chunk, as the one [New] makes, gives the strings as
    they were encoded, the integers, and the numbers bit for bit (a number
    is written with the fewest digits that read back as the same
    [float64]). *)
Definition json_contract (bytes : Type)
  (Marshal : Grokker -> option bytes)
  (Unmarshal : bytes -> Grokker -> Grokker * bool) : Prop :=
  forall g : Grokker,
    match Marshal g with
    | None => finiteNumbers g = false
    | Some data =>
        finiteNumbers g = true
        /\ forall v : Grokker,
             elems (Documents v) = [] -> Chunks v = [] ->
             exists v',
               Unmarshal data v = (v', false)
               /\ Root v' = coerceUTF8 (Root g)
               /\ elems (Documents v')
                  = map coerceDocument (elems (Documents g))
               /\ Chunks v' = map coerceChunk (Chunks g)
               /\ MaxChunkSize v' = MaxChunkSize g
               /\ CharsPerToken v' = CharsPerToken g
    end.

(** * Package aidda: the prompt file and the ignore file

    The functions of package [aidda] that read and create the files of
    the [.aidda] directory.  The library functions they call on strings
    and paths ([strings.TrimSpace], [strings.Fields], [filepath.Dir],
    [filepath.IsAbs], [filepath.Join]) are parameters; [strings.Split],
    [strings.SplitN], [strings.HasPrefix], [strings.Contains] and
    [strings.Join] are written out on byte strings.  What is printed is
    left out. *)

Module Aidda.

(** ** Errors and results *)

Inductive error : Type :=
| ErrStat            (* [os.Stat] failed, and not with "not exist" *)
| ErrCreate          (* [os.Create] *)
| ErrWrite           (* [io.WriteString], [fh.WriteString] *)
| ErrReadFile        (* [ioutil.ReadFile] *)
| ErrGetFiles        (* [getFiles] *)
| ErrGetFilesInDir   (* [getFilesInDir] *)
| ErrComment         (* prompt file must not start with a comment *)
| ErrBlankLine       (* prompt file must have a blank line after the
                        first line, just like a commit message *)
| ErrNoHeaders       (* no headers found at the end of the prompt file *)
| ErrContinuation    (* continuation line found without a preceding
                        header *)
| ErrInput (f : string).   (* error reading [f] *)

Inductive result (A : Type) : Type :=
| Done (a : A)
| Fail (e : error).

Arguments Done {A} a.
Arguments Fail {A} e.

(** ** The library *)

Record Lib : Type := mkLib {
  TrimSpace : string -> string;          (* [strings.TrimSpace] *)
  Fields : string -> list string;        (* [strings.Fields] *)
  Dir : string -> string;                (* [filepath.Dir] *)
  IsAbs : string -> bool;                (* [filepath.IsAbs] *)
  Join : string -> string -> string      (* [filepath.Join] of two *)
}.

(** [strings.HasPrefix(s, prefix)]. *)
Definition HasPrefix (s prefix : string) : bool := String.prefix prefix s.

(** [strings.Contains(s, substr)]. *)
Fixpoint Contains (s substr : string) : bool :=
  if String.prefix substr s then true
  else
    match s with
    | EmptyString => false
    | String _ s' => Contains s' substr
    end.

(** [strings.SplitN(s, sep, 2)] for a separator of one byte: [None]
    stands for the slice of one element [s], returned when [sep] does not
    occur, and [Some (a, b)] for the two parts around its first
    occurrence. *)
Fixpoint SplitN2 (s : string) (sep : ascii) : option (string * string) :=
  match s with
  | EmptyString => None
  | String c s' =>
      if Ascii.eqb c sep then Some (EmptyString, s')
      else
        match SplitN2 s' sep with
        | Some (a, b) => Some (String c a, b)
        | None => None
        end
  end.

Definition tab : string := String (ascii_of_nat 9) EmptyString.

(** ** The file system

    The regular files with their bytes, and what the operating system
    answers besides: the paths that are directories, and the calls that
    fail.  A write that fails leaves the file as it was. *)

Definition Disk : Type := string -> option string.

Definition writeDisk (d : Disk) (path data : string) : Disk :=
  fun p => if (p =? path)%string then Some data else d p.

Record Sys : Type := mkSys {
  statFails : string -> bool;
  isDir : string -> bool;
  createFails : string -> bool;
  writeFails : string -> string -> bool;   (* the file, the bytes *)
  readFails : string -> bool;
  (* the results of the two directory walks, [None] on error *)
  getFiles : option (list string);
  getFilesInDir : string -> option (list string)
}.

Inductive StatInfo : Type :=
| Found (IsDir : bool)
| NotExist
| StatError.

Definition Stat (sys : Sys) (d : Disk) (path : string) : StatInfo :=
  if statFails sys path then StatError
  else if isDir sys path then Found true
  else
    match d path with
    | Some _ => Found false
    | None => NotExist
    end.

Definition ReadFile (sys : Sys) (d : Disk) (path : string) : option string :=
  if readFails sys path then None else d path.

(** The functions that write: a state monad over the disk. *)
Definition IO (A : Type) : Type := Disk -> result A * Disk.

Definition io_ret {A} (a : A) : IO A := fun d => (Done a, d).

Definition io_fail {A} (e : error) : IO A := fun d => (Fail e, d).

Definition io_bind {A B} (m : IO A) (f : A -> IO B) : IO B :=
  fun d =>
    match m d with
    | (Done a, d') => f a d'
    | (Fail e, d') => (Fail e, d')
    end.

(** [os.Create]: the file is there and empty. *)
Definition Create (sys : Sys) (path : string) : IO unit :=
  fun d =>
    if createFails sys path then (Fail ErrCreate, d)
    else (Done tt, writeDisk d path EmptyString).

(** [WriteString] on the file opened at [path]: the bytes are appended. *)
Definition WriteString (sys : Sys) (path data : string) : IO unit :=
  fun d =>
    if writeFails sys path data then (Fail ErrWrite, d)
    else
      match d path with
      | Some old => (Done tt, writeDisk d path (old ++ data))
      | None => (Done tt, writeDisk d path data)
      end.

(** ** The prompt *)

Record Prompt : Type := mkPrompt {
  Sysmsg : string;
  In : list string;
  Out : list string;
  Txt : string
}.

Definition DefaultSysmsg : string :=
  "You are an expert Go programmer. Please make the requested changes to the given code or documentation.".

(** A [map[string]string], by its lookup. *)
Definition Headers : Type := string -> option string.

Definition noHeaders : Headers := fun _ => None.

(** [m[key]]: the empty string for a key that is not there. *)
Definition get (m : Headers) (key : string) : string :=
  match m key with
  | Some v => v
  | None => EmptyString
  end.

Definition set (m : Headers) (key value : string) : Headers :=
  fun k => if (k =? key)%string then Some value else m k.

Section Functions.

Variable lib : Lib.
Variable sys : Sys.

(** The loop of [extractHeaders]. *)
Fixpoint extractHeaders_loop (headers : list string) (headerMap : Headers)
  (currentKey : string) : result Headers :=
  match headers with
  | [] => Done headerMap
  | h :: rest =>
      if (h =? "")%string then extractHeaders_loop rest headerMap currentKey
      else if HasPrefix h " " || HasPrefix h tab then
        if (currentKey =? "")%string then Fail ErrContinuation
        else
          let continuation := TrimSpace lib h in
          extractHeaders_loop rest
            (set headerMap currentKey
               (get headerMap currentKey ++ " " ++ continuation))
            currentKey
      else
        match SplitN2 h ":" with
        | None => extractHeaders_loop rest headerMap currentKey
        | Some (part0, part1) =>
            let key := TrimSpace lib part0 in
            let value := TrimSpace lib part1 in
            extractHeaders_loop rest (set headerMap key value) key
        end
  end.

Definition extractHeaders (headers : list string) : result Headers :=
  extractHeaders_loop headers noHeaders EmptyString.

(** The first loop of [readPrompt], at line [i] of the file. *)
Fixpoint readLines (i : nat) (rawLines lines : list string)
  : result (list string) :=
  match rawLines with
  | [] => Done lines
  | line :: rest =>
      if (i =? 0) && HasPrefix line "#" then Fail ErrComment
      else if (i =? 1) && negb (TrimSpace lib line =? "")%string
      then Fail ErrBlankLine
      else if HasPrefix line ".stop" then Done lines
      else readLines (S i) rest (lines ++ [line])
  end.

(** The second loop, on the lines in reverse order: the empty lines at
    the end are removed. *)
Fixpoint dropEmpty (reversed : list string) : list string :=
  match reversed with
  | [] => []
  | line :: rest =>
      if (TrimSpace lib line =? "")%string then dropEmpty rest
      else reversed
  end.

(** The third loop, [for i := len(lines) - 1; i >= 0; i--], on the lines
    [lines[i]], [lines[i-1]], ... still to visit. *)
Fixpoint findHeaders (reversed : list string) (hdrStart : nat) : nat :=
  match reversed with
  | [] => hdrStart
  | line :: rest =>
      if (TrimSpace lib line =? "")%string then hdrStart
      else if Contains line ":" then findHeaders rest (length rest)
      else findHeaders rest hdrStart
  end.

(** The loops that make the paths of [In] and [Out] absolute. *)
Fixpoint absolute (parentDir : string) (fs : list string) : list string :=
  match fs with
  | [] => []
  | f :: rest =>
      if (f =? "")%string then absolute parentDir rest
      else if IsAbs lib f then f :: absolute parentDir rest
      else Join lib parentDir f :: absolute parentDir rest
  end.

(** The last loop: each directory of [In] is replaced by the files in it;
    the files put in are not looked at again. *)
Fixpoint expandDirs (d : Disk) (fs : list string) : result (list string) :=
  match fs with
  | [] => Done []
  | f :: rest =>
      match Stat sys d f with
      | Found IsDir =>
          if IsDir then
            match getFilesInDir sys f with
            | None => Fail ErrGetFilesInDir
            | Some files =>
                match expandDirs d rest with
                | Done rest' => Done (files ++ rest')
                | Fail e => Fail e
                end
            end
          else
            match expandDirs d rest with
            | Done rest' => Done (f :: rest')
            | Fail e => Fail e
            end
      | _ => Fail (ErrInput f)
      end
  end.

Definition readPrompt (path : string) (d : Disk) : result Prompt :=
  match ReadFile sys d path with
  | None => Fail ErrReadFile
  | Some rawBuf =>
      let rawLines := Split rawBuf newline in
      match readLines 0 rawLines [] with
      | Fail e => Fail e
      | Done lines =>
          let lines := rev (dropEmpty (rev lines)) in
          let hdrStart := findHeaders (rev lines) (length lines) in
          if length lines <=? hdrStart then Fail ErrNoHeaders
          else
            let headers := skipn hdrStart lines in
            match extractHeaders headers with
            | Fail e => Fail e
            | Done headerMap =>
                let txt := String.concat newline (firstn hdrStart lines) in
                let sysmsg := TrimSpace lib (get headerMap "Sysmsg") in
                let inStr := TrimSpace lib (get headerMap "In") in
                let outStr := TrimSpace lib (get headerMap "Out") in
                let aiddaDir := Dir lib path in
                let parentDir := Dir lib aiddaDir in
                let newIn := absolute parentDir (Fields lib inStr) in
                let newOut := absolute parentDir (Fields lib outStr) in
                match expandDirs d newIn with
                | Fail e => Fail e
                | Done files => Done (mkPrompt sysmsg files newOut txt)
                end
            end
      end
  end.

(** What [createPromptFile] writes for the files [inFns]. *)
Definition promptTemplate (inFns : list string) : string :=
  (("# write commit message here -- it will be used as the LLM prompt"
      ++ newline ++ newline)
   ++ ("Sysmsg: " ++ DefaultSysmsg ++ newline)
   ++ ("In: " ++ String.concat " " inFns ++ newline)
   ++ ("Out: " ++ String.concat " " inFns ++ newline))%string.

Definition createPromptFile (path : string) : IO unit :=
  io_bind (Create sys path) (fun _ =>
  match getFiles sys with
  | None => io_fail ErrGetFiles
  | Some inFns =>
      let outFns := inFns in
      let inStr := String.concat " " inFns in
      let outStr := String.concat " " outFns in
      io_bind (WriteString sys path
                 ("# write commit message here -- it will be used as the LLM prompt"
                    ++ newline ++ newline)) (fun _ =>
      io_bind (WriteString sys path
                 ("Sysmsg: " ++ DefaultSysmsg ++ newline)) (fun _ =>
      io_bind (WriteString sys path ("In: " ++ inStr ++ newline)) (fun _ =>
      WriteString sys path ("Out: " ++ outStr ++ newline))))
  end).

Definition NewPrompt (path : string) : IO Prompt :=
  fun d =>
    match Stat sys d path with
    | NotExist =>
        match createPromptFile path d with
        | (Done _, d') => (readPrompt path d', d')
        | (Fail e, d') => (Fail e, d')
        end
    | StatError => (Fail ErrStat, d)
    | Found _ => (readPrompt path d, d)
    end.

(** The patterns of a new ignore file. *)
Definition defaultIgnore : string :=
  (".git" ++ newline ++ ".idea" ++ newline ++ ".grok*" ++ newline
     ++ "go.*" ++ newline ++ "nv.shada" ++ newline)%string.

Definition ensureIgnoreFile (fn : string) : IO unit :=
  fun d =>
    match Stat sys d fn with
    | NotExist =>
        io_bind (Create sys fn) (fun _ => WriteString sys fn defaultIgnore) d
    | StatError => (Fail ErrStat, d)
    | Found _ => (Done tt, d)
    end.

End Functions.

End Aidda.

(** * Concrete stores and environments *)

Module Examples.

Definition docA : Document := mkDocument "a.txt".
Definition docB : Document := mkDocument "b.txt".
Definition docC : Document := mkDocument "c.txt".

Definition noChat (messages : list Message) : option ChatResponse := None.

(** An embedding service that answers every text with the same
    vector. *)
Definition sameVector (v : list float) (input : list string)
  : option (list (list float)) :=
  Some (map (fun _ => v) input).

Definition unit0 : list float := [1%float; 0%float].
Definition diag : list float := [1%float; 1%float].
Definition unit1 : list float := [0%float; 1%float].

Fixpoint repeatChar (n : nat) (c : ascii) : string :=
  match n with
  | O => EmptyString
  | S n' => String c (repeatChar n' c)
  end.

(** *** A refresh with two missing documents in a row *)

Definition envMissing : Env :=
  mkEnv (fun path =>
           if (path =? "a.txt")%string then StatNotExist
           else if (path =? "b.txt")%string then StatNotExist
           else if (path =? "c.txt")%string then StatOk 5
           else if (path =? ".grok")%string then StatOk 10
           else StatFail)
        (fun _ => None)
        (sameVector unit0)
        noChat.

Definition storeABC : Grokker :=
  mkGrokker EmptyString (of_list [docA; docB; docC])
    [mkChunk docA "alpha" unit0; mkChunk docB "beta" unit0;
     mkChunk docC "gamma" unit0]
    16384 3.5%float.

(** *** A document with the same paragraph twice *)

Definition twice : string := ("a" ++ newline ++ newline ++ "a")%string.

Definition envTwice : Env :=
  mkEnv (fun _ => StatOk 0)
        (fun path => if (path =? "a.txt")%string then Some twice else None)
        (sameVector unit0)
        noChat.

(** *** A document with two different paragraphs *)

Definition plain : string := ("a" ++ newline ++ newline ++ "b")%string.

Definition envPlain : Env :=
  mkEnv (fun _ => StatOk 0)
        (fun path => if (path =? "a.txt")%string then Some plain else None)
        (sameVector unit0)
        noChat.

(** *** Three chunks of 4000 bytes *)

Definition chunk1 : Chunk := mkChunk docA (repeatChar (40 * 100) "a") unit0.
Definition chunk2 : Chunk := mkChunk docA (repeatChar (40 * 100) "b") diag.
Definition chunk3 : Chunk := mkChunk docA (repeatChar (40 * 100) "c") unit1.

Definition store4000 : Grokker :=
  mkGrokker EmptyString (of_list [docA]) [chunk1; chunk2; chunk3]
    16384 3.5%float.

Definition envQuery : Env :=
  mkEnv (fun _ => StatOk 0) (fun _ => None) (sameVector unit0) noChat.

(** *** Two chunks of equal score *)

Definition first : Chunk := mkChunk docA "first" unit0.
Definition second : Chunk := mkChunk docA "second" unit0.

Definition storeTie : Grokker :=
  mkGrokker EmptyString (of_list [docA]) [first; second] 16384 3.5%float.

(** *** A chunk whose embedding is the zero vector *)

Definition low : Chunk := mkChunk docA "low" diag.
Definition zero : Chunk := mkChunk docA "zero" [0%float; 0%float].
Definition high : Chunk := mkChunk docA "high" unit0.

Definition storeZero : Grokker :=
  mkGrokker EmptyString (of_list [docA]) [low; zero; high] 16384 3.5%float.

(** *** A chunk without embedding *)

Definition bare : Chunk := mkChunk docA "bare" [].

Definition storeBare : Grokker :=
  mkGrokker EmptyString (of_list [docA]) [bare] 16384 3.5%float.

(** *** Two documents and their chunks *)

Definition storeAB : Grokker :=
  mkGrokker EmptyString (of_list [docA; docB])
    [mkChunk docA "alpha" unit0; mkChunk docB "beta" unit0;
     mkChunk docA "gamma" unit0]
    16384 3.5%float.

(** *** Texts numbered by their position *)

Fixpoint numbered (n : nat) : list string :=
  match n with
  | O => []
  | S n' => numbered n' ++ [repeatChar n' "x"]
  end.

Definition byLength (s : string) : list float :=
  repeat 1%float (String.length s).

Definition envByLength : Env :=
  mkEnv (fun _ => StatOk 0) (fun _ => None)
        (fun input => Some (map byLength input)) noChat.

(** *** A chat service that answers *)

Definition answering (messages : list Message) : option ChatResponse :=
  Some (mkChatResponse ["yes"%string] 7).

Definition envChat : Env :=
  mkEnv (fun _ => StatOk 0) (fun _ => None) (sameVector unit0) answering.

(** *** A registered document that has no chunk yet *)

Definition storeA : Grokker :=
  mkGrokker EmptyString (of_list [docA]) [] 16384 3.5%float.

(** *** A file that is there but cannot be read *)

Definition envUnreadable : Env :=
  mkEnv (fun _ => StatOk 0) (fun _ => None) (sameVector unit0) noChat.

(** *** An embedding service that is down *)

Definition envDown : Env :=
  mkEnv (fun _ => StatOk 0)
        (fun path => if (path =? "a.txt")%string then Some plain else None)
        (fun _ => None)
        noChat.

(** *** A paragraph longer than two bytes *)

Definition long : string := ("abcde" ++ newline ++ newline ++ "f")%string.

(** *** An encoder and a decoder that meet the contract of
    [encoding/json]: the JSON text is kept as its syntax tree *)

Local Unset Elimination Schemes.

Inductive json : Type :=
| JInt (z : Z)
| JFloat (f : float)
| JString (s : string)
| JArray (l : list json)
| JObject (fields : list (string * json)).

Local Set Elimination Schemes.

Definition encodeDocument (d : Document) : json :=
  JObject [("Path"%string, JString (coerceUTF8 (Path d)))].

Definition encodeChunk (c : Chunk) : json :=
  JObject [("Document"%string, encodeDocument (ChunkDocument c));
           ("Text"%string, JString (coerceUTF8 (Text c)));
           ("Embedding"%string, JArray (map JFloat (Embedding c)))].

Definition treeMarshal (g : Grokker) : option json :=
  if finiteNumbers g
  then
    Some (JObject
            [("Root"%string, JString (coerceUTF8 (Root g)));
             ("Documents"%string,
              JArray (map encodeDocument (elems (Documents g))));
             ("Chunks"%string, JArray (map encodeChunk (Chunks g)));
             ("MaxChunkSize"%string, JInt (MaxChunkSize g));
             ("CharsPerToken"%string, JFloat (CharsPerToken g))])
  else None.

Fixpoint traverse {A B} (f : A -> option B) (l : list A) : option (list B) :=
  match l with
  | [] => Some []
  | a :: rest =>
      match f a, traverse f rest with
      | Some b, Some bs => Some (b :: bs)
      | _, _ => None
      end
  end.

Definition decodeFloat (j : json) : option float :=
  match j with
  | JFloat f => Some f
  | _ => None
  end.

Definition decodeDocument (j : json) : option Document :=
  match j with
  | JObject [(key, JString path)] =>
      if (key =? "Path")%string then Some (mkDocument path) else None
  | _ => None
  end.

Definition decodeChunk (j : json) : option Chunk :=
  match j with
  | JObject [(k1, document); (k2, JString text); (k3, JArray embedding)] =>
      if (k1 =? "Document")%string && (k2 =? "Text")%string
         && (k3 =? "Embedding")%string
      then
        match decodeDocument document, traverse decodeFloat embedding with
        | Some d, Some e => Some (mkChunk d text e)
        | _, _ => None
        end
      else None
  | _ => None
  end.

Definition treeUnmarshal (j : json) (v : Grokker) : Grokker * bool :=
  match j with
  | JObject [(k1, JString root); (k2, JArray documents);
             (k3, JArray chunks); (k4, JInt maxChunkSize);
             (k5, JFloat charsPerToken)] =>
      if (k1 =? "Root")%string && (k2 =? "Documents")%string
         && (k3 =? "Chunks")%string && (k4 =? "MaxChunkSize")%string
         && (k5 =? "CharsPerToken")%string
      then
        match traverse decodeDocument documents,
              traverse decodeChunk chunks with
        | Some ds, Some cs =>
            (mkGrokker root (of_list ds) cs maxChunkSize charsPerToken,
             false)
        | _, _ => (v, true)
        end
      else (v, true)
  | _ => (v, true)
  end.

(** *** A paragraph of 16385 bytes whose last character, of two bytes,
    lies across the chunk boundary *)

Definition eAcute : string :=
  String (ascii_of_nat 195) (String (ascii_of_nat 169) EmptyString).

Definition envCut : Env :=
  mkEnv (fun _ => StatOk 0)
        (fun path =>
           if (path =? "a.txt")%string
           then Some (repeatChar (128 * 128 - 1) "a" ++ eAcute)%string
           else None)
        (sameVector unit0)
        noChat.

(** *** A chunk whose embedding holds a NaN *)

Definition storeNaN : Grokker :=
  mkGrokker EmptyString (of_list [docA])
    [mkChunk docA "alpha" [PrimFloat.nan; 0%float]] 16384 3.5%float.

(** *** Package aidda: a library for ASCII text and plain Unix paths,
    and an operating system where nothing fails *)

Definition isSpace (c : ascii) : bool :=
  (c =? " ")%char || (c =? ascii_of_nat 9)%char
  || (c =? ascii_of_nat 10)%char || (c =? ascii_of_nat 13)%char.

Fixpoint trimLeft (s : string) : string :=
  match s with
  | EmptyString => EmptyString
  | String c s' => if isSpace c then trimLeft s' else s
  end.

Fixpoint trimRight (s : string) : string :=
  match s with
  | EmptyString => EmptyString
  | String c s' =>
      let r := trimRight s' in
      if isSpace c && (r =? "")%string then EmptyString else String c r
  end.

Fixpoint fieldsFrom (s current : string) : list string :=
  match s with
  | EmptyString => if (current =? "")%string then [] else [current]
  | String c s' =>
      if isSpace c
      then if (current =? "")%string then fieldsFrom s' EmptyString
           else current :: fieldsFrom s' EmptyString
      else fieldsFrom s' (current ++ String c EmptyString)
  end.

(** The bytes before the last slash. *)
Fixpoint beforeLastSlash (s : string) : option string :=
  match s with
  | EmptyString => None
  | String c s' =>
      match beforeLastSlash s' with
      | Some r => Some (String c r)
      | None => if (c =? "/")%char then Some EmptyString else None
      end
  end.

Definition asciiLib : Aidda.Lib :=
  Aidda.mkLib
    (fun s => trimRight (trimLeft s))
    (fun s => fieldsFrom s EmptyString)
    (fun path => match beforeLastSlash path with
                 | None => "."%string
                 | Some EmptyString => "/"%string
                 | Some dir => dir
                 end)
    (fun path => String.prefix "/" path)
    (fun dir f => if (dir =? ".")%string then f
                  else (dir ++ "/" ++ f)%string).

Definition sysFine : Aidda.Sys :=
  Aidda.mkSys (fun _ => false) (fun _ => false) (fun _ => false)
    (fun _ _ => false) (fun _ => false)
    (Some ["main.go"%string; "go.mod"%string]) (fun _ => Some []).

Definition emptyDisk : Aidda.Disk := fun _ => None.

(** A prompt file with a [.stop] line, and the same file with other
    lines after it. *)
Definition promptHead : string :=
  ("fix the bug" ++ newline ++ newline ++ "In: main.go" ++ newline
     ++ ".stop" ++ newline)%string.

Definition diskStop1 : Aidda.Disk :=
  Aidda.writeDisk (Aidda.writeDisk emptyDisk "main.go" "package main")
    ".aidda/prompt" (promptHead ++ "# notes")%string.

Definition diskStop2 : Aidda.Disk :=
  Aidda.writeDisk (Aidda.writeDisk emptyDisk "main.go" "package main")
    ".aidda/prompt" (promptHead ++ "In: other.go" ++ newline)%string.

End Examples.

Import Examples.

(** * Properties *)

(** ** Go slices *)

Lemma elems_of_list {A} (l : list A) : elems (of_list l) = l.
Proof. unfold elems, of_list; simpl. apply firstn_all. Qed.

(** Deleting index [i] of a slice removes that element from its visible
    part, whatever lies in the backing array behind it. *)
Lemma elems_delete {A} (s : slice A) (i : nat) :
  i < length (elems s) ->
  elems (delete s i) = firstn i (elems s) ++ skipn (S i) (elems s).
Proof.
  unfold elems, delete; destruct s as [arr n]; cbn [len array].
  rewrite length_firstn. intros Hi.
  rewrite firstn_firstn, skipn_firstn_comm.
  replace (Nat.min i n) with i by lia.
  rewrite firstn_app, length_firstn.
  replace (Nat.min i (length arr)) with i by lia.
  replace (n - 1 - i) with (n - S i) by lia.
  rewrite (@firstn_all2 _ (n - 1) (firstn i arr))
    by (rewrite length_firstn; lia).
  f_equal.
  rewrite firstn_app, length_firstn, length_skipn, firstn_firstn.
  rewrite Nat.min_id.
  destruct (le_lt_dec n (length arr)) as [Hn|Hn].
  - replace (n - S i - Nat.min (n - S i) (length arr - S i)) with 0 by lia.
    rewrite firstn_O, app_nil_r. reflexivity.
  - rewrite (@skipn_all2 _ (n - 1) arr) by lia.
    rewrite firstn_nil, app_nil_r. reflexivity.
Qed.

Lemma elems_append {A} (s : slice A) (x : A) :
  elems (append s x) = elems s ++ [x].
Proof.
  unfold elems, append; destruct s as [arr n]; cbn [len array].
  destruct (n <? length arr) eqn:E; cbn [len array].
  - apply Nat.ltb_lt in E.
    rewrite firstn_app, firstn_firstn, length_firstn.
    replace (Nat.min (S n) n) with n by lia.
    replace (S n - Nat.min n (length arr)) with 1 by lia.
    reflexivity.
  - apply Nat.ltb_ge in E.
    rewrite firstn_all2; [reflexivity|].
    unfold elems; cbn [len array].
    rewrite length_app, length_firstn; cbn [length]. lia.
Qed.

(** ** Strings *)

Lemma length_append (s1 s2 : string) :
  String.length (s1 ++ s2) = String.length s1 + String.length s2.
Proof. induction s1; simpl; auto. Qed.

Lemma append_nil_r (s : string) : (s ++ "")%string = s.
Proof. induction s; simpl; congruence. Qed.

Lemma append_assoc (s1 s2 s3 : string) :
  ((s1 ++ s2) ++ s3)%string = (s1 ++ (s2 ++ s3))%string.
Proof. induction s1; simpl; congruence. Qed.

(** ** Chunker *)

Lemma substring_length n m s :
  String.length (substring n m s) = Nat.min m (String.length s - n).
Proof.
  revert n m. induction s as [|c s IH]; intros n m; simpl.
  - destruct n, m; reflexivity.
  - destruct n as [|n].
    + destruct m as [|m]; simpl; [reflexivity|].
      rewrite IH, Nat.sub_0_r. reflexivity.
    + rewrite IH. reflexivity.
Qed.

Lemma take_drop n s :
  n <= String.length s -> (take n s ++ drop n s)%string = s.
Proof.
  unfold take, drop. revert n.
  induction s as [|c s IH]; intros n Hn; simpl in *.
  - destruct n; [reflexivity|lia].
  - destruct n as [|n]; simpl.
    + f_equal. specialize (IH 0 (Nat.le_0_l _)).
      rewrite Nat.sub_0_r in IH. destruct s; simpl in *; [reflexivity|].
      exact IH.
    + f_equal. apply IH. lia.
Qed.

Lemma drop_0 s : drop 0 s = s.
Proof.
  unfold drop. rewrite Nat.sub_0_r.
  induction s as [|c s IH]; simpl; [reflexivity|]. rewrite IH; reflexivity.
Qed.

(** With a positive [MaxChunkSize] the loop on a paragraph ends within as
    many rounds as the paragraph has bytes: it cuts the paragraph into
    consecutive pieces, none empty, none above the limit. *)
Lemma chunkParagraph_ok fuel maxChunkSize :
  (0 < maxChunkSize)%Z ->
  forall paragraph,
    String.length paragraph <= fuel ->
    exists c,
      chunkParagraph fuel maxChunkSize paragraph = Ok c
      /\ fold_right String.append EmptyString c = paragraph
      /\ Forall (fun x => (0 < strlen x <= maxChunkSize)%Z) c.
Proof.
  intros Hmax. induction fuel as [|fuel IH]; intros paragraph Hfuel.
  - destruct paragraph; simpl in Hfuel; [|lia].
    exists []. repeat split; constructor.
  - simpl. destruct (String.length paragraph =? 0) eqn:E0.
    + apply Nat.eqb_eq in E0. destruct paragraph; [|discriminate].
      exists []. repeat split; constructor.
    + apply Nat.eqb_neq in E0.
      destruct (strlen paragraph >? maxChunkSize)%Z eqn:E.
      * assert (Hneg : (maxChunkSize <? 0)%Z = false)
          by (apply Z.ltb_ge; lia).
        rewrite Hneg. unfold strlen in E.
        assert (Hlt : Z.to_nat maxChunkSize < String.length paragraph) by lia.
        destruct (IH (drop (Z.to_nat maxChunkSize) paragraph))
          as (c & Hc & Hcat & Hall).
        { unfold drop. rewrite substring_length. lia. }
        rewrite Hc. simpl.
        exists (take (Z.to_nat maxChunkSize) paragraph :: c).
        split; [reflexivity|]. split.
        -- simpl. rewrite Hcat. apply take_drop. lia.
        -- constructor; [|exact Hall].
           unfold strlen, take. rewrite substring_length. lia.
      * exists [paragraph]. split; [reflexivity|]. split.
        -- simpl. apply append_nil_r.
        -- repeat constructor; unfold strlen in *; lia.
Qed.

(** With [MaxChunkSize] 0 the loop on a non-empty paragraph never ends,
    and with a negative one the first slice is out of range. *)
Lemma chunkParagraph_zero fuel paragraph :
  paragraph <> EmptyString ->
  chunkParagraph fuel 0 paragraph = OutOfFuel.
Proof.
  intros Hne. induction fuel as [|fuel IH]; simpl;
    destruct paragraph as [|c s]; try congruence; simpl.
  - reflexivity.
  - change (drop 0 (String c s)) with (drop (Z.to_nat 0) (String c s)) in *.
    fold (drop 0 (String c s)). rewrite drop_0, IH. reflexivity.
Qed.

Lemma chunkParagraph_negative fuel maxChunkSize paragraph :
  (maxChunkSize < 0)%Z -> paragraph <> EmptyString -> 0 < fuel ->
  chunkParagraph fuel maxChunkSize paragraph = Panic.
Proof.
  intros Hneg Hne Hfuel. destruct fuel as [|fuel]; [lia|].
  destruct paragraph as [|c s]; [congruence|]. simpl.
  assert (E : (strlen (String c s) >? maxChunkSize)%Z = true).
  { unfold strlen. apply Z.gtb_lt. lia. }
  rewrite E. apply Z.ltb_lt in Hneg. rewrite Hneg. reflexivity.
Qed.

(** [strings.Split] on sample inputs. *)
Example Split_samples :
  Split ("a" ++ sep2 ++ "b") sep2 = ["a"; "b"]%string
  /\ Split ("a" ++ sep2 ++ newline ++ "b") sep2
     = ["a"; (newline ++ "b")]%string
  /\ Split "" sep2 = [""]%string
  /\ Split ("a" ++ sep2) sep2 = ["a"; ""]%string
  /\ Split "aaa" "aa" = [""; "a"]%string.
Proof. repeat split; reflexivity. Qed.

(** ** [RemoveDocument] *)

Lemma indexOfPath_lt path docs i :
  indexOfPath path docs = Some i -> i < length docs.
Proof.
  revert i; induction docs as [|d rest IH]; simpl; intros i H; [discriminate|].
  destruct (Path d =? path)%string.
  - inversion H; lia.
  - destruct (indexOfPath path rest) as [j|]; [|discriminate].
    inversion H; subst. specialize (IH j eq_refl). lia.
Qed.

Lemma indexOfPath_remove path docs :
  match indexOfPath path docs with
  | Some i => firstn i docs ++ skipn (S i) docs
  | None => docs
  end = removePath path docs.
Proof.
  induction docs as [|d rest IH]; simpl; [reflexivity|].
  destruct (Path d =? path)%string; [reflexivity|].
  destruct (indexOfPath path rest) as [j|]; simpl; rewrite <- IH; reflexivity.
Qed.

Lemma RemoveDocument_elems doc w :
  elems (Documents (store (exec (RemoveDocument doc) w)))
  = removePath (Path doc) (elems (Documents (store w))).
Proof.
  unfold exec, RemoveDocument, modifyStore; simpl.
  rewrite <- indexOfPath_remove.
  destruct (indexOfPath (Path doc) (elems (Documents (store w)))) as [i|] eqn:E;
    [|reflexivity].
  simpl. apply elems_delete. eapply indexOfPath_lt; eauto.
Qed.

Lemma removePath_split path docs :
  (exists l1 d l2,
      docs = l1 ++ d :: l2 /\ Path d = path
      /\ Forall (fun d' => Path d' <> path) l1
      /\ removePath path docs = l1 ++ l2)
  \/ (Forall (fun d' => Path d' <> path) docs /\ removePath path docs = docs).
Proof.
  induction docs as [|d rest IH]; simpl.
  - right; split; constructor.
  - destruct (Path d =? path)%string eqn:E.
    + apply String.eqb_eq in E.
      left; exists [], d, rest; repeat split; auto.
    + apply String.eqb_neq in E.
      destruct IH as [(l1 & d' & l2 & -> & Hd & Hl1 & Hr)|[Hall Hr]].
      * left; exists (d :: l1), d', l2; repeat split; auto.
        simpl; rewrite Hr; reflexivity.
      * right; split; [constructor; auto|]. rewrite Hr; reflexivity.
Qed.

Lemma removePath_filter path docs :
  filter (fun d => negb (Path d =? path)%string) (removePath path docs)
  = filter (fun d => negb (Path d =? path)%string) docs.
Proof.
  induction docs as [|d rest IH]; simpl; [reflexivity|].
  destruct (Path d =? path)%string eqn:E; simpl; [reflexivity|].
  rewrite E; simpl. rewrite IH; reflexivity.
Qed.

(** C9. [RemoveDocument(d)] takes the first entry with [d]'s path out of
    the document list and touches nothing else: the other documents keep
    their order, and the chunk list, [MaxChunkSize], [CharsPerToken],
    [Root] and the request logs are unchanged; the call returns no
    error. *)
Theorem RemoveDocument_frame (doc : Document) (w : World) :
  let docs := elems (Documents (store w)) in
  let w' := exec (RemoveDocument doc) w in
  let docs' := elems (Documents (store w')) in
  run (RemoveDocument doc) w = Ok tt
  /\ ((exists l1 d l2,
          docs = l1 ++ d :: l2 /\ Path d = Path doc
          /\ Forall (fun d' => Path d' <> Path doc) l1
          /\ docs' = l1 ++ l2)
      \/ (Forall (fun d' => Path d' <> Path doc) docs /\ docs' = docs))
  /\ filter (fun d => negb (Path d =? Path doc)%string) docs'
     = filter (fun d => negb (Path d =? Path doc)%string) docs
  /\ Chunks (store w') = Chunks (store w)
  /\ MaxChunkSize (store w') = MaxChunkSize (store w)
  /\ CharsPerToken (store w') = CharsPerToken (store w)
  /\ Root (store w') = Root (store w)
  /\ embeddingLog w' = embeddingLog w
  /\ chatLog w' = chatLog w.
Proof.
  cbv zeta.
  rewrite RemoveDocument_elems.
  split; [reflexivity|].
  split.
  { destruct (removePath_split (Path doc) (elems (Documents (store w))))
      as [(l1 & d & l2 & H1 & H2 & H3 & H4)|[H1 H2]].
    - left; exists l1, d, l2; auto.
    - right; auto. }
  split; [apply removePath_filter|].
  unfold exec, RemoveDocument, modifyStore; simpl.
  destruct (indexOfPath (Path doc) (elems (Documents (store w))));
    simpl; repeat split; reflexivity.
Qed.

(** ** [GC] *)

Lemma referenced_spec docs c :
  referenced docs c = true
  <-> exists d, In d docs /\ Path d = Path (ChunkDocument c).
Proof.
  unfold referenced. rewrite existsb_exists.
  split; intros (d & Hd & E); exists d; split; auto.
  - apply String.eqb_eq; assumption.
  - apply String.eqb_eq; assumption.
Qed.

Lemma removePath_gone path docs :
  NoDup (map Path docs) ->
  forall d, In d (removePath path docs) -> Path d <> path.
Proof.
  induction docs as [|d0 rest IH]; simpl; intros Hnd d Hin; [contradiction|].
  inversion Hnd as [|? ? Hnotin Hnd']; subst.
  destruct (Path d0 =? path)%string eqn:E.
  - apply String.eqb_eq in E. intros Hp. apply Hnotin.
    rewrite E, <- Hp. apply in_map; assumption.
  - apply String.eqb_neq in E.
    destruct Hin as [<-|Hin]; [assumption|]. apply IH; assumption.
Qed.


(** ** [Answer]: context assembly *)

Lemma CreateEmbeddings_frame env texts w :
  store (exec (CreateEmbeddings env texts) w) = store w
  /\ chatLog (exec (CreateEmbeddings env texts) w) = chatLog w.
Proof.
  unfold exec, CreateEmbeddings.
  destruct (CreateEmbeddings_loop _ _ _ _ _); simpl; auto.
Qed.

Lemma FindChunks_store sort env query K w :
  store (exec (FindChunks sort env query K) w) = store w.
Proof.
  unfold exec, FindChunks, bind.
  pose proof (CreateEmbeddings_frame env [query] w) as [Hs _].
  unfold exec in Hs.
  destruct (CreateEmbeddings env [query] w) as [[e| | |] w']; simpl in *; auto.
  destruct e; simpl; auto.
Qed.

Lemma strlen_append (s1 s2 : string) :
  strlen (s1 ++ s2) = (strlen s1 + strlen s2)%Z.
Proof. unfold strlen. rewrite length_append. lia. Qed.

(** C1. With [MaxChunkSize] 16384 (budget 8192) and a ranking that starts
    with three chunks of 4000 bytes each, [Answer] hands [Generate] a
    context made of all three chunks: the text of a chunk is appended
    before the length is tested, so the third chunk is in the context,
    which, with the template, is 12042 bytes long. *)
Theorem Answer_context_three_chunks
  (sort : forall A : Type, (A -> A -> bool) -> list A -> list A)
  (env : Env) (question : string) (global : bool) (w : World)
  (c1 c2 c3 : Chunk) (rest : list Chunk) :
  MaxChunkSize (store w) = 16384%Z ->
  run (FindChunks sort env question 0) w = Ok (c1 :: c2 :: c3 :: rest) ->
  strlen (Text c1) = 4000%Z ->
  strlen (Text c2) = 4000%Z ->
  strlen (Text c3) = 4000%Z ->
  let context :=
    (Text c1 ++ sep2 ++ Text c2 ++ sep2 ++ Text c3 ++ sep2)%string in
  Answer sort env question global w
  = Generate env question context global
      (exec (FindChunks sort env question 0) w)
  /\ (strlen context + strlen promptTmpl = 12042)%Z
  /\ (strlen context + strlen promptTmpl
      > Z.quot (MaxChunkSize (store w)) 2)%Z.
Proof.
  intros Hmax Hfind H1 H2 H3 context.
  assert (Hlen : (strlen context + strlen promptTmpl = 12042)%Z).
  { unfold context. rewrite !strlen_append, H1, H2, H3. reflexivity. }
  assert (Hctx : contextLoop 8192 (c1 :: c2 :: c3 :: rest) EmptyString
                 = context).
  { unfold context; simpl contextLoop.
    fold (strlen promptTmpl).
    repeat match goal with
           | |- context [Z.of_nat (String.length ?s)] => fold (strlen s)
           end.
    rewrite !strlen_append, H1, H2, H3.
    change (strlen sep2) with 2%Z.
    change (strlen promptTmpl) with 36%Z.
    simpl (_ >? _)%Z. cbv iota.
    rewrite !append_assoc. reflexivity. }
  split; [|split].
  - unfold Answer, bind at 1.
    pose proof (FindChunks_store sort env question 0 w) as Hst.
    unfold run in Hfind. unfold exec in *.
    destruct (FindChunks sort env question 0 w) as [r w']; simpl in *.
    subst r. unfold bind, getStore; simpl.
    rewrite Hst, Hmax.
    change (Z.quot 16384 2) with 8192%Z.
    rewrite Hctx. reflexivity.
  - exact Hlen.
  - rewrite Hlen, Hmax. reflexivity.
Qed.

(** ** Comparison of binary64 numbers

    [>] on [float64] is a strict weak order away from NaN.  The
    comparison of the specification of the primitive floats is read off a
    lexicographic key. *)

Lemma SFcompare_key (f1 f2 : spec_float) :
  f1 <> S754_nan -> f2 <> S754_nan ->
  SFcompare f1 f2 = Some (kcmp (sfkey f1) (sfkey f2)).
Proof.
  intros H1 H2.
  destruct f1 as [s1|s1| |s1 m1 e1], f2 as [s2|s2| |s2 m2 e2];
    try congruence;
    try destruct s1; try destruct s2; try reflexivity.
  cbn [SFcompare sfkey kcmp]. change (-1 ?= -1)%Z with Eq; cbv iota.
  rewrite Z.compare_opp, (Z.compare_antisym e1 e2).
  destruct (e1 ?= e2)%Z; cbn [CompOpp]; reflexivity.
Qed.

Lemma kcmp_refl k : kcmp k k = Eq.
Proof.
  destruct k as [[a b] c]; simpl. rewrite !Z.compare_refl. reflexivity.
Qed.

Ltac kcmp_cases :=
  unfold kcmp;
  repeat match goal with
         | |- context [(?a ?= ?b)%Z] => destruct (Z.compare_spec a b)
         | H : context [(?a ?= ?b)%Z] |- _ => destruct (Z.compare_spec a b)
         end;
  try discriminate; try congruence; try lia.

Lemma kcmp_lt_trans a b c : kcmp a b = Lt -> kcmp b c = Lt -> kcmp a c = Lt.
Proof.
  destruct a as [[a1 a2] a3], b as [[b1 b2] b3], c as [[c1 c2] c3].
  kcmp_cases.
Qed.

Lemma kcmp_nlt_trans a b c :
  kcmp a b <> Lt -> kcmp b c <> Lt -> kcmp a c <> Lt.
Proof.
  destruct a as [[a1 a2] a3], b as [[b1 b2] b3], c as [[c1 c2] c3].
  kcmp_cases.
Qed.

Lemma kcmp_nlt_ge a b : kcmp a b <> Lt -> kcmp b a = Lt \/ kcmp b a = Eq.
Proof.
  destruct a as [[a1 a2] a3], b as [[b1 b2] b3].
  kcmp_cases; auto.
Qed.

Lemma is_nan_spec (x : float) :
  is_nan x = false <-> Prim2SF x <> S754_nan.
Proof.
  unfold is_nan. rewrite eqb_spec. unfold SFeqb.
  destruct (Prim2SF x) as [s|s| |s m e] eqn:E.
  - rewrite SFcompare_key by congruence. rewrite kcmp_refl.
    split; [congruence|reflexivity].
  - rewrite SFcompare_key by congruence. rewrite kcmp_refl.
    split; [congruence|reflexivity].
  - simpl. split; [discriminate|congruence].
  - rewrite SFcompare_key by congruence. rewrite kcmp_refl.
    split; [congruence|reflexivity].
Qed.

Lemma ltb_key (x y : float) :
  is_nan x = false -> is_nan y = false ->
  ((x <? y)%float = true <-> kcmp (fkey x) (fkey y) = Lt).
Proof.
  intros Hx Hy. apply is_nan_spec in Hx. apply is_nan_spec in Hy.
  rewrite ltb_spec. unfold SFltb, fkey.
  rewrite SFcompare_key by assumption.
  destruct (kcmp _ _); split; congruence.
Qed.

Lemma leb_key (x y : float) :
  is_nan x = false -> is_nan y = false ->
  ((x <=? y)%float = true <-> kcmp (fkey x) (fkey y) <> Gt).
Proof.
  intros Hx Hy. apply is_nan_spec in Hx. apply is_nan_spec in Hy.
  rewrite leb_spec. unfold SFleb, fkey.
  rewrite SFcompare_key by assumption.
  destruct (kcmp _ _); split; congruence.
Qed.

(** [simLess] orders every list of scores without NaN. *)
Lemma simLess_orders (sims : list Sim) :
  Forall (fun s => is_nan (score s) = false) sims ->
  orders simLess sims.
Proof.
  intros Hn. rewrite Forall_forall in Hn.
  unfold orders, simLess. repeat split.
  - intros x Hx. apply not_true_is_false. intros H.
    apply ltb_key in H; auto. rewrite kcmp_refl in H. discriminate.
  - intros x y z Hx Hy Hz H1 H2.
    apply ltb_key in H1; auto. apply ltb_key in H2; auto.
    apply ltb_key; auto. eapply kcmp_lt_trans; eauto.
  - intros x y z Hx Hy Hz H1 H2.
    apply not_true_iff_false. apply not_true_iff_false in H1, H2.
    rewrite ltb_key in * by auto.
    eapply kcmp_nlt_trans; eauto.
Qed.

(** Not greater, between numbers, is less or equal. *)
Lemma simLess_false_leb (x y : Sim) :
  is_nan (score x) = false -> is_nan (score y) = false ->
  simLess y x = false -> (score y <=? score x)%float = true.
Proof.
  unfold simLess. intros Hx Hy H.
  apply not_true_iff_false in H. rewrite ltb_key in H by auto.
  apply leb_key; auto.
  apply kcmp_nlt_ge in H. destruct H as [H|H]; rewrite H; discriminate.
Qed.

(** ** A sort that meets the contract of [sort.Slice] *)

Lemma insertSorted_perm {A} (less : A -> A -> bool) x l :
  Permutation (x :: l) (insertSorted less x l).
Proof.
  induction l as [|y r IH]; simpl; [reflexivity|].
  destruct (less y x); [|reflexivity].
  etransitivity; [apply perm_swap|]. apply perm_skip. exact IH.
Qed.

Lemma insertionSort_perm {A} (less : A -> A -> bool) l :
  Permutation l (insertionSort less l).
Proof.
  induction l as [|x r IH]; simpl; [reflexivity|].
  etransitivity; [apply perm_skip; exact IH|]. apply insertSorted_perm.
Qed.

Lemma orders_incl {A} (less : A -> A -> bool) l l' :
  incl l' l -> orders less l -> orders less l'.
Proof.
  intros Hi (Hr & Ht & Hn). repeat split.
  - intros; apply Hr; auto.
  - intros x y z ? ? ?; apply Ht; auto.
  - intros x y z ? ? ?; apply Hn; auto.
Qed.

Lemma insertSorted_sorted {A} (less : A -> A -> bool) x l :
  orders less (x :: l) ->
  StronglySorted (fun a b => less b a = false) l ->
  StronglySorted (fun a b => less b a = false) (insertSorted less x l).
Proof.
  intros Ho. induction l as [|y r IH]; simpl; intros Hs.
  - repeat constructor.
  - inversion Hs as [|? ? Hs' Hall]; subst.
    destruct (less y x) eqn:E.
    + constructor.
      * apply IH; auto.
        eapply orders_incl; [|exact Ho].
        intros a [->|Ha]; [left|right; right]; auto.
      * eapply Permutation_Forall; [apply insertSorted_perm|].
        constructor; [|exact Hall].
        destruct Ho as (Hr & Ht & _).
        apply not_true_is_false. intros Hxy.
        assert (Hyy : less y y = true)
          by (apply (Ht y x y); simpl; auto).
        rewrite Hr in Hyy by (simpl; auto). discriminate.
    + constructor; [exact Hs|].
      constructor; [exact E|].
      destruct Ho as (_ & _ & Hn).
      rewrite Forall_forall in *. intros z Hz.
      apply (Hn z y x); simpl; auto.
Qed.

Lemma insertionSort_sorted {A} (less : A -> A -> bool) l :
  orders less l ->
  StronglySorted (fun a b => less b a = false) (insertionSort less l).
Proof.
  induction l as [|x r IH]; simpl; intros Ho; [constructor|].
  apply insertSorted_sorted.
  - eapply orders_incl; [|exact Ho].
    intros a [->|Ha]; [left; reflexivity|right].
    eapply Permutation_in; [symmetry; apply insertionSort_perm|exact Ha].
  - apply IH. eapply orders_incl; [|exact Ho]. intros a Ha; right; exact Ha.
Qed.

Lemma insertionSort_contract : sort_contract (@insertionSort).
Proof.
  intros A less l. split.
  - apply insertionSort_perm.
  - apply insertionSort_sorted.
Qed.

Lemma reversingSort_contract : sort_contract reversingSort.
Proof.
  intros A less l. unfold reversingSort. split.
  - etransitivity; [apply Permutation_rev|]. apply insertionSort_perm.
  - intros Ho. apply insertionSort_sorted.
    eapply orders_incl; [|exact Ho].
    intros a Ha. apply in_rev; exact Ha.
Qed.

(** ** [SimilarChunks] *)

Lemma topChunks_firstn K i sims acc :
  topChunks K i sims acc
  = acc ++ map chunk (firstn (Z.to_nat (K - i)) sims).
Proof.
  revert i acc. induction sims as [|s rest IH]; intros i acc; simpl.
  - rewrite firstn_nil, app_nil_r. reflexivity.
  - destruct (i <? K)%Z eqn:E.
    + apply Z.ltb_lt in E. rewrite IH.
      replace (Z.to_nat (K - i)) with (S (Z.to_nat (K - (i + 1)))) by lia.
      simpl. rewrite <- app_assoc. reflexivity.
    + apply Z.ltb_ge in E.
      replace (Z.to_nat (K - i)) with 0 by lia.
      simpl. rewrite app_nil_r. reflexivity.
Qed.

Lemma scoreChunks_spec e chunks sims :
  scoreChunks e chunks = Ok sims ->
  map chunk sims = chunks
  /\ Forall (fun s => Similarity e (Embedding (chunk s)) = Ok (score s)) sims.
Proof.
  revert sims. induction chunks as [|c rest IH]; simpl; intros sims H.
  - inversion H; subst. split; constructor.
  - destruct (Similarity e (Embedding c)) as [s| | |] eqn:Es;
      simpl in H; try discriminate.
    destruct (scoreChunks e rest) as [sims'| | |];
      simpl in H; try discriminate.
    inversion H; subst. destruct (IH sims' eq_refl) as [Hm Hf].
    split; simpl; [rewrite Hm; reflexivity|].
    constructor; [exact Es|exact Hf].
Qed.

Lemma Similarity_loop_ok a b dot magA magB :
  length a <= length b ->
  exists s, Similarity_loop a b dot magA magB = Ok s.
Proof.
  revert b dot magA magB.
  induction a as [|x a IH]; intros b dot magA magB Hl; simpl.
  - eexists; reflexivity.
  - destruct b as [|y b]; simpl in Hl; [lia|].
    apply IH. lia.
Qed.

Lemma scoreChunks_ok e chunks :
  Forall (fun c => length e <= length (Embedding c)) chunks ->
  exists sims, scoreChunks e chunks = Ok sims.
Proof.
  induction 1 as [|c rest Hc _ IH]; simpl.
  - eexists; reflexivity.
  - destruct (Similarity_loop_ok e (Embedding c) 0 0 0 Hc) as [s Hs].
    unfold Similarity. rewrite Hs. destruct IH as [sims ->].
    simpl. eexists; reflexivity.
Qed.

Lemma SimilarChunks_eq sort g e K sims :
  scoreChunks e (Chunks g) = Ok sims ->
  SimilarChunks sort g e K
  = Ok (map chunk
          (firstn (Z.to_nat (if (K =? 0)%Z
                             then Z.of_nat (length (sort Sim simLess sims))
                             else K))
                  (sort Sim simLess sims))).
Proof.
  intros H. unfold SimilarChunks. rewrite H. simpl.
  rewrite topChunks_firstn, Z.sub_0_r. reflexivity.
Qed.

Lemma in_skipn {A} (y : A) n l : In y (skipn n l) -> In y l.
Proof.
  intros H. rewrite <- (firstn_skipn n l). apply in_or_app; right; exact H.
Qed.

Lemma StronglySorted_split {A} (R : A -> A -> Prop) n l :
  StronglySorted R l ->
  forall x y, In x (firstn n l) -> In y (skipn n l) -> R x y.
Proof.
  revert n. induction l as [|a l IH]; intros n Hs x y Hx Hy.
  - rewrite firstn_nil in Hx. contradiction.
  - inversion Hs as [|? ? Hs' Hall]; subst.
    destruct n as [|n]; simpl in Hx, Hy; [contradiction|].
    destruct Hx as [<-|Hx].
    + rewrite Forall_forall in Hall. apply Hall.
      eapply in_skipn; exact Hy.
    + eapply IH; eauto.
Qed.

Lemma StronglySorted_weaken {A} (R R' : A -> A -> Prop) l :
  (forall x y, In x l -> In y l -> R x y -> R' x y) ->
  StronglySorted R l -> StronglySorted R' l.
Proof.
  induction l as [|a l IH]; intros Hw Hs; [constructor|].
  inversion Hs as [|? ? Hs' Hall]; subst. constructor.
  - apply IH; [|exact Hs']. intros x y Hx Hy; apply Hw; simpl; auto.
  - rewrite Forall_forall in *. intros y Hy.
    apply Hw; simpl; auto.
Qed.

(** C2, as the code has it.  When every chunk has a numeric score against
    the query (its embedding is at least as long as the query and the
    score is not NaN), [SimilarChunks] with [K = 0] returns all the
    chunks, each once, in non-increasing order of score, and with
    [0 < N <= count] it returns the first [N] of that ranking, none of
    which scores less than a chunk left out.  The order among chunks of
    equal score is whatever [sort.Slice] makes it. *)
Theorem SimilarChunks_ranking
  (sort : forall A : Type, (A -> A -> bool) -> list A -> list A)
  (g : Grokker) (e : list float) :
  sort_contract sort ->
  Forall (fun c => length e <= length (Embedding c)) (Chunks g) ->
  (forall c s, In c (Chunks g) ->
               Similarity e (Embedding c) = Ok s -> is_nan s = false) ->
  exists ranked : list Sim,
    Forall (fun s => Similarity e (Embedding (chunk s)) = Ok (score s)) ranked
    /\ Permutation (Chunks g) (map chunk ranked)
    /\ StronglySorted (fun x y => (score y <=? score x)%float = true) ranked
    /\ SimilarChunks sort g e 0 = Ok (map chunk ranked)
    /\ forall N, (0 < N <= Z.of_nat (length (Chunks g)))%Z ->
         SimilarChunks sort g e N
         = Ok (map chunk (firstn (Z.to_nat N) ranked))
         /\ length (firstn (Z.to_nat N) ranked) = Z.to_nat N
         /\ forall x y,
              In x (firstn (Z.to_nat N) ranked) ->
              In y (skipn (Z.to_nat N) ranked) ->
              (score y <=? score x)%float = true.
Proof.
  intros Hsort Hdim Hnum.
  destruct (scoreChunks_ok e Hdim) as [sims Hsims].
  destruct (scoreChunks_spec _ _ Hsims) as [Hmap Hsc].
  destruct (Hsort Sim simLess sims) as [Hperm Hsorted].
  set (ranked := sort Sim simLess sims) in *.
  assert (Hsc' : Forall (fun s => Similarity e (Embedding (chunk s))
                                  = Ok (score s)) ranked)
    by (eapply Permutation_Forall; eauto).
  assert (Hnan : Forall (fun s => is_nan (score s) = false) sims).
  { rewrite Forall_forall in *. intros s Hs.
    apply (Hnum (chunk s)); [|apply Hsc; exact Hs].
    rewrite <- Hmap. apply in_map; exact Hs. }
  assert (Hnan' : Forall (fun s => is_nan (score s) = false) ranked)
    by (eapply Permutation_Forall; eauto).
  assert (Hss : StronglySorted
                  (fun x y => (score y <=? score x)%float = true) ranked).
  { eapply StronglySorted_weaken;
      [|apply Hsorted; apply simLess_orders; exact Hnan].
    rewrite Forall_forall in Hnan'.
    intros x y Hx Hy H. apply simLess_false_leb; auto. }
  assert (Hlen : length ranked = length (Chunks g)).
  { rewrite <- (Permutation_length Hperm), <- Hmap, length_map.
    reflexivity. }
  exists ranked. split; [exact Hsc'|]. split.
  { rewrite <- Hmap. apply Permutation_map; exact Hperm. }
  split; [exact Hss|]. split.
  { rewrite (@SimilarChunks_eq sort g e 0%Z sims Hsims). fold ranked. simpl.
    rewrite Nat2Z.id, firstn_all. reflexivity. }
  intros N HN. split; [|split].
  - rewrite (@SimilarChunks_eq sort g e N sims Hsims). fold ranked.
    destruct (N =? 0)%Z eqn:E; [apply Z.eqb_eq in E; lia|reflexivity].
  - rewrite length_firstn. lia.
  - intros x y Hx Hy.
    exact (StronglySorted_split (Z.to_nat N) Hss x y Hx Hy).
Qed.

(** C10, as the code has it.  When every chunk embedding is at least as
    long as the query embedding, [SimilarChunks] with [K] above the number
    of chunks returns, without error, all the chunks in ranked order: the
    result for [K] equal to the number of chunks, and for [K = 0].  On an
    empty chunk list it returns the empty list for every [K]. *)
Theorem SimilarChunks_large_K
  (sort : forall A : Type, (A -> A -> bool) -> list A -> list A)
  (g : Grokker) (e : list float) :
  sort_contract sort ->
  (Forall (fun c => length e <= length (Embedding c)) (Chunks g) ->
   forall K, (Z.of_nat (length (Chunks g)) < K)%Z ->
     exists ranked,
       SimilarChunks sort g e K = Ok ranked
       /\ Permutation (Chunks g) ranked
       /\ SimilarChunks sort g e (Z.of_nat (length (Chunks g))) = Ok ranked
       /\ SimilarChunks sort g e 0 = Ok ranked)
  /\ (Chunks g = [] -> forall K, SimilarChunks sort g e K = Ok []).
Proof.
  intros Hsort. split.
  - intros Hdim K HK.
    destruct (scoreChunks_ok e Hdim) as [sims Hsims].
    destruct (scoreChunks_spec _ _ Hsims) as [Hmap _].
    destruct (Hsort Sim simLess sims) as [Hperm _].
    assert (Hlen : length (sort Sim simLess sims) = length (Chunks g)).
    { rewrite <- (Permutation_length Hperm), <- Hmap, length_map.
      reflexivity. }
    exists (map chunk (sort Sim simLess sims)).
    rewrite !(@SimilarChunks_eq sort g e _ sims Hsims).
    assert (HK0 : (K =? 0)%Z = false) by (apply Z.eqb_neq; lia).
    rewrite HK0. simpl (0 =? 0)%Z. cbv iota.
    rewrite Hlen.
    rewrite (@firstn_all2 _ (Z.to_nat K)) by lia.
    rewrite Nat2Z.id.
    rewrite (@firstn_all2 _ (length (Chunks g))) by lia.
    destruct (Z.of_nat (length (Chunks g)) =? 0)%Z;
      rewrite ?Nat2Z.id, ?(@firstn_all2 _ (length (Chunks g))) by lia;
      repeat split; auto;
      rewrite <- Hmap; apply Permutation_map; exact Hperm.
  - intros Hnil K. unfold SimilarChunks. rewrite Hnil. simpl.
    destruct (Hsort Sim simLess []) as [Hperm _].
    apply Permutation_nil in Hperm. rewrite Hperm.
    reflexivity.
Qed.

(** ** [CreateEmbeddings] *)

(** One round of the loop of [CreateEmbeddings]. *)
Lemma CreateEmbeddings_loop_step api texts i embeddings log :
  CreateEmbeddings_loop api texts i embeddings log
  = if i <? length texts
    then
      let input :=
        firstn (Nat.min (i + 100) (length texts) - i) (skipn i texts) in
      match api input with
      | None => (Err EEmbedding, log ++ [input])
      | Some data =>
          CreateEmbeddings_loop api texts (i + 100) (embeddings ++ data)
            (log ++ [input])
      end
    else (Ok embeddings, log).
Proof.
  rewrite CreateEmbeddings_loop_equation_1.
  destruct (lt_dec i (length texts)) as [Hlt|Hge].
  - apply Nat.ltb_lt in Hlt as E. rewrite E. cbv zeta.
    simp CreateEmbeddings_loop.
    destruct (api _); simp CreateEmbeddings_loop; reflexivity.
  - apply Nat.ltb_nlt in Hge as E. rewrite E.
    simp CreateEmbeddings_loop. reflexivity.
Qed.

Lemma batchSizes_nil fuel n : batchSizes fuel n <> [] -> 0 < n.
Proof.
  destruct fuel; simpl; [congruence|].
  destruct (n =? 0) eqn:E; [congruence|]. apply Nat.eqb_neq in E. lia.
Qed.

Section Batching.

Variable api : list string -> option (list (list float)).
Variable emb : string -> list float.
Hypothesis api_ok :
  forall input, length input <= 100 -> api input = Some (map emb input).

Variable texts : list string.

Lemma CreateEmbeddings_loop_batches fuel :
  forall i embeddings log,
    length texts - i <= fuel ->
    exists requests,
      CreateEmbeddings_loop api texts i embeddings log
      = (Ok (embeddings ++ map emb (skipn i texts)), log ++ requests)
      /\ concat requests = skipn i texts
      /\ Forall (fun input => 0 < length input <= 100) requests
      /\ (forall k input,
            nth_error requests k = Some input ->
            S k < length requests -> length input = 100)
      /\ map (@length string) requests
         = batchSizes fuel (length texts - i).
Proof.
  induction fuel as [|fuel IH]; intros i embeddings log Hfuel;
    rewrite CreateEmbeddings_loop_step.
  - assert (E : (i <? length texts) = false) by (apply Nat.ltb_ge; lia).
    rewrite E. exists []. rewrite skipn_all2 by lia.
    simpl. rewrite !app_nil_r. repeat split; auto.
    intros k input H. destruct k; discriminate.
  - destruct (i <? length texts) eqn:E.
    + apply Nat.ltb_lt in E. cbv zeta.
      set (m := Nat.min (i + 100) (length texts) - i).
      set (input := firstn m (skipn i texts)).
      assert (Hm : m = Nat.min 100 (length texts - i)) by (unfold m; lia).
      assert (Hlen : length input = m).
      { unfold input. rewrite length_firstn, length_skipn. lia. }
      rewrite api_ok by lia.
      destruct (IH (i + 100) (embeddings ++ map emb input)
                   (log ++ [input]))
          as (reqs & Hrun & Hcat & Hall & Hfull & Hsizes);
        [lia|].
      assert (Hrest : skipn (i + 100) texts = skipn m (skipn i texts)).
      { rewrite skipn_skipn.
        destruct (le_lt_dec 100 (length texts - i)).
        - f_equal; lia.
        - rewrite !skipn_all2 by lia. reflexivity. }
      exists (input :: reqs). rewrite Hrun. split; [|split; [|split; [|split]]].
      * rewrite <- !app_assoc. simpl. rewrite Hrest.
        rewrite <- map_app. unfold input. rewrite firstn_skipn.
        reflexivity.
      * simpl. rewrite Hcat, Hrest. unfold input. apply firstn_skipn.
      * constructor; [lia|exact Hall].
      * intros k x Hk Hlast. destruct k as [|k]; simpl in *.
        -- inversion Hk; subst x.
           assert (Hne : batchSizes fuel (length texts - (i + 100)) <> []).
           { rewrite <- Hsizes. destruct reqs; simpl in *; [lia|congruence]. }
           apply batchSizes_nil in Hne. lia.
        -- apply (Hfull k x Hk). lia.
      * simpl. assert (En : (length texts - i =? 0) = false)
          by (apply Nat.eqb_neq; lia).
        rewrite En, Hsizes, Hlen, Hm. do 2 f_equal. lia.
    + apply Nat.ltb_ge in E. exists []. rewrite skipn_all2 by lia.
      simpl. replace (length texts - i) with 0 by lia.
      rewrite !app_nil_r. repeat split; auto.
      intros k input H. destruct k; discriminate.
Qed.

End Batching.

(** C7. When every request of at most 100 texts is answered with one
    embedding per text, in order, [CreateEmbeddings] returns one embedding
    per input text in the input order, and the requests it sent are the
    successive slices of the input: each of 1 to 100 texts, all but the
    last of exactly 100; for 250 texts, three requests of 100, 100 and
    50. *)
Theorem CreateEmbeddings_batched
  (env : Env) (emb : string -> list float) (texts : list string) (w : World) :
  (forall input, length input <= 100 ->
                 embeddingAPI env input = Some (map emb input)) ->
  exists requests,
    CreateEmbeddings env texts w
    = (Ok (map emb texts),
       mkWorld (store w) (embeddingLog w ++ requests) (chatLog w))
    /\ concat requests = texts
    /\ Forall (fun input => 0 < length input <= 100) requests
    /\ (forall k input,
          nth_error requests k = Some input ->
          S k < length requests -> length input = 100)
    /\ (length texts = 250 -> map (@length string) requests = [100; 100; 50]).
Proof.
  intros Hapi.
  destruct (@CreateEmbeddings_loop_batches (embeddingAPI env) emb Hapi texts
              (length texts) 0 [] (embeddingLog w))
    as (reqs & Hrun & Hcat & Hall & Hfull & Hsizes); [lia|].
  exists reqs. unfold CreateEmbeddings. rewrite Hrun. simpl in *.
  repeat split; auto.
  intros H250. rewrite Hsizes, Nat.sub_0_r, H250. reflexivity.
Qed.

(** ** [UpdateDocument] *)

Lemma diffChunks_spec cs old updated acc :
  exists left,
    diffChunks cs old updated acc
    = (left, updated || nonEmpty (newStrings cs old),
       acc ++ newStrings cs old).
Proof.
  revert old updated acc.
  induction cs as [|s rest IH]; intros old updated acc; simpl.
  - exists old. rewrite orb_false_r, app_nil_r. reflexivity.
  - destruct (takeOld s old) as [old'|].
    + apply IH.
    + destruct (IH old true (acc ++ [s])) as [left ->].
      exists left. simpl. rewrite orb_true_r, <- app_assoc. reflexivity.
Qed.

Lemma takeOld_app s old old' extra :
  takeOld s old = Some old' -> takeOld s (old ++ extra) = Some (old' ++ extra).
Proof.
  revert old'. induction old as [|c old IH]; simpl; intros old' H;
    [discriminate|].
  destruct (Text c =? s)%string.
  - inversion H; reflexivity.
  - destruct (takeOld s old) as [o|]; [|discriminate].
    inversion H; subst. rewrite (IH o eq_refl). reflexivity.
Qed.

Lemma takeOld_app_new s old c extra :
  takeOld s old = None -> Text c = s ->
  takeOld s (old ++ c :: extra) = Some (old ++ extra).
Proof.
  intros H Hc. induction old as [|c0 old IH]; simpl in *.
  - rewrite Hc, String.eqb_refl. reflexivity.
  - destruct (Text c0 =? s)%string; [discriminate|].
    destruct (takeOld s old); [discriminate|].
    rewrite IH by reflexivity. reflexivity.
Qed.

Lemma takeOld_None s old :
  takeOld s old = None <-> ~ In s (map Text old).
Proof.
  induction old as [|c old IH]; simpl.
  - tauto.
  - destruct (Text c =? s)%string eqn:E.
    + apply String.eqb_eq in E. split; [discriminate|tauto].
    + apply String.eqb_neq in E.
      destruct (takeOld s old); simpl.
      * split; [discriminate|]. intros H. exfalso. apply H. right.
        destruct (in_dec string_dec s (map Text old)) as [Hin|Hin]; auto.
        apply IH in Hin. discriminate.
      * split; auto. intros _ [H|H]; [auto|]. apply IH in H; auto.
Qed.

Lemma takeOld_Some_incl s old old' :
  takeOld s old = Some old' ->
  forall t, In t (map Text old) -> t = s \/ In t (map Text old').
Proof.
  revert old'. induction old as [|c old IH]; simpl; intros old' H t Ht;
    [discriminate|].
  destruct (Text c =? s)%string eqn:E.
  - apply String.eqb_eq in E. inversion H; subst.
    destruct Ht as [<-|Ht]; auto.
  - destruct (takeOld s old) as [o|]; [|discriminate].
    inversion H; subst. simpl.
    destruct Ht as [Ht|Ht]; auto.
    destruct (IH o eq_refl t Ht); auto.
Qed.

(** Once the new strings have their chunks, nothing is new any more. *)
Lemma newStrings_after cs :
  forall old added,
    map Text added = newStrings cs old ->
    newStrings cs (old ++ added) = [].
Proof.
  induction cs as [|s rest IH]; intros old added H; simpl in *;
    [reflexivity|].
  destruct (takeOld s old) as [old'|] eqn:E.
  - rewrite (takeOld_app _ _ added E). apply IH; exact H.
  - destruct added as [|c added]; simpl in H; [discriminate|].
    injection H as Hc Hrest.
    rewrite (takeOld_app_new old c added E Hc).
    apply IH; exact Hrest.
Qed.

Lemma newStrings_incl cs old s : In s (newStrings cs old) -> In s cs.
Proof.
  revert old. induction cs as [|s0 rest IH]; simpl; intros old H; [auto|].
  destruct (takeOld s0 old); [right; eapply IH; eauto|].
  destruct H as [H|H]; [left; auto|right; eapply IH; eauto].
Qed.

Lemma newStrings_NoDup cs old : NoDup cs -> NoDup (newStrings cs old).
Proof.
  revert old. induction cs as [|s0 rest IH]; simpl; intros old H;
    [constructor|].
  inversion H; subst.
  destruct (takeOld s0 old); [apply IH; auto|].
  constructor; [|apply IH; auto].
  intros Hin. apply newStrings_incl in Hin. contradiction.
Qed.

Lemma newStrings_fresh cs :
  NoDup cs ->
  forall old s, In s (newStrings cs old) -> ~ In s (map Text old).
Proof.
  induction cs as [|s0 rest IH]; simpl; intros Hnd old s Hs; [contradiction|].
  inversion Hnd as [|? ? Hnotin Hnd']; subst.
  destruct (takeOld s0 old) as [old'|] eqn:E.
  - intros Hin.
    destruct (takeOld_Some_incl _ _ E _ Hin) as [->|Hin'].
    + apply newStrings_incl in Hs. contradiction.
    + exact (IH Hnd' old' s Hs Hin').
  - destruct Hs as [<-|Hs].
    + apply takeOld_None; exact E.
    + exact (IH Hnd' old s Hs).
Qed.

Lemma sameConfig_refl g : sameConfig g g.
Proof. repeat split. Qed.

Lemma sameConfig_trans g1 g2 g3 :
  sameConfig g1 g2 -> sameConfig g2 g3 -> sameConfig g1 g3.
Proof.
  unfold sameConfig. intros (A1 & A2 & A3 & A4) (B1 & B2 & B3 & B4).
  repeat split; congruence.
Qed.

Lemma appendChunks_effect doc texts :
  forall i embeddings w,
    exists added rest,
      texts = map Text added ++ rest
      /\ Forall (fun c => ChunkDocument c = doc) added
      /\ Chunks (store (exec (appendChunks doc texts i embeddings) w))
         = Chunks (store w) ++ added
      /\ sameConfig (store w)
           (store (exec (appendChunks doc texts i embeddings) w))
      /\ embeddingLog (exec (appendChunks doc texts i embeddings) w)
         = embeddingLog w
      /\ chatLog (exec (appendChunks doc texts i embeddings) w) = chatLog w
      /\ (run (appendChunks doc texts i embeddings) w = Ok tt -> rest = []).
Proof.
  induction texts as [|text texts IH]; intros i embeddings w; simpl.
  - exists [], []. unfold exec, run, ret; simpl. rewrite app_nil_r.
    repeat split; auto.
  - destruct (nth_error embeddings i) as [e|].
    + unfold exec, run, bind, modifyStore; simpl.
      set (w1 := mkWorld _ _ _).
      destruct (IH (S i) embeddings w1)
        as (added & rest & Ht & Hdoc & Hch & Hcfg & Hel & Hcl & Hok).
      unfold exec, run in *.
      destruct (appendChunks doc texts (S i) embeddings w1) as [r w'].
      simpl in *.
      exists (mkChunk doc text e :: added), rest.
      split; [simpl; rewrite Ht; reflexivity|].
      split; [constructor; auto|].
      split; [rewrite Hch, <- app_assoc; reflexivity|].
      split; [exact Hcfg|]. auto.
    + exists [], (text :: texts). unfold exec, run, lift; simpl.
      rewrite app_nil_r. repeat split; auto. discriminate.
Qed.

Lemma CreateEmbeddings_nil env w :
  CreateEmbeddings env [] w
  = (Ok [], mkWorld (store w) (embeddingLog w) (chatLog w)).
Proof.
  unfold CreateEmbeddings. rewrite CreateEmbeddings_loop_step. reflexivity.
Qed.

(** The effect of [UpdateDocument], whatever its outcome: chunks of [doc]
    are appended for new chunk strings, in order, and nothing else in the
    store changes; when the call returns, all the new strings have their
    chunk and the result tells whether there were any. *)
Lemma UpdateDocument_effect env doc w :
  let w' := exec (UpdateDocument env doc) w in
  exists added,
    Chunks (store w') = Chunks (store w) ++ added
    /\ sameConfig (store w) (store w')
    /\ chatLog w' = chatLog w
    /\ Forall (fun c => ChunkDocument c = doc) added
    /\ (added = []
        \/ exists cs rest,
             chunkStrings env (store w) doc = Ok cs
             /\ newStrings cs (chunksOfPath (Path doc) (Chunks (store w)))
                = map Text added ++ rest)
    /\ (forall updated,
          run (UpdateDocument env doc) w = Ok updated ->
          exists cs,
            chunkStrings env (store w) doc = Ok cs
            /\ map Text added
               = newStrings cs (chunksOfPath (Path doc) (Chunks (store w)))
            /\ updated = nonEmpty (map Text added)).
Proof.
  cbv zeta. unfold UpdateDocument, exec, run, bind, getStore, lift.
  fold (chunksOfPath (Path doc) (Chunks (store w))).
  destruct (chunkStrings env (store w) doc) as [cs| | |] eqn:Ecs; simpl;
    try (exists []; rewrite app_nil_r;
         repeat split; auto; intros; discriminate).
  destruct (diffChunks_spec cs (chunksOfPath (Path doc) (Chunks (store w)))
              false []) as [left ->].
  simpl.
  set (news := newStrings cs (chunksOfPath (Path doc) (Chunks (store w)))).
  pose proof (CreateEmbeddings_frame env news w) as [Hst Hcl].
  unfold exec in Hst, Hcl.
  destruct (CreateEmbeddings env news w) as [[embeddings| | |] w1];
    simpl in *;
    try (exists []; rewrite app_nil_r, Hst;
         repeat split; auto; intros; discriminate).
  destruct (appendChunks_effect doc news 0 embeddings w1)
    as (added & rest & Ht & Hdoc & Hch & Hcfg & Hel & Hcl' & Hok).
  unfold exec, run in *.
  destruct (appendChunks doc news 0 embeddings w1) as [[[]| | |] w2];
    simpl in *; exists added; rewrite Hst in *;
    (split; [exact Hch|]);
    (split; [exact Hcfg|]);
    (split; [congruence|]);
    (split; [exact Hdoc|]);
    (split; [right; exists cs, rest; split; [reflexivity|exact Ht]|]);
    intros updated Hu; try discriminate.
  rewrite (Hok eq_refl), app_nil_r in Ht.
  exists cs. split; [reflexivity|]. split; [symmetry; exact Ht|].
  inversion Hu; subst updated. rewrite <- Ht. reflexivity.
Qed.

Lemma chunksOfPath_own doc added :
  Forall (fun c => ChunkDocument c = doc) added ->
  chunksOfPath (Path doc) added = added.
Proof.
  induction 1 as [|c l Hc _ IH]; simpl; [reflexivity|].
  rewrite Hc, String.eqb_refl, IH. reflexivity.
Qed.

(** C4. After a call of [UpdateDocument] that returned, a second call on
    the same document, with the file content read the same, sends no
    embedding request, leaves the store and the logs as they were, so the
    chunk list is the same, and returns [updated = false] without
    error. *)
Theorem UpdateDocument_again
  (env1 env2 : Env) (doc : Document) (w w1 : World) (updated : bool) :
  UpdateDocument env1 doc w = (Ok updated, w1) ->
  readFile env2 (Path doc) = readFile env1 (Path doc) ->
  UpdateDocument env2 doc w1 = (Ok false, w1).
Proof.
  intros Hfirst Hread.
  destruct (UpdateDocument_effect env1 doc w)
    as (added & Hch & Hcfg & _ & Hdoc & _ & Hok).
  unfold exec, run in *. rewrite Hfirst in *. simpl in *.
  destruct (Hok updated eq_refl) as (cs & Hcs & Hnew & _).
  destruct Hcfg as (_ & _ & Hmax & _).
  assert (Hcs2 : chunkStrings env2 (store w1) doc = Ok cs).
  { unfold chunkStrings in *. rewrite Hread, Hmax. exact Hcs. }
  assert (Hnone : newStrings cs (chunksOfPath (Path doc) (Chunks (store w1)))
                  = []).
  { rewrite Hch. unfold chunksOfPath. rewrite filter_app.
    fold (chunksOfPath (Path doc) (Chunks (store w))).
    fold (chunksOfPath (Path doc) added).
    rewrite (chunksOfPath_own Hdoc).
    apply newStrings_after; exact Hnew. }
  unfold UpdateDocument, bind, getStore, lift.
  fold (chunksOfPath (Path doc) (Chunks (store w1))).
  rewrite Hcs2.
  destruct (diffChunks_spec cs (chunksOfPath (Path doc) (Chunks (store w1)))
              false []) as [left ->].
  rewrite Hnone. simpl. rewrite CreateEmbeddings_nil.
  destruct w1; reflexivity.
Qed.

(** ** The deduplication invariant *)

Lemma NoDup_map_filter {A B} (f : A -> B) (q : A -> bool) l :
  NoDup (map f l) -> NoDup (map f (filter q l)).
Proof.
  induction l as [|a l IH]; simpl; intros H; [constructor|].
  inversion H as [|? ? Hnotin Hnd]; subst.
  destruct (q a); simpl; [|auto].
  constructor; [|auto].
  intros Hin. apply Hnotin.
  apply in_map_iff in Hin. destruct Hin as (x & Hx & Hin).
  apply filter_In in Hin. rewrite <- Hx. apply in_map. tauto.
Qed.

Lemma filter_comm {A} (p q : A -> bool) l :
  filter p (filter q l) = filter q (filter p l).
Proof.
  induction l as [|a l IH]; simpl; [reflexivity|].
  destruct (p a) eqn:Ep, (q a) eqn:Eq; simpl;
    rewrite ?Ep, ?Eq, IH; reflexivity.
Qed.

Lemma chunksOfPath_other doc path added :
  Forall (fun c => ChunkDocument c = doc) added ->
  (Path doc =? path)%string = false ->
  chunksOfPath path added = [].
Proof.
  intros H E. induction H as [|c l Hc _ IH]; simpl; [reflexivity|].
  rewrite Hc, E. exact IH.
Qed.

Lemma UpdateDocument_dedup env doc w :
  dedup (store w) ->
  distinctSegments (MaxChunkSize (store w)) env (Path doc) ->
  dedup (store (exec (UpdateDocument env doc) w)).
Proof.
  intros Hd Hseg path.
  destruct (UpdateDocument_effect env doc w)
    as (added & Hch & _ & _ & Hdoc & Hnew & _).
  cbv zeta in Hch. rewrite Hch.
  unfold chunksOfPath. rewrite filter_app.
  fold (chunksOfPath path (Chunks (store w))).
  fold (chunksOfPath path added).
  destruct Hnew as [->|(cs & rest & Hcs & Hnew)].
  { simpl. rewrite app_nil_r. apply Hd. }
  destruct (Path doc =? path)%string eqn:E.
  - apply String.eqb_eq in E. subst path.
    rewrite (chunksOfPath_own Hdoc), map_app.
    assert (Hnd : NoDup cs).
    { unfold chunkStrings in Hcs.
      destruct (readFile env (Path doc)) as [txt|] eqn:Er; [|discriminate].
      eapply Hseg; eauto. }
    apply NoDup_app.
    + apply Hd.
    + apply (newStrings_NoDup (chunksOfPath (Path doc) (Chunks (store w))))
        in Hnd as Hnd'.
      rewrite Hnew in Hnd'. eapply NoDup_app_remove_r; exact Hnd'.
    + intros s Hold Hin.
      eapply (newStrings_fresh Hnd); [|exact Hold].
      rewrite Hnew. apply in_or_app; left; exact Hin.
  - rewrite (chunksOfPath_other path Hdoc E), app_nil_r. apply Hd.
Qed.

Lemma AddDocument_exec env path w :
  exists w1,
    Chunks (store w1) = Chunks (store w)
    /\ MaxChunkSize (store w1) = MaxChunkSize (store w)
    /\ exec (AddDocument env path) w
       = exec (UpdateDocument env (mkDocument path)) w1.
Proof.
  unfold AddDocument, exec, bind, getStore.
  destruct (existsb _ (elems (Documents (store w)))).
  - exists w. unfold ret.
    destruct (UpdateDocument env (mkDocument path) w) as [[b| | |] w2];
      auto.
  - unfold modifyStore.
    exists (mkWorld
              (set_Documents (store w)
                 (append (Documents (store w)) (mkDocument path)))
              (embeddingLog w) (chatLog w)).
    split; [reflexivity|]. split; [reflexivity|]. simpl.
    destruct (UpdateDocument env (mkDocument path) _) as [[b| | |] w2];
      reflexivity.
Qed.

Lemma step_dedup o w :
  dedup (store w) ->
  opDistinct (MaxChunkSize (store w)) o ->
  dedup (store (exec (step o) w))
  /\ MaxChunkSize (store (exec (step o) w)) = MaxChunkSize (store w).
Proof.
  intros Hd Ho. destruct o as [env path|env doc|doc|]; simpl in *.
  - (* AddDocument *)
    destruct (AddDocument_exec env path w) as (w1 & Hc & Hm & ->).
    assert (Hd1 : dedup (store w1))
      by (intros p; rewrite Hc; apply Hd).
    assert (Hs1 : distinctSegments (MaxChunkSize (store w1)) env
                    (Path (mkDocument path)))
      by (rewrite Hm; exact Ho).
    split; [exact (@UpdateDocument_dedup env (mkDocument path) w1 Hd1 Hs1)|].
    destruct (UpdateDocument_effect env (mkDocument path) w1)
      as (_ & _ & (_ & _ & Hm2 & _) & _).
    cbv zeta in Hm2. congruence.
  - (* UpdateDocument *)
    pose proof (@UpdateDocument_dedup env doc w Hd Ho) as Hd2.
    destruct (UpdateDocument_effect env doc w)
      as (_ & _ & (_ & _ & Hm2 & _) & _).
    unfold exec, bind in *.
    destruct (UpdateDocument env doc w) as [[b| | |] w2];
      simpl in *; split; auto.
  - (* RemoveDocument *)
    unfold exec, RemoveDocument, modifyStore; simpl.
    destruct (indexOfPath _ _); simpl; split; auto.
  - (* GC *)
    unfold exec, GC, modifyStore; simpl. split; [|reflexivity].
    intros p. simpl. unfold chunksOfPath. rewrite filter_comm.
    apply NoDup_map_filter. apply Hd.
Qed.

(** C3, as the code has it.  The store keeps the property that no two
    chunks of one document path have the same text through every sequence
    of [AddDocument], [UpdateDocument], [RemoveDocument] and [GC], as long
    as no file that is chunked yields the same segment twice. *)
Theorem dedup_preserved (ops : list op) (w : World) :
  dedup (store w) ->
  Forall (opDistinct (MaxChunkSize (store w))) ops ->
  dedup (store (runOps ops w)).
Proof.
  revert w. induction ops as [|o ops IH]; intros w Hd Hops; simpl.
  - exact Hd.
  - inversion Hops as [|? ? Ho Hrest]; subst.
    destruct (@step_dedup o w Hd Ho) as [Hd' Hm'].
    apply IH; [exact Hd'|]. rewrite Hm'. exact Hrest.
Qed.

(** C5. With documents [a.txt; b.txt; c.txt] of which the first two are
    missing on disk, [UpdateEmbeddings] returns [true] and leaves
    [b.txt; c.txt]: removing [a.txt] moves [b.txt] into the slot the range
    loop has just left, so [b.txt] is never looked at and stays in the
    document list, with its chunk. *)
Theorem UpdateEmbeddings_skips_next_missing :
  stat envMissing (Path docA) = StatNotExist
  /\ stat envMissing (Path docB) = StatNotExist
  /\ run (UpdateEmbeddings envMissing ".grok") (initWorld storeABC) = Ok true
  /\ elems (Documents (store (exec (UpdateEmbeddings envMissing ".grok")
                                   (initWorld storeABC))))
     = [docB; docC]
  /\ map Text (Chunks (store (exec (UpdateEmbeddings envMissing ".grok")
                                   (initWorld storeABC))))
     = ["beta"; "gamma"]%string.
Proof. vm_compute. repeat split; reflexivity. Qed.

(** ** Document paths stay distinct *)

Lemma removePath_incl path docs d :
  In d (removePath path docs) -> In d docs.
Proof.
  induction docs as [|d0 rest IH]; simpl; [auto|].
  destruct (Path d0 =? path)%string; simpl; intuition.
Qed.

Lemma removePath_NoDup path docs :
  NoDup (map Path docs) -> NoDup (map Path (removePath path docs)).
Proof.
  induction docs as [|d0 rest IH]; simpl; intros H; [constructor|].
  inversion H as [|? ? Hnotin Hnd]; subst.
  destruct (Path d0 =? path)%string; simpl; [exact Hnd|].
  constructor; [|auto].
  intros Hin. apply Hnotin.
  apply in_map_iff in Hin. destruct Hin as (d & Hd & Hin).
  rewrite <- Hd. apply in_map. eapply removePath_incl; eauto.
Qed.

Lemma AddDocument_documents env path w :
  elems (Documents (store (exec (AddDocument env path) w)))
  = if existsb (fun d => (Path d =? path)%string)
         (elems (Documents (store w)))
    then elems (Documents (store w))
    else elems (Documents (store w)) ++ [mkDocument path].
Proof.
  unfold AddDocument, exec, bind, getStore. simpl.
  destruct (existsb _ (elems (Documents (store w)))).
  - unfold ret.
    destruct (UpdateDocument_effect env (mkDocument path) w)
      as (_ & _ & (_ & Hdocs & _) & _).
    unfold exec in Hdocs.
    destruct (UpdateDocument env (mkDocument path) w) as [[b| | |] w2];
      simpl in *; rewrite Hdocs; reflexivity.
  - unfold modifyStore.
    set (w1 := mkWorld _ _ _).
    destruct (UpdateDocument_effect env (mkDocument path) w1)
      as (_ & _ & (_ & Hdocs & _) & _).
    unfold exec in Hdocs.
    destruct (UpdateDocument env (mkDocument path) w1) as [[b| | |] w2];
      simpl in *; rewrite Hdocs; apply elems_append.
Qed.

(** Every operation of the store keeps the paths of the document list
    pairwise distinct: [AddDocument] registers a path only when it is not
    there yet. *)
Lemma step_paths_distinct o w :
  NoDup (map Path (elems (Documents (store w)))) ->
  NoDup (map Path (elems (Documents (store (exec (step o) w))))).
Proof.
  intros H. destruct o as [env path|env doc|doc|]; cbn [step].
  - rewrite AddDocument_documents.
    destruct (existsb _ _) eqn:E; [exact H|].
    rewrite map_app. apply NoDup_app; [exact H|repeat constructor; auto|].
    intros p Hp [<-|[]].
    apply in_map_iff in Hp. destruct Hp as (d & Hd & Hin).
    assert (Hex : existsb (fun d => (Path d =? path)%string)
                    (elems (Documents (store w))) = true).
    { apply existsb_exists. exists d. split; [exact Hin|].
      apply String.eqb_eq. exact Hd. }
    congruence.
  - destruct (UpdateDocument_effect env doc w)
      as (_ & _ & (_ & Hdocs & _) & _).
    unfold exec, bind in *.
    destruct (UpdateDocument env doc w) as [[b| | |] w2];
      simpl in *; rewrite Hdocs; exact H.
  - rewrite RemoveDocument_elems. apply removePath_NoDup. exact H.
  - exact H.
Qed.

Lemma runOps_paths_distinct ops :
  NoDup (map Path (elems (Documents (store (runOps ops (initWorld New)))))).
Proof.
  assert (G : forall w,
             NoDup (map Path (elems (Documents (store w)))) ->
             NoDup (map Path (elems (Documents (store (runOps ops w)))))).
  { induction ops as [|o ops IH]; intros w H; simpl; [exact H|].
    apply IH. apply step_paths_distinct. exact H. }
  apply G. constructor.
Qed.

(** In every store built from [New] by the operations, no chunk of [d]
    is left after [RemoveDocument(d)] and [GC]. *)
Corollary GC_after_RemoveDocument_reachable ops d c :
  let w := runOps ops (initWorld New) in
  In c (Chunks (store (exec GC (exec (RemoveDocument d) w)))) ->
  Path (ChunkDocument c) <> Path d.
Proof.
  cbv zeta. intros Hin.
  assert (Hc : referenced
                 (elems (Documents
                           (store (exec (RemoveDocument d)
                                        (runOps ops (initWorld New)))))) c
               = true).
  { unfold exec at 1, GC, modifyStore in Hin; simpl in Hin.
    apply filter_In in Hin. apply Hin. }
  rewrite RemoveDocument_elems in Hc.
  apply referenced_spec in Hc. destruct Hc as (d' & Hd' & E).
  rewrite <- E. eapply removePath_gone; [apply runOps_paths_distinct|].
  exact Hd'.
Qed.

(** ** The theorems at concrete inputs *)

(** The three chunks of 4000 bytes of [store4000], ranked in store order
    for the query. *)
Lemma Answer_context_three_chunks_witness :
  let w := initWorld store4000 in
  let context :=
    (Text chunk1 ++ sep2 ++ Text chunk2 ++ sep2 ++ Text chunk3 ++ sep2)%string
  in
  (MaxChunkSize (store w) = 16384%Z
   /\ run (FindChunks (@insertionSort) envQuery "q" 0) w
      = Ok [chunk1; chunk2; chunk3])
  /\ (Answer (@insertionSort) envQuery "q" false w
      = Generate envQuery "q" context false
          (exec (FindChunks (@insertionSort) envQuery "q" 0) w)
      /\ (strlen context + strlen promptTmpl = 12042)%Z
      /\ (strlen context + strlen promptTmpl
          > Z.quot (MaxChunkSize (store w)) 2)%Z).
Proof.
  cbv zeta. split.
  - split; [reflexivity|vm_compute; reflexivity].
  - apply (@Answer_context_three_chunks (@insertionSort) envQuery "q" false
             (initWorld store4000) chunk1 chunk2 chunk3 []).
    + reflexivity.
    + vm_compute; reflexivity.
    + vm_compute; reflexivity.
    + vm_compute; reflexivity.
    + vm_compute; reflexivity.
Defined.


(** 250 texts and a service that answers each text by a vector of its
    length. *)
Lemma CreateEmbeddings_batched_witness :
  exists requests,
    CreateEmbeddings envByLength (numbered 250) (initWorld New)
    = (Ok (map byLength (numbered 250)),
       mkWorld New ([] ++ requests) [])
    /\ concat requests = numbered 250
    /\ Forall (fun input => 0 < length input <= 100) requests
    /\ (forall k input,
          nth_error requests k = Some input ->
          S k < length requests -> length input = 100)
    /\ (length (numbered 250) = 250 ->
        map (@length string) requests = [100; 100; 50]).
Proof.
  apply (@CreateEmbeddings_batched envByLength byLength (numbered 250)
           (initWorld New)).
  intros input _. reflexivity.
Defined.

(** A first update of [a.txt] in the empty store, then a second one. *)
Lemma UpdateDocument_again_witness :
  let w1 := exec (UpdateDocument envTwice docA) (initWorld New) in
  UpdateDocument envTwice docA (initWorld New) = (Ok true, w1)
  /\ UpdateDocument envTwice docA w1 = (Ok false, w1).
Proof.
  cbv zeta.
  assert (H : UpdateDocument envTwice docA (initWorld New)
              = (Ok true, exec (UpdateDocument envTwice docA) (initWorld New)))
    by (vm_compute; reflexivity).
  split; [exact H|].
  exact (@UpdateDocument_again envTwice envTwice docA (initWorld New) _ true
           H eq_refl).
Defined.

(** C3, counterexample.  Adding, to an empty store, a document whose text
    is the paragraph [a] twice makes two chunks of that document with the
    text [a]. *)
Lemma dedup_broken_by_repeated_paragraph :
  let w := runOps [OpAddDocument envTwice "a.txt"] (initWorld New) in
  dedup (store (initWorld New))
  /\ map (fun c => (Path (ChunkDocument c), Text c)) (Chunks (store w))
     = [("a.txt", "a"); ("a.txt", "a")]%string
  /\ ~ dedup (store w).
Proof.
  cbv zeta. split; [|split].
  - intros path. constructor.
  - vm_compute. reflexivity.
  - intros H. specialize (H "a.txt"%string).
    vm_compute in H. inversion H as [|? ? Hnotin _]. apply Hnotin.
    left; reflexivity.
Qed.

(** A document of two different paragraphs, added, updated, removed and
    collected. *)
Lemma dedup_preserved_witness :
  let ops := [OpAddDocument envPlain "a.txt";
              OpUpdateDocument envPlain docA;
              OpRemoveDocument docA;
              OpGC] in
  (dedup (store (initWorld New))
   /\ Forall (opDistinct (MaxChunkSize (store (initWorld New)))) ops)
  /\ dedup (store (runOps ops (initWorld New))).
Proof.
  cbv zeta.
  assert (H0 : dedup (store (initWorld New)))
    by (intros path; constructor).
  assert (Hseg : distinctSegments (MaxChunkSize (store (initWorld New)))
                   envPlain "a.txt").
  { intros txt cs Hr Hc. vm_compute in Hr. injection Hr as <-.
    vm_compute in Hc. injection Hc as <-.
    repeat constructor; simpl; intuition discriminate. }
  assert (H1 : Forall (opDistinct (MaxChunkSize (store (initWorld New))))
                 [OpAddDocument envPlain "a.txt";
                  OpUpdateDocument envPlain docA;
                  OpRemoveDocument docA;
                  OpGC]).
  { repeat constructor; exact Hseg. }
  split; [split; [exact H0|exact H1]|].
  exact (@dedup_preserved _ (initWorld New) H0 H1).
Defined.

(** C2, counterexample.  A sort that meets the contract of [sort.Slice]
    returns two chunks of equal score in the reverse of their order in the
    store.  A chunk whose embedding is the zero vector has the score NaN,
    which compares false with everything: insertion sort then leaves a
    chunk of score 0.707... before one of score 1.  A chunk without
    embedding makes the call panic. *)
Lemma SimilarChunks_order_counterexamples :
  (sort_contract reversingSort
   /\ Chunks storeTie = [first; second]
   /\ Similarity unit0 (Embedding first) = Similarity unit0 (Embedding second)
   /\ SimilarChunks reversingSort storeTie unit0 0 = Ok [second; first])
  /\ (sort_contract (@insertionSort)
      /\ SimilarChunks (@insertionSort) storeZero unit0 0
         = Ok [low; zero; high]
      /\ exists s1 s2 s3,
           Similarity unit0 (Embedding low) = Ok s1
           /\ Similarity unit0 (Embedding zero) = Ok s2
           /\ Similarity unit0 (Embedding high) = Ok s3
           /\ is_nan s2 = true
           /\ (s1 <? s3)%float = true)
  /\ SimilarChunks (@insertionSort) storeBare unit0 0 = Panic.
Proof.
  split; [|split].
  - split; [exact reversingSort_contract|].
    split; [reflexivity|].
    split; vm_compute; reflexivity.
  - split; [exact insertionSort_contract|].
    split; [vm_compute; reflexivity|].
    eexists _, _, _.
    split; [vm_compute; reflexivity|].
    split; [vm_compute; reflexivity|].
    split; [vm_compute; reflexivity|].
    split; vm_compute; reflexivity.
  - vm_compute; reflexivity.
Qed.

(** The three chunks of [store4000], of scores 1, 0.707... and 0 for the
    query. *)
Lemma SimilarChunks_ranking_witness :
  (sort_contract (@insertionSort)
   /\ Forall (fun c => length unit0 <= length (Embedding c)) (Chunks store4000))
  /\ exists ranked : list Sim,
       Forall (fun s => Similarity unit0 (Embedding (chunk s)) = Ok (score s))
              ranked
       /\ Permutation (Chunks store4000) (map chunk ranked)
       /\ StronglySorted (fun x y => (score y <=? score x)%float = true) ranked
       /\ SimilarChunks (@insertionSort) store4000 unit0 0
          = Ok (map chunk ranked)
       /\ forall N, (0 < N <= Z.of_nat (length (Chunks store4000)))%Z ->
            SimilarChunks (@insertionSort) store4000 unit0 N
            = Ok (map chunk (firstn (Z.to_nat N) ranked))
            /\ length (firstn (Z.to_nat N) ranked) = Z.to_nat N
            /\ forall x y,
                 In x (firstn (Z.to_nat N) ranked) ->
                 In y (skipn (Z.to_nat N) ranked) ->
                 (score y <=? score x)%float = true.
Proof.
  assert (Hdim : Forall (fun c => length unit0 <= length (Embedding c))
                   (Chunks store4000))
    by (repeat constructor).
  split; [split; [exact insertionSort_contract|exact Hdim]|].
  apply (@SimilarChunks_ranking (@insertionSort) store4000 unit0
           insertionSort_contract Hdim).
  intros c s [<-|[<-|[<-|[]]]] H; vm_compute in H;
    injection H as <-; reflexivity.
Defined.

(** C10, counterexample.  A chunk whose embedding is shorter than the
    query embedding makes [Similarity] read past its end: the call
    panics. *)
Lemma SimilarChunks_short_embedding_panics :
  (Z.of_nat (length (Chunks storeBare)) < 5)%Z
  /\ SimilarChunks (@insertionSort) storeBare unit0 5 = Panic.
Proof. split; [reflexivity|vm_compute; reflexivity]. Qed.

(** [K = 7] on the three chunks of [store4000], and the empty store. *)
Lemma SimilarChunks_large_K_witness :
  (sort_contract (@insertionSort)
   /\ Forall (fun c => length unit0 <= length (Embedding c)) (Chunks store4000)
   /\ (Z.of_nat (length (Chunks store4000)) < 7)%Z
   /\ Chunks New = [])
  /\ (exists ranked,
        SimilarChunks (@insertionSort) store4000 unit0 7 = Ok ranked
        /\ Permutation (Chunks store4000) ranked
        /\ SimilarChunks (@insertionSort) store4000 unit0
             (Z.of_nat (length (Chunks store4000))) = Ok ranked
        /\ SimilarChunks (@insertionSort) store4000 unit0 0 = Ok ranked)
  /\ (forall K, SimilarChunks (@insertionSort) New unit0 K = Ok []).
Proof.
  assert (Hdim : Forall (fun c => length unit0 <= length (Embedding c))
                   (Chunks store4000))
    by (repeat constructor).
  assert (HK : (Z.of_nat (length (Chunks store4000)) < 7)%Z)
    by reflexivity.
  split;
    [exact (conj insertionSort_contract (conj Hdim (conj HK eq_refl)))|].
  split.
  - exact (proj1 (@SimilarChunks_large_K (@insertionSort) store4000 unit0
                    insertionSort_contract) Hdim 7%Z HK).
  - exact (proj2 (@SimilarChunks_large_K (@insertionSort) New unit0
                    insertionSort_contract) eq_refl).
Defined.

(** The log of the requests for 250 texts, computed. *)
Example CreateEmbeddings_250 :
  let '(r, w) := CreateEmbeddings envByLength (numbered 250) (initWorld New) in
  r = Ok (map byLength (numbered 250))
  /\ map (@length string) (embeddingLog w) = [100; 100; 50].
Proof. vm_compute. split; reflexivity. Qed.

(** * Further properties of the chunk store *)

(** ** Chunker *)

Lemma Split_from_nonempty sep k s : Split_from sep k s <> [].
Proof.
  revert k. induction s as [|c s IH]; intros k; cbn [Split_from];
    [intros H; discriminate H|].
  destruct k as [|k]; [|apply IH].
  destruct (prefix sep (String c s)); [intros H; discriminate H|].
  destruct (Split_from sep 0 s); intros H; discriminate H.
Qed.

Lemma Split_from_skip sep k s :
  k <= String.length s ->
  Split_from sep k s = Split_from sep 0 (drop k s).
Proof.
  revert s. induction k as [|k IH]; intros s Hk.
  - rewrite drop_0. reflexivity.
  - destruct s as [|c s]; simpl in Hk; [lia|].
    simpl. rewrite IH by lia. unfold drop. simpl. reflexivity.
Qed.

Lemma concat_cons sep x l :
  l <> [] ->
  String.concat sep (x :: l) = (x ++ sep ++ String.concat sep l)%string.
Proof. destruct l; [congruence|reflexivity]. Qed.

Lemma prefix_split sep s :
  prefix sep s = true ->
  String.length sep <= String.length s
  /\ (sep ++ drop (String.length sep) s)%string = s.
Proof.
  intros H. apply prefix_correct in H.
  assert (Hl : String.length sep <= String.length s).
  { rewrite <- H at 1. rewrite substring_length. lia. }
  split; [exact Hl|].
  rewrite <- H at 1. apply (@take_drop (String.length sep) s Hl).
Qed.

Lemma Split_join_aux sep n :
  sep <> EmptyString ->
  forall s, String.length s <= n ->
            String.concat sep (Split_from sep 0 s) = s.
Proof.
  intros Hsep. induction n as [|n IH]; intros s Hn.
  - destruct s; simpl in Hn; [reflexivity|lia].
  - destruct s as [|c s]; [reflexivity|].
    cbn [Split_from].
    destruct (prefix sep (String c s)) eqn:E.
    + destruct (prefix_split _ _ E) as [Hl Hs].
      assert (Hpos : 0 < String.length sep)
        by (destruct sep; [congruence|simpl; lia]).
      rewrite Split_from_skip by (simpl in Hl; lia).
      rewrite concat_cons by apply Split_from_nonempty.
      assert (Hd : drop (String.length sep - 1) s
                   = drop (String.length sep) (String c s)).
      { unfold drop. destruct (String.length sep) as [|m]; [lia|].
        simpl. rewrite Nat.sub_0_r. reflexivity. }
      rewrite Hd, IH.
      * simpl. exact Hs.
      * unfold drop. rewrite substring_length.
        change (String.length (String c s)) with (S (String.length s)) in *.
        lia.
    + simpl in Hn. specialize (IH s ltac:(lia)).
      pose proof (@Split_from_nonempty sep 0 s) as Hne.
      destruct (Split_from sep 0 s) as [|p ps]; [congruence|].
      destruct ps as [|q ps]; simpl in *; congruence.
Qed.

(** Joining the pieces of [strings.Split] with the separator gives the
    string back. *)
Lemma Split_join s sep :
  sep <> EmptyString -> String.concat sep (Split s sep) = s.
Proof. intros H. eapply Split_join_aux; eauto. Qed.

Lemma chunkParagraph_short fuel m p :
  (strlen p <= m)%Z -> String.length p <= fuel ->
  chunkParagraph fuel m p = if (p =? "")%string then Ok [] else Ok [p].
Proof.
  intros Hm Hf. destruct p as [|c p].
  - destruct fuel; reflexivity.
  - destruct fuel as [|fuel]; simpl in Hf; [lia|].
    simpl. assert (E : (strlen (String c p) >? m)%Z = false).
    { rewrite Z.gtb_ltb. apply Z.ltb_ge. exact Hm. }
    rewrite E. reflexivity.
Qed.

Lemma chunkParagraphs_contract m :
  (0 < m)%Z ->
  forall ps,
    exists c,
      chunkParagraphs m ps = Ok c
      /\ Forall (fun x => (0 < strlen x <= m)%Z) c
      /\ fold_right String.append EmptyString c
         = fold_right String.append EmptyString ps
      /\ (Forall (fun p => (strlen p <= m)%Z) ps ->
          c = filter (fun p => negb (p =? "")%string) ps).
Proof.
  intros Hm. induction ps as [|p ps IH]; simpl.
  - exists []. repeat split; auto.
  - destruct (@chunkParagraph_ok (String.length p) m Hm p (le_n _))
      as (c1 & H1 & Hcat1 & Hall1).
    destruct IH as (c2 & H2 & Hall2 & Hcat2 & Hshort2).
    rewrite H1, H2. simpl. exists (c1 ++ c2).
    split; [reflexivity|]. split; [apply Forall_app; auto|]. split.
    + rewrite fold_right_app, <- Hcat2, <- Hcat1.
      clear. induction c1 as [|x c1 IH]; simpl; [reflexivity|].
      rewrite IH, append_assoc. reflexivity.
    + intros Hs. apply Forall_cons_iff in Hs. destruct Hs as [Hp Hps].
      rewrite (Hshort2 Hps).
      rewrite (@chunkParagraph_short (String.length p) m p Hp (le_n _)) in H1.
      destruct (p =? "")%string; injection H1 as <-; reflexivity.
Qed.

Lemma chunkParagraphs_nonpositive m :
  (m <= 0)%Z ->
  forall ps,
    chunkParagraphs m ps
    = if forallb (fun p => (p =? "")%string) ps then Ok []
      else if (m <? 0)%Z then Panic else OutOfFuel.
Proof.
  intros Hm. induction ps as [|p ps IH]; simpl; [reflexivity|].
  destruct p as [|c p].
  - simpl. rewrite IH. destruct (forallb _ ps); [reflexivity|].
    destruct (m <? 0)%Z; reflexivity.
  - simpl (String c p =? "")%string. cbn [andb].
    destruct (Z.ltb_spec m 0) as [Hneg|Hz].
    + rewrite chunkParagraph_negative; simpl; auto; try lia.
      intros H; discriminate H.
    + assert (m = 0%Z) by lia. subst m.
      rewrite chunkParagraph_zero by (intros H; discriminate H).
      reflexivity.
Qed.

Lemma chunkParagraph_no_error fuel m p e : chunkParagraph fuel m p <> Err e.
Proof.
  revert p. induction fuel as [|fuel IH]; intros p; simpl.
  - destruct (String.length p =? 0); intros H; discriminate H.
  - destruct (String.length p =? 0); [intros H; discriminate H|].
    destruct (strlen p >? m)%Z; [|intros H; discriminate H].
    destruct (m <? 0)%Z; [intros H; discriminate H|].
    specialize (IH (drop (Z.to_nat m) p)).
    destruct (chunkParagraph fuel m (drop (Z.to_nat m) p)); simpl;
      congruence.
Qed.

Lemma chunkParagraphs_no_error m ps e : chunkParagraphs m ps <> Err e.
Proof.
  induction ps as [|p ps IH]; simpl; [intros H; discriminate H|].
  pose proof (@chunkParagraph_no_error (String.length p) m p e) as H.
  destruct (chunkParagraph (String.length p) m p); simpl; try congruence.
  destruct (chunkParagraphs m ps); simpl; congruence.
Qed.

(** X1.  With a positive [MaxChunkSize] the chunker of [chunkStrings]
    returns, and loses nothing but the paragraph separators: the
    paragraphs joined by a blank line are the text of the file, every
    chunk has between 1 and [MaxChunkSize] bytes, the chunks put end to end
    are the paragraphs put end to end, and when no paragraph is longer
    than [MaxChunkSize] the chunks are the paragraphs that are not
    empty. *)
Theorem chunkText_contract (maxChunkSize : Z) (txt : string) :
  (0 < maxChunkSize)%Z ->
  let paragraphs := Split txt sep2 in
  String.concat sep2 paragraphs = txt
  /\ exists c,
       chunkText maxChunkSize txt = Ok c
       /\ Forall (fun x => (0 < strlen x <= maxChunkSize)%Z) c
       /\ fold_right String.append EmptyString c
          = fold_right String.append EmptyString paragraphs
       /\ (Forall (fun p => (strlen p <= maxChunkSize)%Z) paragraphs ->
           c = filter (fun p => negb (p =? "")%string) paragraphs).
Proof.
  intros Hm. cbv zeta. split.
  - apply Split_join. intros H; discriminate H.
  - apply chunkParagraphs_contract. exact Hm.
Qed.

(** A paragraph of five bytes and one of one byte, cut at two bytes. *)
Lemma chunkText_contract_witness :
  (0 < 2)%Z
  /\ String.concat sep2 (Split long sep2) = long
  /\ exists c,
       chunkText 2 long = Ok c
       /\ Forall (fun x => (0 < strlen x <= 2)%Z) c
       /\ fold_right String.append EmptyString c
          = fold_right String.append EmptyString (Split long sep2)
       /\ (Forall (fun p => (strlen p <= 2)%Z) (Split long sep2) ->
           c = filter (fun p => negb (p =? "")%string) (Split long sep2)).
Proof.
  assert (H : (0 < 2)%Z) by lia.
  exact (conj H (@chunkText_contract 2 long H)).
Defined.

(** X2.  With a [MaxChunkSize] that is not positive the chunker returns
    only for a file without text (every paragraph empty, no chunk): on any
    other file a negative size makes [paragraph[:MaxChunkSize]] panic, and
    size 0 makes the inner loop run for ever, since no round shortens the
    paragraph (whatever the number of rounds allowed, the loop has not
    ended). *)
Theorem chunkText_nonpositive (maxChunkSize : Z) (txt : string) :
  (maxChunkSize <= 0)%Z ->
  chunkText maxChunkSize txt
  = (if forallb (fun p => (p =? "")%string) (Split txt sep2) then Ok []
     else if (maxChunkSize <? 0)%Z then Panic else OutOfFuel)
  /\ (maxChunkSize = 0%Z ->
      forall fuel paragraph,
        paragraph <> EmptyString ->
        chunkParagraph fuel maxChunkSize paragraph = OutOfFuel).
Proof.
  intros H. split; [apply chunkParagraphs_nonpositive; exact H|].
  intros -> fuel paragraph Hp. apply chunkParagraph_zero. exact Hp.
Qed.

(** Size 0 and size -1 on a file of two paragraphs. *)
Lemma chunkText_nonpositive_witness :
  ((0 <= 0)%Z /\ (-1 <= 0)%Z)
  /\ chunkText 0 plain = OutOfFuel
  /\ chunkText (-1) plain = Panic
  /\ chunkText 0 EmptyString = Ok [].
Proof.
  assert (H0 : (0 <= 0)%Z) by lia.
  assert (H1 : (-1 <= 0)%Z) by lia.
  split; [exact (conj H0 H1)|].
  split; [exact (proj1 (@chunkText_nonpositive 0 plain H0))|].
  split; [exact (proj1 (@chunkText_nonpositive (-1) plain H1))|].
  exact (proj1 (@chunkText_nonpositive 0 EmptyString H0)).
Defined.

(** ** Embedding client *)

Lemma CreateEmbeddings_loop_any api texts fuel :
  forall i embeddings log,
    length texts - i <= fuel ->
    exists requests r rest,
      batchRun api requests r
      /\ CreateEmbeddings_loop api texts i embeddings log
         = (match r with Ok e => Ok (embeddings ++ e) | _ => r end,
            log ++ requests)
      /\ skipn i texts = concat requests ++ rest
      /\ Forall (fun input => 0 < length input <= 100) requests
      /\ (forall e, r = Ok e -> rest = []).
Proof.
  induction fuel as [|fuel IH]; intros i embeddings log Hfuel;
    rewrite CreateEmbeddings_loop_step.
  - assert (E : (i <? length texts) = false) by (apply Nat.ltb_ge; lia).
    rewrite E. exists [], (Ok []), []. rewrite skipn_all2 by lia.
    rewrite !app_nil_r. repeat split; auto. constructor.
  - destruct (i <? length texts) eqn:E.
    + apply Nat.ltb_lt in E. cbv zeta.
      set (m := Nat.min (i + 100) (length texts) - i).
      set (input := firstn m (skipn i texts)).
      assert (Hlen : length input = m).
      { unfold input. rewrite length_firstn, length_skipn. lia. }
      assert (Hrest : skipn (i + 100) texts = skipn m (skipn i texts)).
      { rewrite skipn_skipn.
        destruct (le_lt_dec 100 (length texts - i)).
        - f_equal; lia.
        - rewrite !skipn_all2 by lia. reflexivity. }
      destruct (api input) as [data|] eqn:Eapi.
      * destruct (IH (i + 100) (embeddings ++ data) (log ++ [input]))
          as (reqs & r & rest & Hrun & Heq & Hcat & Hall & Hok); [lia|].
        exists (input :: reqs),
          (match r with Ok e => Ok (data ++ e) | _ => r end), rest.
        split; [constructor; assumption|].
        split.
        { rewrite Heq, <- !app_assoc. simpl.
          destruct r; try reflexivity. rewrite <- app_assoc. reflexivity. }
        split.
        { simpl. rewrite <- app_assoc, <- Hcat, Hrest. unfold input.
          symmetry. apply firstn_skipn. }
        split; [constructor; [lia|exact Hall]|].
        intros e He. destruct r; try discriminate. eapply Hok; reflexivity.
      * exists [input], (Err EEmbedding), (skipn m (skipn i texts)).
        split; [constructor; assumption|].
        split; [reflexivity|].
        split.
        { simpl. rewrite app_nil_r. unfold input. symmetry.
          apply firstn_skipn. }
        split; [constructor; [lia|constructor]|].
        intros e He; discriminate He.
    + apply Nat.ltb_ge in E. exists [], (Ok []), [].
      rewrite skipn_all2 by lia. rewrite !app_nil_r.
      repeat split; auto. constructor.
Qed.

Lemma batchRun_spec api requests r :
  batchRun api requests r ->
  match r with
  | Ok embeddings =>
      exists answers,
        map api requests = map Some answers /\ embeddings = concat answers
  | Err e =>
      e = EEmbedding
      /\ exists sent input,
           requests = sent ++ [input] /\ api input = None
           /\ Forall (fun q => api q <> None) sent
  | Panic => False
  | OutOfFuel => False
  end.
Proof.
  induction 1 as [|input Hin|input data requests r Hin Hrun IH].
  - exists []. split; reflexivity.
  - split; [reflexivity|]. exists [], input. repeat split; auto.
  - destruct r as [e|e| |]; try contradiction.
    + destruct IH as (answers & Hmap & ->).
      exists (data :: answers). simpl. rewrite Hin, Hmap. split; reflexivity.
    + destruct IH as (-> & sent & last & -> & Hlast & Hsent).
      split; [reflexivity|]. exists (input :: sent), last.
      repeat split; auto. constructor; [congruence|exact Hsent].
Qed.

(** What a refused request leaves behind. *)
Lemma CreateEmbeddings_error env texts w e :
  run (CreateEmbeddings env texts) w = Err e ->
  e = EEmbedding
  /\ exists sent input,
       embeddingLog (exec (CreateEmbeddings env texts) w)
       = embeddingLog w ++ sent ++ [input]
       /\ embeddingAPI env input = None.
Proof.
  unfold run, exec, CreateEmbeddings.
  destruct (@CreateEmbeddings_loop_any (embeddingAPI env) texts (length texts)
              0 [] (embeddingLog w))
    as (reqs & r & rest & Hrun & Heq & _); [lia|].
  rewrite Heq. simpl. pose proof (batchRun_spec Hrun) as Hs.
  destruct r as [x|e'| |]; simpl; intros H; try discriminate H.
  injection H as <-.
  destruct Hs as (-> & sent & input & -> & Hin & _).
  split; [reflexivity|]. exists sent, input. split; [reflexivity|exact Hin].
Qed.

(** X3.  [CreateEmbeddings], called directly, whatever the service
    answers.  It touches neither the store nor the chat log, and the
    requests it sends are successive slices of the texts, each of 1 to
    100 texts.  It returns only when every text was sent and every
    request answered, and then the embeddings are the answers put end to
    end.  The method has no [defer Return(&err)]: at the first request
    the service refuses, [Ck(err)] makes it panic with the embedding
    error, and nothing more is sent; it is its callers [UpdateDocument]
    and [FindChunks] that recover this panic and return the error.  It
    has no panic at run time (index out of range) and always ends. *)
Theorem CreateEmbeddings_all_or_error
  (env : Env) (texts : list string) (w : World) :
  let r := noDefer (run (CreateEmbeddings env texts) w) in
  let w' := exec (CreateEmbeddings env texts) w in
  store w' = store w
  /\ chatLog w' = chatLog w
  /\ exists requests rest,
       embeddingLog w' = embeddingLog w ++ requests
       /\ texts = concat requests ++ rest
       /\ Forall (fun input => 0 < length input <= 100) requests
       /\ match r with
          | Returns embeddings =>
              rest = []
              /\ exists answers,
                   map (embeddingAPI env) requests = map Some answers
                   /\ embeddings = concat answers
          | PanicsWithError e =>
              e = EEmbedding
              /\ exists sent input,
                   requests = sent ++ [input]
                   /\ embeddingAPI env input = None
                   /\ Forall (fun q => embeddingAPI env q <> None) sent
          | PanicsAtRuntime => False
          | RunsForever => False
          end.
Proof.
  cbv zeta. unfold run, exec, CreateEmbeddings.
  destruct (@CreateEmbeddings_loop_any (embeddingAPI env) texts (length texts)
              0 [] (embeddingLog w))
    as (reqs & r & rest & Hrun & Heq & Hcat & Hall & Hok); [lia|].
  rewrite Heq. simpl.
  split; [reflexivity|]. split; [reflexivity|].
  exists reqs, rest. split; [reflexivity|]. split; [exact Hcat|].
  split; [exact Hall|].
  pose proof (batchRun_spec Hrun) as Hs.
  destruct r as [e|e| |]; simpl; try contradiction.
  - split; [eapply Hok; reflexivity|exact Hs].
  - exact Hs.
Qed.

(** ** Documents *)

Lemma appendChunks_outcome doc texts :
  forall i embeddings w,
    run (appendChunks doc texts i embeddings) w = Ok tt
    \/ run (appendChunks doc texts i embeddings) w = Panic.
Proof.
  induction texts as [|t texts IH]; intros i embeddings w; simpl.
  - left; reflexivity.
  - destruct (nth_error embeddings i) as [e|]; [|right; reflexivity].
    unfold run, bind, modifyStore; simpl. apply IH.
Qed.

(** X4.  [UpdateDocument] commits nothing when it returns an error: the
    store and the chat log are as before the call, and the error is
    either that the file could not be read, and then no request was
    sent, or that the embedding service refused a request, the last one
    sent. *)
Theorem UpdateDocument_error_leaves_store
  (env : Env) (doc : Document) (w : World) (e : error) :
  run (UpdateDocument env doc) w = Err e ->
  let w' := exec (UpdateDocument env doc) w in
  store w' = store w
  /\ chatLog w' = chatLog w
  /\ ((e = EReadFile /\ readFile env (Path doc) = None
       /\ embeddingLog w' = embeddingLog w)
      \/ (e = EEmbedding
          /\ exists sent input,
               embeddingLog w' = embeddingLog w ++ sent ++ [input]
               /\ embeddingAPI env input = None)).
Proof.
  cbv zeta. unfold run, exec, UpdateDocument, bind, getStore, lift.
  unfold chunkStrings.
  destruct (readFile env (Path doc)) as [txt|] eqn:Er; simpl.
  2:{ intros H. injection H as <-. repeat split; auto. }
  destruct (chunkText (MaxChunkSize (store w)) txt) as [cs|e'| |] eqn:Ec;
    simpl; try (intros H; discriminate H).
  2:{ exfalso. unfold chunkText in Ec.
      exact (@chunkParagraphs_no_error _ _ e' Ec). }
  destruct (diffChunks_spec cs (chunksOfPath (Path doc) (Chunks (store w)))
              false []) as [left ->].
  simpl.
  set (news := newStrings cs (chunksOfPath (Path doc) (Chunks (store w)))).
  pose proof (@CreateEmbeddings_error env news w) as Hc.
  pose proof (CreateEmbeddings_frame env news w) as [Hst Hcl].
  unfold run, exec in Hc, Hst, Hcl.
  destruct (CreateEmbeddings env news w) as [[embeddings|e1| |] w1];
    simpl in *.
  - pose proof (appendChunks_outcome doc news 0 embeddings w1) as Ha.
    unfold run in Ha.
    destruct (appendChunks doc news 0 embeddings w1) as [[[]|e2| |] w2];
      simpl in *; intros H; try discriminate H;
      destruct Ha as [Ha|Ha]; discriminate Ha.
  - intros H. injection H as <-.
    destruct (Hc e1 eq_refl) as (-> & sent & input & Hlog & Hin).
    split; [exact Hst|]. split; [exact Hcl|]. right.
    split; [reflexivity|]. exists sent, input. split; assumption.
  - intros H; discriminate H.
  - intros H; discriminate H.
Qed.

(** The embedding service is down while [a.txt] is updated. *)
Lemma UpdateDocument_error_leaves_store_witness :
  run (UpdateDocument envDown docA) (initWorld storeAB) = Err EEmbedding
  /\ store (exec (UpdateDocument envDown docA) (initWorld storeAB)) = storeAB.
Proof.
  assert (H : run (UpdateDocument envDown docA) (initWorld storeAB)
              = Err EEmbedding) by (vm_compute; reflexivity).
  split; [exact H|].
  exact (proj1 (@UpdateDocument_error_leaves_store envDown docA
                  (initWorld storeAB) EEmbedding H)).
Defined.

Lemma chunksOfPath_app path l1 l2 :
  chunksOfPath path (l1 ++ l2) = chunksOfPath path l1 ++ chunksOfPath path l2.
Proof. unfold chunksOfPath. apply filter_app. Qed.

Lemma chunksOfPath_GC docs path chunks :
  In path (map Path docs) ->
  chunksOfPath path (filter (referenced docs) chunks)
  = chunksOfPath path chunks.
Proof.
  intros Hin. induction chunks as [|c chunks IH]; simpl; [reflexivity|].
  destruct (referenced docs c) eqn:E; simpl; [rewrite IH; reflexivity|].
  destruct (Path (ChunkDocument c) =? path)%string eqn:Ep; [|exact IH].
  exfalso. apply String.eqb_eq in Ep.
  apply in_map_iff in Hin. destruct Hin as (d & Hd & Hin).
  assert (referenced docs c = true).
  { apply referenced_spec. exists d. split; [exact Hin|]. congruence. }
  congruence.
Qed.

Lemma referenced_own docs doc added :
  In (Path doc) (map Path docs) ->
  Forall (fun c => ChunkDocument c = doc) added ->
  filter (referenced docs) added = added.
Proof.
  intros Hin Hall. induction Hall as [|c added Hc Hall IH]; [reflexivity|].
  simpl. rewrite IH.
  assert (E : referenced docs c = true).
  { apply referenced_spec. apply in_map_iff in Hin.
    destruct Hin as (d & Hd & Hin). exists d. split; [exact Hin|].
    congruence. }
  rewrite E. reflexivity.
Qed.

(** X5.  Chunks are never replaced: after [UpdateDocument] of a
    registered document followed by [GC], every chunk the document had is
    still there, those whose text is no longer in the file too; the
    chunks of the new chunk strings come after them, and the other chunks
    are those [GC] keeps. *)
Theorem UpdateDocument_GC_keeps_stale_chunks
  (env : Env) (doc : Document) (w : World) :
  In (Path doc) (map Path (elems (Documents (store w)))) ->
  let docs := elems (Documents (store w)) in
  let w' := exec GC (exec (UpdateDocument env doc) w) in
  exists added,
    Chunks (store w')
    = filter (referenced docs) (Chunks (store w)) ++ added
    /\ chunksOfPath (Path doc) (Chunks (store w'))
       = chunksOfPath (Path doc) (Chunks (store w)) ++ added
    /\ Forall (fun c => ChunkDocument c = doc) added
    /\ Documents (store w') = Documents (store w).
Proof.
  intros Hin. cbv zeta.
  destruct (UpdateDocument_effect env doc w)
    as (added & Hch & (_ & Hdocs & _) & _ & Hdoc & _).
  cbv zeta in Hch, Hdocs.
  exists added.
  assert (Hc : Chunks (store (exec GC (exec (UpdateDocument env doc) w)))
               = filter (referenced (elems (Documents (store w))))
                   (Chunks (store w)) ++ added).
  { unfold exec at 1, GC, modifyStore; simpl.
    rewrite Hch, Hdocs, filter_app.
    rewrite (@referenced_own _ _ _ Hin Hdoc). reflexivity. }
  split; [exact Hc|]. split.
  - rewrite Hc, chunksOfPath_app, (@chunksOfPath_GC _ _ _ Hin),
      (chunksOfPath_own Hdoc). reflexivity.
  - split; [exact Hdoc|]. unfold exec at 1, GC, modifyStore; simpl.
    exact Hdocs.
Qed.

(** The file of [a.txt] now reads "a", blank line, "b": the chunks
    "alpha" and "gamma" stay. *)
Lemma UpdateDocument_GC_keeps_stale_chunks_witness :
  In (Path docA) (map Path (elems (Documents (store (initWorld storeAB)))))
  /\ exists added,
       chunksOfPath (Path docA)
         (Chunks (store (exec GC (exec (UpdateDocument envPlain docA)
                                    (initWorld storeAB)))))
       = [mkChunk docA "alpha" unit0; mkChunk docA "gamma" unit0] ++ added.
Proof.
  assert (H : In (Path docA)
                (map Path (elems (Documents (store (initWorld storeAB))))))
    by (left; reflexivity).
  split; [exact H|].
  destruct (@UpdateDocument_GC_keeps_stale_chunks envPlain docA
              (initWorld storeAB) H) as (added & _ & Hc & _).
  exists added. exact Hc.
Defined.

(** X6.  [AddDocument] registers a path once: after the call the document
    list is the old one when the path was in it, and the old one followed
    by the new document when it was not, whether or not the call returned
    an error; a second call for the same path leaves the list as the
    first one left it. *)
Theorem AddDocument_registers_once
  (env env' : Env) (path : string) (w : World) :
  let docs := elems (Documents (store w)) in
  let w1 := exec (AddDocument env path) w in
  let docs1 := elems (Documents (store w1)) in
  ((In path (map Path docs) /\ docs1 = docs)
   \/ (~ In path (map Path docs) /\ docs1 = docs ++ [mkDocument path]))
  /\ elems (Documents (store (exec (AddDocument env' path) w1))) = docs1.
Proof.
  cbv zeta.
  assert (Hex : forall l,
             existsb (fun d => (Path d =? path)%string) l = true
             <-> In path (map Path l)).
  { intros l. rewrite existsb_exists, in_map_iff.
    split; intros (d & H1 & H2); exists d.
    - apply String.eqb_eq in H2. auto.
    - split; [exact H2|]. apply String.eqb_eq; exact H1. }
  rewrite (AddDocument_documents env' path), (AddDocument_documents env path).
  destruct (existsb _ (elems (Documents (store w)))) eqn:E.
  - split; [left; split; [apply Hex; exact E|reflexivity]|].
    rewrite E. reflexivity.
  - split.
    + right. split; [|reflexivity]. intros H. apply Hex in H. congruence.
    + assert (E' : existsb (fun d => (Path d =? path)%string)
                     (elems (Documents (store w)) ++ [mkDocument path])
                   = true).
      { apply Hex. rewrite map_app. apply in_or_app. right. left.
        reflexivity. }
      rewrite E'. reflexivity.
Qed.

(** X7.  [AddDocument] of a file that cannot be read returns the read
    error and still leaves the document registered; no chunk is added and
    no request sent. *)
Theorem AddDocument_unreadable (env : Env) (path : string) (w : World) :
  readFile env path = None ->
  let w' := exec (AddDocument env path) w in
  run (AddDocument env path) w = Err EReadFile
  /\ In (mkDocument path) (elems (Documents (store w')))
  /\ Chunks (store w') = Chunks (store w)
  /\ embeddingLog w' = embeddingLog w.
Proof.
  intros Hr. cbv zeta.
  assert (Hu : forall w0, UpdateDocument env (mkDocument path) w0
                          = (Err EReadFile, w0)).
  { intros w0. unfold UpdateDocument, bind, getStore, lift, chunkStrings.
    simpl. rewrite Hr. reflexivity. }
  unfold run, exec, AddDocument, bind, getStore. simpl.
  destruct (existsb _ (elems (Documents (store w)))) eqn:E.
  - unfold ret. rewrite Hu. simpl. repeat split; auto.
    apply existsb_exists in E. destruct E as (d & Hin & Hd).
    apply String.eqb_eq in Hd. destruct d as [p]. simpl in Hd. subst p.
    exact Hin.
  - unfold modifyStore. rewrite Hu. simpl. repeat split; auto.
    rewrite elems_append. apply in_or_app. right. left. reflexivity.
Qed.

(** A new store and a file that cannot be read. *)
Lemma AddDocument_unreadable_witness :
  readFile envUnreadable "a.txt" = None
  /\ run (AddDocument envUnreadable "a.txt") (initWorld New) = Err EReadFile
  /\ In docA (elems (Documents (store (exec (AddDocument envUnreadable "a.txt")
                                         (initWorld New))))).
Proof.
  assert (H : readFile envUnreadable "a.txt" = None) by reflexivity.
  split; [exact H|].
  destruct (@AddDocument_unreadable envUnreadable "a.txt" (initWorld New) H)
    as (H1 & H2 & _).
  split; [exact H1|exact H2].
Defined.

Lemma newStrings_app_nil cs :
  forall old extra,
    newStrings cs old = [] -> newStrings cs (old ++ extra) = [].
Proof.
  induction cs as [|s rest IH]; intros old extra H; simpl in *;
    [reflexivity|].
  destruct (takeOld s old) as [old'|] eqn:E; [|discriminate H].
  rewrite (takeOld_app _ _ extra E). apply IH; exact H.
Qed.

(** A call of [UpdateDocument] that returns leaves the document
    settled. *)
Lemma UpdateDocument_settles env doc w updated :
  run (UpdateDocument env doc) w = Ok updated ->
  settled env (store (exec (UpdateDocument env doc) w)) doc.
Proof.
  intros Hrun.
  destruct (UpdateDocument_effect env doc w)
    as (added & Hch & (_ & _ & Hmax & _) & _ & Hdoc & _ & Hok).
  cbv zeta in Hch, Hmax.
  destruct (Hok updated Hrun) as (cs & Hcs & Hnew & _).
  exists cs. split.
  - unfold chunkStrings in *. rewrite Hmax. exact Hcs.
  - rewrite Hch, chunksOfPath_app, (chunksOfPath_own Hdoc).
    apply newStrings_after. exact Hnew.
Qed.

Lemma settled_more env g g' doc added :
  Chunks g' = Chunks g ++ added ->
  MaxChunkSize g' = MaxChunkSize g ->
  settled env g doc -> settled env g' doc.
Proof.
  intros Hch Hmax (cs & Hcs & Hnew). exists cs. split.
  - unfold chunkStrings in *. rewrite Hmax. exact Hcs.
  - rewrite Hch, chunksOfPath_app. apply newStrings_app_nil. exact Hnew.
Qed.

Lemma settled_GC env w doc :
  In (Path doc) (map Path (elems (Documents (store w)))) ->
  settled env (store w) doc -> settled env (store (exec GC w)) doc.
Proof.
  intros Hin (cs & Hcs & Hnew). exists cs. split; [exact Hcs|].
  unfold exec, GC, modifyStore; simpl.
  rewrite chunksOfPath_GC by exact Hin. exact Hnew.
Qed.

(** On a settled document [UpdateDocument] does nothing at all. *)
Lemma UpdateDocument_settled env env' doc w :
  settled env (store w) doc ->
  readFile env' (Path doc) = readFile env (Path doc) ->
  UpdateDocument env' doc w = (Ok false, w).
Proof.
  intros (cs & Hcs & Hnew) Hread.
  assert (Hcs' : chunkStrings env' (store w) doc = Ok cs).
  { unfold chunkStrings in *. rewrite Hread. exact Hcs. }
  unfold UpdateDocument, bind, getStore, lift. rewrite Hcs'.
  destruct (diffChunks_spec cs (chunksOfPath (Path doc) (Chunks (store w)))
              false []) as [left ->].
  rewrite Hnew. simpl. rewrite CreateEmbeddings_nil.
  destruct w; reflexivity.
Qed.

(** X8.  [AddDocument] again: after a call that returned without error,
    a second call for the same path, with the file unchanged, returns
    without error and changes nothing, neither the store nor the logs of
    requests. *)
Theorem AddDocument_again
  (env1 env2 : Env) (path : string) (w w1 : World) :
  AddDocument env1 path w = (Ok tt, w1) ->
  readFile env2 path = readFile env1 path ->
  AddDocument env2 path w1 = (Ok tt, w1).
Proof.
  intros Hfirst Hread.
  assert (Hreg : existsb (fun d => (Path d =? path)%string)
                   (elems (Documents (store w1))) = true).
  { pose proof (AddDocument_documents env1 path w) as Hd.
    unfold exec in Hd. rewrite Hfirst in Hd. simpl in Hd. rewrite Hd.
    destruct (existsb _ (elems (Documents (store w)))) eqn:E; [exact E|].
    rewrite existsb_app. simpl. rewrite String.eqb_refl.
    rewrite orb_true_r. reflexivity. }
  assert (Hset : settled env1 (store w1) (mkDocument path)).
  { unfold AddDocument, bind, getStore in Hfirst. simpl in Hfirst.
    destruct ((if existsb _ _ then ret tt else modifyStore _) w)
      as [r0 w0] eqn:E0.
    assert (r0 = Ok tt) by (destruct (existsb _ _); inversion E0; reflexivity).
    subst r0.
    pose proof (@UpdateDocument_settles env1 (mkDocument path) w0) as Hs.
    unfold run, exec in Hs.
    destruct (UpdateDocument env1 (mkDocument path) w0)
      as [[updated|e| |] w2]; try discriminate Hfirst.
    simpl in Hfirst. injection Hfirst as <-.
    exact (Hs updated eq_refl). }
  unfold AddDocument, bind, getStore. simpl. rewrite Hreg. unfold ret.
  rewrite (@UpdateDocument_settled env1 env2 (mkDocument path) w1 Hset Hread).
  reflexivity.
Qed.

(** [a.txt] added twice to a new store. *)
Lemma AddDocument_again_witness :
  let w1 := exec (AddDocument envPlain "a.txt") (initWorld New) in
  (AddDocument envPlain "a.txt") (initWorld New) = (Ok tt, w1)
  /\ AddDocument envPlain "a.txt" w1 = (Ok tt, w1).
Proof.
  cbv zeta.
  assert (H : (AddDocument envPlain "a.txt") (initWorld New)
              = (Ok tt, exec (AddDocument envPlain "a.txt") (initWorld New)))
    by (vm_compute; reflexivity).
  split; [exact H|].
  exact (@AddDocument_again envPlain envPlain "a.txt" (initWorld New) _
           H eq_refl).
Defined.

(** X9.  The paths of the document list stay pairwise distinct under any
    sequence of [AddDocument], [UpdateDocument], [RemoveDocument] and
    [GC], from any store where they are, whichever of the calls fail. *)
Theorem paths_stay_distinct (ops : list op) (w : World) :
  NoDup (map Path (elems (Documents (store w)))) ->
  NoDup (map Path (elems (Documents (store (runOps ops w))))).
Proof.
  revert w. induction ops as [|o ops IH]; intros w H; simpl; [exact H|].
  apply IH. apply step_paths_distinct. exact H.
Qed.

(** On the store of [a.txt] and [b.txt]: [a.txt] added again, [c.txt],
    which cannot be read, added, [b.txt] removed, [c.txt] added again. *)
Lemma paths_stay_distinct_witness :
  let ops := [OpAddDocument envPlain "a.txt";
              OpAddDocument envPlain "c.txt";
              OpRemoveDocument docB;
              OpAddDocument envPlain "c.txt"] in
  NoDup (map Path (elems (Documents (store (initWorld storeAB)))))
  /\ NoDup (map Path (elems (Documents
                               (store (runOps ops (initWorld storeAB)))))).
Proof.
  cbv zeta.
  assert (H : NoDup (map Path (elems (Documents
                                        (store (initWorld storeAB))))))
    by (repeat constructor; simpl; intuition discriminate).
  split; [exact H|].
  exact (@paths_stay_distinct _ (initWorld storeAB) H).
Defined.

(** ** Refreshing the store *)

Lemma removePath_onDisk env path docs :
  stat env path = StatNotExist ->
  filter (onDisk env) (removePath path docs) = filter (onDisk env) docs.
Proof.
  intros Hs. induction docs as [|d rest IH]; simpl; [reflexivity|].
  destruct (Path d =? path)%string eqn:E.
  - apply String.eqb_eq in E. unfold onDisk at 2. rewrite E, Hs. reflexivity.
  - simpl. rewrite IH. reflexivity.
Qed.

Lemma UpdateDocument_documents env doc w :
  Documents (store (exec (UpdateDocument env doc) w)) = Documents (store w).
Proof.
  destruct (UpdateDocument_effect env doc w) as (_ & _ & (_ & H & _) & _).
  exact H.
Qed.

Lemma rangeDocuments_onDisk env lastUpdate todo :
  forall i update w,
    let w' := exec (rangeDocuments env lastUpdate todo i update) w in
    filter (onDisk env) (elems (Documents (store w')))
    = filter (onDisk env) (elems (Documents (store w)))
    /\ incl (elems (Documents (store w'))) (elems (Documents (store w))).
Proof.
  induction todo as [|todo IH]; intros i update w; cbv zeta; simpl.
  - split; [reflexivity|apply incl_refl].
  - unfold exec, bind, getStore; simpl.
    destruct (nth_error (array (Documents (store w))) i) as [doc|];
      [|split; [reflexivity|apply incl_refl]].
    destruct (stat env (Path doc)) as [modTime| |] eqn:Es.
    + destruct (modTime >? lastUpdate)%Z.
      * pose proof (UpdateDocument_documents env doc w) as Hd.
        unfold exec in Hd.
        destruct (UpdateDocument env doc w) as [[updated|e| |] w1];
          simpl in *; rewrite <- Hd;
          try (split; [reflexivity|apply incl_refl]).
        apply IH.
      * apply IH.
    + pose proof (RemoveDocument_elems doc w) as Hr.
      unfold exec in Hr.
      destruct (RemoveDocument doc w) as [[[]|e| |] w1] eqn:Erem;
        simpl in *;
        try (unfold RemoveDocument, modifyStore in Erem; discriminate).
      destruct (IH (S i) true w1) as [H1 H2]. cbv zeta in H1, H2.
      unfold exec in H1, H2.
      unfold RemoveDocument, modifyStore in Erem. injection Erem as Ew.
      rewrite Ew. split.
      * rewrite H1, Hr. apply removePath_onDisk; exact Es.
      * eapply incl_tran; [exact H2|]. rewrite Hr.
        intros d Hd. eapply removePath_incl; exact Hd.
    + split; [reflexivity|apply incl_refl].
Qed.

(** X10.  [UpdateEmbeddings] never drops a document whose file is there:
    the documents for which [os.Stat] does not answer "not exist" are the
    same, in the same order, after the call as before, whatever the call
    returns; and the call registers no document. *)
Theorem UpdateEmbeddings_keeps_documents_on_disk
  (env : Env) (grokfn : string) (w : World) :
  let w' := exec (UpdateEmbeddings env grokfn) w in
  filter (onDisk env) (elems (Documents (store w')))
  = filter (onDisk env) (elems (Documents (store w)))
  /\ incl (elems (Documents (store w'))) (elems (Documents (store w))).
Proof.
  cbv zeta. unfold UpdateEmbeddings.
  destruct (stat env grokfn) as [lastUpdate| |];
    try (split; [reflexivity|apply incl_refl]).
  unfold exec, bind, getStore; simpl.
  destruct (rangeDocuments_onDisk env lastUpdate (len (Documents (store w)))
              0 false w) as [H1 H2].
  cbv zeta in H1, H2. unfold exec in H1, H2.
  destruct (rangeDocuments env lastUpdate (len (Documents (store w))) 0 false w)
    as [[update|e| |] w1]; simpl in *; auto.
Qed.

(** X11.  After a call of [UpdateEmbeddings] that returned without error
    every chunk of the store belongs to a registered document. *)
Theorem UpdateEmbeddings_leaves_no_orphan
  (env : Env) (grokfn : string) (w : World) (update : bool) :
  run (UpdateEmbeddings env grokfn) w = Ok update ->
  let w' := exec (UpdateEmbeddings env grokfn) w in
  forall c, In c (Chunks (store w')) ->
    exists d, In d (elems (Documents (store w')))
              /\ Path d = Path (ChunkDocument c).
Proof.
  unfold run, exec, UpdateEmbeddings.
  destruct (stat env grokfn) as [lastUpdate| |];
    try (intros H; discriminate H).
  unfold bind, getStore; simpl.
  destruct (rangeDocuments env lastUpdate (len (Documents (store w))) 0 false w)
    as [[u|e| |] w1]; simpl; try (intros H; discriminate H).
  intros _ c Hin. apply filter_In in Hin. destruct Hin as [_ Hin].
  apply referenced_spec in Hin. exact Hin.
Qed.

(** The store of three documents, two of them gone from the disk. *)
Lemma UpdateEmbeddings_leaves_no_orphan_witness :
  let w' := exec (UpdateEmbeddings envMissing ".grok") (initWorld storeABC) in
  run (UpdateEmbeddings envMissing ".grok") (initWorld storeABC) = Ok true
  /\ forall c, In c (Chunks (store w')) ->
       exists d, In d (elems (Documents (store w')))
                 /\ Path d = Path (ChunkDocument c).
Proof.
  cbv zeta.
  assert (H : run (UpdateEmbeddings envMissing ".grok") (initWorld storeABC)
              = Ok true) by (vm_compute; reflexivity).
  split; [exact H|].
  exact (@UpdateEmbeddings_leaves_no_orphan envMissing ".grok"
           (initWorld storeABC) true H).
Defined.

Lemma filter_idem {A} (f : A -> bool) l : filter f (filter f l) = filter f l.
Proof.
  induction l as [|a l IH]; simpl; [reflexivity|].
  destruct (f a) eqn:E; simpl; rewrite ?E, IH; reflexivity.
Qed.

Lemma GC_twice (w : World) : exec GC (exec GC w) = exec GC w.
Proof.
  unfold exec, GC, modifyStore, set_Chunks; simpl.
  rewrite filter_idem. reflexivity.
Qed.

Lemma refreshDocuments_effect env docs :
  forall w,
    let w' := exec (refreshDocuments env docs) w in
    (exists added, Chunks (store w') = Chunks (store w) ++ added)
    /\ sameConfig (store w) (store w')
    /\ (run (refreshDocuments env docs) w = Ok tt ->
        Forall (settled env (store w')) docs).
Proof.
  induction docs as [|doc rest IH]; intros w; cbv zeta.
  - simpl. split; [exists []; rewrite app_nil_r; reflexivity|].
    split; [apply sameConfig_refl|]. intros _. constructor.
  - destruct (UpdateDocument_effect env doc w)
      as (added & Hch & Hcfg & _).
    cbv zeta in Hch, Hcfg.
    pose proof (@UpdateDocument_settles env doc w) as Hset.
    unfold exec, run in *. simpl. unfold bind.
    destruct (UpdateDocument env doc w) as [[updated|e| |] w1] eqn:E1;
      simpl in *;
      try (split; [exists added; exact Hch|];
           split; [exact Hcfg|]; intros H; discriminate H).
    specialize (IH w1). cbv zeta in IH.
    destruct IH as ((added' & Hch') & Hcfg' & Hok).
    destruct (refreshDocuments env rest w1) as [r w2] eqn:E2; simpl in *.
    split; [exists (added ++ added'); rewrite Hch', Hch, app_assoc;
            reflexivity|].
    split; [exact (sameConfig_trans Hcfg Hcfg')|].
    intros Hr. constructor; [|exact (Hok Hr)].
    apply (@settled_more env (store w1) (store w2) doc added' Hch').
    + destruct Hcfg' as (_ & _ & Hm & _). exact Hm.
    + exact (Hset updated eq_refl).
Qed.

Lemma refreshDocuments_settled env env' docs :
  forall w,
    Forall (settled env (store w)) docs ->
    (forall d, In d docs -> readFile env' (Path d) = readFile env (Path d)) ->
    refreshDocuments env' docs w = (Ok tt, w).
Proof.
  induction docs as [|doc rest IH]; intros w Hs Hread; [reflexivity|].
  apply Forall_cons_iff in Hs. destruct Hs as [Hd Hrest].
  simpl. unfold bind.
  rewrite (@UpdateDocument_settled env env' doc w Hd
             (Hread doc (or_introl eq_refl))).
  apply IH; [exact Hrest|]. intros d Hin. apply Hread. right. exact Hin.
Qed.

(** X12.  [RefreshEmbeddings] again: after a call that returned without
    error, a second call, with the files of the documents unchanged,
    returns without error, sends no request and leaves the store as the
    first call left it. *)
Theorem RefreshEmbeddings_again (env1 env2 : Env) (w w1 : World) :
  RefreshEmbeddings env1 w = (Ok tt, w1) ->
  (forall d, In d (elems (Documents (store w))) ->
             readFile env2 (Path d) = readFile env1 (Path d)) ->
  RefreshEmbeddings env2 w1 = (Ok tt, w1).
Proof.
  intros Hfirst Hread.
  unfold RefreshEmbeddings, bind, getStore in Hfirst. simpl in Hfirst.
  destruct (refreshDocuments_effect env1 (elems (Documents (store w))) w)
    as (_ & Hcfg & Hok).
  unfold exec, run in *.
  destruct (refreshDocuments env1 (elems (Documents (store w))) w)
    as [[[]|e| |] wm] eqn:E; simpl in *; try discriminate Hfirst.
  specialize (Hok eq_refl).
  destruct Hcfg as (_ & Hdocs & _).
  assert (Hw1 : w1 = exec GC wm).
  { unfold exec. destruct (GC wm) as [r w'] eqn:EG. simpl.
    inversion Hfirst. reflexivity. }
  assert (Hd1 : Documents (store w1) = Documents (store w)).
  { rewrite Hw1. unfold exec, GC, modifyStore. simpl. exact Hdocs. }
  assert (Hs1 : Forall (settled env1 (store w1))
                  (elems (Documents (store w)))).
  { rewrite Hw1. apply Forall_forall. intros d Hin.
    apply settled_GC.
    - rewrite Hdocs. apply in_map. exact Hin.
    - rewrite Forall_forall in Hok. apply Hok. exact Hin. }
  unfold RefreshEmbeddings, bind, getStore. simpl. rewrite Hd1.
  rewrite (@refreshDocuments_settled env1 env2 _ w1 Hs1 Hread).
  rewrite Hw1. pose proof (GC_twice wm) as Hi.
  unfold exec in *. unfold GC, modifyStore in *. simpl in *.
  rewrite Hi. reflexivity.
Qed.

(** The store with [a.txt] registered and no chunk, refreshed twice. *)
Lemma RefreshEmbeddings_again_witness :
  let w1 := exec (RefreshEmbeddings envPlain) (initWorld storeA) in
  (RefreshEmbeddings envPlain (initWorld storeA) = (Ok tt, w1)
   /\ forall d, In d (elems (Documents (store (initWorld storeA)))) ->
                readFile envPlain (Path d) = readFile envPlain (Path d))
  /\ map Text (Chunks (store w1)) = ["a"%string; "b"%string]
  /\ RefreshEmbeddings envPlain w1 = (Ok tt, w1).
Proof.
  cbv zeta.
  assert (H : RefreshEmbeddings envPlain (initWorld storeA)
              = (Ok tt, exec (RefreshEmbeddings envPlain) (initWorld storeA)))
    by (vm_compute; reflexivity).
  assert (Hr : forall d,
             In d (elems (Documents (store (initWorld storeA)))) ->
             readFile envPlain (Path d) = readFile envPlain (Path d))
    by (intros d _; reflexivity).
  split; [exact (conj H Hr)|].
  split; [vm_compute; reflexivity|].
  exact (@RefreshEmbeddings_again envPlain envPlain (initWorld storeA) _
           H Hr).
Defined.

(** * Further properties of the ranker and of the answers *)

(** ** Similarity *)

Lemma SFmul_comm prec emax x y : SFmul prec emax x y = SFmul prec emax y x.
Proof.
  destruct x as [sx|sx| |sx mx ex], y as [sy|sy| |sy my ey]; simpl;
    try reflexivity; try (rewrite xorb_comm; reflexivity).
  rewrite xorb_comm, Pos.mul_comm, Z.add_comm. reflexivity.
Qed.

(** The product of two binary64 numbers does not depend on their
    order. *)
Lemma float_mul_comm (x y : float) : (x * y)%float = (y * x)%float.
Proof.
  apply Prim2SF_inj. rewrite !mul_spec. apply SFmul_comm.
Qed.

Lemma Similarity_loop_sym a :
  forall b dot magA magB,
    length a = length b ->
    Similarity_loop a b dot magA magB = Similarity_loop b a dot magB magA.
Proof.
  induction a as [|x a IH]; intros [|y b] dot magA magB Hl; simpl in *;
    try discriminate Hl.
  - rewrite float_mul_comm. reflexivity.
  - rewrite (float_mul_comm y x). apply IH. lia.
Qed.

Lemma Similarity_loop_panic a :
  forall b dot magA magB,
    (Similarity_loop a b dot magA magB = Panic <-> length b < length a)
    /\ (length a <= length b ->
        exists s, Similarity_loop a b dot magA magB = Ok s).
Proof.
  induction a as [|x a IH]; intros b dot magA magB; simpl.
  - split; [split; [intros H; discriminate H|lia]|].
    intros _. eexists; reflexivity.
  - destruct b as [|y b]; simpl.
    + split; [split; [lia|reflexivity]|lia].
    + destruct (IH b (dot + x * y)%float (magA + x * x)%float
                  (magB + y * y)%float) as [H1 H2].
      split; [rewrite H1; lia|]. intros H. apply H2. lia.
Qed.

(** X13.  [Similarity] is symmetric on vectors of the same length, to the
    last bit: the same binary64 number comes out with the arguments
    exchanged (NaN included). *)
Theorem Similarity_symmetric (a b : list float) :
  length a = length b -> Similarity a b = Similarity b a.
Proof. intros H. unfold Similarity. apply Similarity_loop_sym; exact H. Qed.

Lemma Similarity_symmetric_witness :
  length unit0 = length diag /\ Similarity unit0 diag = Similarity diag unit0.
Proof.
  assert (H : length unit0 = length diag) by reflexivity.
  exact (conj H (@Similarity_symmetric unit0 diag H)).
Defined.

(** X14.  [Similarity a b] returns a number when [b] is at least as long
    as [a], reading only the first [len(a)] entries of [b], and panics
    (index out of range) exactly when [b] is shorter than [a]; it has no
    other outcome. *)
Theorem Similarity_outcome (a b : list float) :
  match Similarity a b with
  | Ok s => length a <= length b
            /\ Similarity a (firstn (length a) b) = Ok s
  | Panic => length b < length a
  | Err _ => False
  | OutOfFuel => False
  end.
Proof.
  unfold Similarity.
  assert (Hcut : forall a b dot magA magB,
             length a <= length b ->
             Similarity_loop a (firstn (length a) b) dot magA magB
             = Similarity_loop a b dot magA magB).
  { clear. induction a as [|x a IH]; intros b dot magA magB Hl;
      [reflexivity|].
    destruct b as [|y b]; simpl in Hl; [lia|].
    simpl. apply IH. lia. }
  destruct (Similarity_loop_panic a b 0 0 0) as [Hp Hok].
  destruct (le_lt_dec (length a) (length b)) as [Hle|Hlt].
  - destruct (Hok Hle) as [s Hs]. rewrite Hs.
    split; [exact Hle|]. rewrite <- Hs. apply Hcut. exact Hle.
  - rewrite (proj2 Hp Hlt). exact Hlt.
Qed.

(** ** Ranking *)

(** X15.  [K] only truncates: when [SimilarChunks] returns for [K = 0] it
    returns for every [K], and the result is the first [K] chunks of the
    ranking for [K = 0]: all of it when [K] is larger than the number of
    chunks, none when [K] is negative.  No property of the sort is
    needed. *)
Theorem SimilarChunks_any_K
  (sort : forall A : Type, (A -> A -> bool) -> list A -> list A)
  (g : Grokker) (e : list float) (ranked : list Chunk) :
  SimilarChunks sort g e 0 = Ok ranked ->
  forall K,
    SimilarChunks sort g e K
    = Ok (if (K =? 0)%Z then ranked else firstn (Z.to_nat K) ranked).
Proof.
  unfold SimilarChunks.
  destruct (scoreChunks e (Chunks g)) as [sims| | |]; simpl;
    try (intros H; discriminate H).
  rewrite !topChunks_firstn. simpl. rewrite Z.sub_0_r, Nat2Z.id, firstn_all.
  intros H K. injection H as <-.
  destruct (K =? 0)%Z.
  - rewrite topChunks_firstn. simpl.
    rewrite Z.sub_0_r, Nat2Z.id, firstn_all. reflexivity.
  - rewrite topChunks_firstn. simpl. rewrite Z.sub_0_r.
    rewrite firstn_map. reflexivity.
Qed.

(** The two chunks of [storeTie], and [K = -1]. *)
Lemma SimilarChunks_any_K_witness :
  SimilarChunks (@insertionSort) storeTie unit0 0 = Ok [first; second]
  /\ SimilarChunks (@insertionSort) storeTie unit0 1 = Ok [first]
  /\ SimilarChunks (@insertionSort) storeTie unit0 (-1) = Ok [].
Proof.
  assert (H : SimilarChunks (@insertionSort) storeTie unit0 0
              = Ok [first; second]) by (vm_compute; reflexivity).
  split; [exact H|].
  split.
  - exact (@SimilarChunks_any_K (@insertionSort) storeTie unit0 _ H 1%Z).
  - exact (@SimilarChunks_any_K (@insertionSort) storeTie unit0 _ H (-1)%Z).
Defined.

Lemma FindChunks_logs sort env query K w :
  embeddingLog (exec (FindChunks sort env query K) w)
  = embeddingLog w ++ [[query]]
  /\ chatLog (exec (FindChunks sort env query K) w) = chatLog w.
Proof.
  unfold exec, FindChunks, bind, CreateEmbeddings.
  rewrite CreateEmbeddings_loop_step. simpl.
  destruct (embeddingAPI env [query]) as [data|].
  - rewrite CreateEmbeddings_loop_step. simpl.
    destruct data as [|qe rest]; simpl.
    + split; reflexivity.
    + unfold getStore, lift; simpl.
      destruct (SimilarChunks sort (store w) qe K); split; reflexivity.
  - split; reflexivity.
Qed.

(** X16.  [FindChunks] sends exactly one embedding request, the query
    alone, and changes neither the store nor the chat log.  It returns
    the embedding error when the request is refused, panics (index out of
    range) when the service answers with no embedding, and is otherwise
    [SimilarChunks] on the first embedding of the answer. *)
Theorem FindChunks_one_request
  (sort : forall A : Type, (A -> A -> bool) -> list A -> list A)
  (env : Env) (query : string) (K : Z) (w : World) :
  let w' := exec (FindChunks sort env query K) w in
  store w' = store w
  /\ embeddingLog w' = embeddingLog w ++ [[query]]
  /\ chatLog w' = chatLog w
  /\ run (FindChunks sort env query K) w
     = match embeddingAPI env [query] with
       | None => Err EEmbedding
       | Some [] => Panic
       | Some (queryEmbedding :: _) =>
           SimilarChunks sort (store w) queryEmbedding K
       end.
Proof.
  cbv zeta. unfold run, exec, FindChunks, bind, CreateEmbeddings.
  rewrite CreateEmbeddings_loop_step. simpl.
  destruct (embeddingAPI env [query]) as [data|].
  - rewrite CreateEmbeddings_loop_step. simpl.
    destruct data as [|qe rest]; simpl.
    + repeat split; reflexivity.
    + unfold getStore, lift; simpl.
      destruct (SimilarChunks sort (store w) qe K); repeat split; reflexivity.
  - repeat split; reflexivity.
Qed.

(** ** Answers *)

Lemma chat_effect env messages w :
  store (exec (chat env messages) w) = store w
  /\ embeddingLog (exec (chat env messages) w) = embeddingLog w
  /\ chatLog (exec (chat env messages) w) = chatLog w ++ [messages]
  /\ (forall resp, run (chat env messages) w = Ok resp ->
        chatAPI env messages = Some resp /\ Choices resp <> []).
Proof.
  unfold exec, run, chat.
  destruct (chatAPI env messages) as [resp|]; simpl.
  - destruct (Choices resp) eqn:E; simpl.
    + split; [reflexivity|]. split; [reflexivity|]. split; [reflexivity|].
      intros r Hr. discriminate Hr.
    + split; [reflexivity|]. split; [reflexivity|]. split; [reflexivity|].
      intros r Hr. injection Hr as <-. split; [reflexivity|].
      rewrite E. intros H; discriminate H.
  - split; [reflexivity|]. split; [reflexivity|]. split; [reflexivity|].
    intros r Hr. discriminate Hr.
Qed.

Lemma Generate_effect env question ctxt global w :
  let w' := exec (Generate env question ctxt global) w in
  store w' = store w
  /\ embeddingLog w' = embeddingLog w
  /\ exists chats,
       chatLog w' = chatLog w ++ chats
       /\ length chats <= (if global then 2 else 1)
       /\ Forall (framed question) chats
       /\ (forall resp query,
             run (Generate env question ctxt global) w = Ok (resp, query) ->
             query = EmptyString
             /\ Choices resp <> []
             /\ length chats = (if global then 2 else 1)
             /\ exists messages,
                  last chats [] = messages
                  /\ chatAPI env messages = Some resp
                  /\ In (mkMessage "user" ctxt) messages).
Proof.
  cbv zeta. unfold Generate, exec, run, bind.
  destruct global.
  - (* first the question alone *)
    simpl.
    set (m1 := [mkMessage "system" "You are a helpful assistant.";
                mkMessage "user" question]).
    destruct (chat_effect env m1 w) as (Hs1 & He1 & Hc1 & Hok1).
    unfold exec, run in *.
    destruct (chat env m1 w) as [[resp1|e| |] w1]; simpl in *;
      try (split; [exact Hs1|]; split; [exact He1|];
           exists [m1]; split; [exact Hc1|]; split; [simpl; lia|];
           split; [repeat constructor|]; intros ? ? H; discriminate H).
    destruct (Choices resp1) as [|content rest] eqn:Ech.
    { unfold lift; simpl.
      split; [exact Hs1|]. split; [exact He1|].
      exists [m1]. split; [exact Hc1|]. split; [simpl; lia|].
      split; [repeat constructor|]. intros ? ? H; discriminate H. }
    unfold ret; simpl.
    set (m2 := [mkMessage "system" "You are a helpful assistant.";
                mkMessage "user" question;
                mkMessage "assistant" content;
                mkMessage "user" ctxt;
                mkMessage "assistant" "Great! I've read the context.";
                mkMessage "user" question]).
    destruct (chat_effect env m2 w1) as (Hs2 & He2 & Hc2 & Hok2).
    unfold exec, run in *.
    destruct (chat env m2 w1) as [[resp2|e| |] w2]; simpl in *;
      (split; [congruence|]); (split; [congruence|]);
      exists [m1; m2];
      (split; [rewrite Hc2, Hc1, <- app_assoc; reflexivity|]);
      (split; [simpl; lia|]);
      (split; [repeat constructor|]);
      intros resp query H; try discriminate H.
    injection H as <- <-.
    destruct (Hok2 resp2 eq_refl) as [Hapi Hne].
    split; [reflexivity|]. split; [exact Hne|]. split; [reflexivity|].
    exists m2. split; [reflexivity|]. split; [exact Hapi|].
    unfold m2. simpl. auto 10.
  - unfold ret; simpl.
    set (m := [mkMessage "system" "You are a helpful assistant.";
               mkMessage "user" ctxt;
               mkMessage "assistant" "Great! I've read the context.";
               mkMessage "user" question]).
    destruct (chat_effect env m w) as (Hs & He & Hc & Hok).
    unfold exec, run in *.
    destruct (chat env m w) as [[resp|e| |] w1]; simpl in *;
      (split; [exact Hs|]); (split; [exact He|]);
      exists [m];
      (split; [exact Hc|]);
      (split; [simpl; lia|]);
      (split; [repeat constructor|]);
      intros r query H; try discriminate H.
    injection H as <- <-.
    destruct (Hok resp eq_refl) as [Hapi Hne].
    split; [reflexivity|]. split; [exact Hne|]. split; [reflexivity|].
    exists m. split; [reflexivity|]. split; [exact Hapi|].
    unfold m. simpl. auto.
Qed.

(** X17.  [Generate] changes neither the store nor the embedding log and
    sends at most one chat request, two when [global] is set; every
    request starts with the system message and ends with the question.
    When it returns a response, the requests were all sent, the response
    is the service's answer to the last request, which holds the context
    as a user message, it has at least one choice, and the result [query]
    is the empty string. *)
Theorem Generate_requests
  (env : Env) (question ctxt : string) (global : bool) (w : World) :
  let w' := exec (Generate env question ctxt global) w in
  store w' = store w
  /\ embeddingLog w' = embeddingLog w
  /\ exists chats,
       chatLog w' = chatLog w ++ chats
       /\ length chats <= (if global then 2 else 1)
       /\ Forall (framed question) chats
       /\ (forall resp query,
             run (Generate env question ctxt global) w = Ok (resp, query) ->
             query = EmptyString
             /\ Choices resp <> []
             /\ length chats = (if global then 2 else 1)
             /\ exists messages,
                  last chats [] = messages
                  /\ chatAPI env messages = Some resp
                  /\ In (mkMessage "user" ctxt) messages).
Proof. exact (Generate_effect env question ctxt global w). Qed.

(** A service that answers, asked with [global] set. *)
Lemma Generate_requests_witness :
  run (Generate envChat "q" "c" true) (initWorld New)
  = Ok (mkChatResponse ["yes"%string] 7, EmptyString)
  /\ length (chatLog (exec (Generate envChat "q" "c" true) (initWorld New)))
     = 2.
Proof.
  assert (H : run (Generate envChat "q" "c" true) (initWorld New)
              = Ok (mkChatResponse ["yes"%string] 7, EmptyString))
    by (vm_compute; reflexivity).
  split; [exact H|].
  destruct (@Generate_requests envChat "q" "c" true (initWorld New))
    as (_ & _ & chats & Hlog & _ & _ & Hok).
  destruct (Hok _ _ H) as (_ & _ & Hlen & _).
  rewrite Hlog. simpl. exact Hlen.
Defined.

Lemma contextLoop_prefix maxSize chunks :
  forall context,
    exists n,
      n <= length chunks
      /\ contextLoop maxSize chunks context
         = (context ++ joinChunks (firstn n chunks))%string
      /\ (chunks <> [] -> 0 < n)
      /\ (forall m, 0 < m < n ->
            (strlen (context ++ joinChunks (firstn m chunks))
             + strlen promptTmpl <= maxSize)%Z)
      /\ (n < length chunks ->
            (strlen (context ++ joinChunks (firstn n chunks))
             + strlen promptTmpl > maxSize)%Z).
Proof.
  induction chunks as [|c rest IH]; intros context.
  - exists 0. simpl. rewrite append_nil_r.
    repeat split; auto; try lia. congruence.
  - simpl contextLoop.
    destruct (strlen (context ++ Text c ++ sep2) + strlen promptTmpl
              >? maxSize)%Z eqn:E.
    + exists 1.
      assert (H1 : (context ++ joinChunks (firstn 1 (c :: rest))
                    = context ++ Text c ++ sep2)%string) by reflexivity.
      split; [simpl; lia|]. split; [symmetry; exact H1|]. split; [lia|].
      split; [intros m Hm; lia|]. intros _. rewrite H1.
      apply Z.gtb_lt in E. lia.
    + destruct (IH (context ++ Text c ++ sep2)%string)
        as (n & Hn & Heq & _ & Hin & Hout).
      assert (Hj : forall k,
                 ((context ++ Text c ++ sep2) ++ joinChunks (firstn k rest)
                  = context ++ joinChunks (firstn (S k) (c :: rest)))%string).
      { intros k. simpl. rewrite !append_assoc. reflexivity. }
      exists (S n). split; [simpl; lia|].
      split; [rewrite Heq; apply Hj|]. split; [lia|]. split.
      * intros m Hm. destruct m as [|m]; [lia|].
        rewrite <- Hj. destruct m as [|m].
        -- simpl. rewrite append_nil_r.
           rewrite Z.gtb_ltb in E. apply Z.ltb_ge in E. lia.
        -- apply Hin. lia.
      * intros Hlt. rewrite <- Hj. apply Hout. simpl in Hlt. lia.
Qed.

(** X18.  The context that [Answer] hands to [Generate] is made of whole
    chunks: the texts of the first [n] chunks of the ranking, each
    followed by a blank line.  At least one chunk is used when there is
    one, however long it is; every shorter prefix fits the budget (half
    of [MaxChunkSize], the template included); and when chunks are left
    out, the context used is over the budget. *)
Theorem Answer_context_whole_chunks
  (sort : forall A : Type, (A -> A -> bool) -> list A -> list A)
  (env : Env) (question : string) (global : bool) (w : World)
  (chunks : list Chunk) :
  run (FindChunks sort env question 0) w = Ok chunks ->
  let maxSize := Z.quot (MaxChunkSize (store w)) 2 in
  exists n,
    n <= length chunks
    /\ (chunks <> [] -> 0 < n)
    /\ Answer sort env question global w
       = Generate env question (joinChunks (firstn n chunks)) global
           (exec (FindChunks sort env question 0) w)
    /\ (forall m, 0 < m < n ->
          (strlen (joinChunks (firstn m chunks)) + strlen promptTmpl
           <= maxSize)%Z)
    /\ (n < length chunks ->
          (strlen (joinChunks (firstn n chunks)) + strlen promptTmpl
           > maxSize)%Z).
Proof.
  intros Hfind. cbv zeta.
  destruct (contextLoop_prefix (Z.quot (MaxChunkSize (store w)) 2) chunks
              EmptyString) as (n & Hn & Heq & Hpos & Hin & Hout).
  simpl in Heq, Hin, Hout.
  exists n. split; [exact Hn|]. split; [exact Hpos|].
  split; [|split; [exact Hin|exact Hout]].
  unfold Answer, bind at 1.
  pose proof (FindChunks_store sort env question 0 w) as Hst.
  unfold run in Hfind. unfold exec in *.
  destruct (FindChunks sort env question 0 w) as [r w']; simpl in *.
  subst r. unfold bind, getStore; simpl.
  rewrite Hst, Heq. reflexivity.
Qed.

(** The two chunks of [storeTie], both within the budget. *)
Lemma Answer_context_whole_chunks_witness :
  run (FindChunks (@insertionSort) envChat "q" 0) (initWorld storeTie)
  = Ok [first; second]
  /\ exists n,
       n <= 2
       /\ Answer (@insertionSort) envChat "q" false (initWorld storeTie)
          = Generate envChat "q" (joinChunks (firstn n [first; second])) false
              (exec (FindChunks (@insertionSort) envChat "q" 0)
                 (initWorld storeTie)).
Proof.
  assert (H : run (FindChunks (@insertionSort) envChat "q" 0)
                (initWorld storeTie) = Ok [first; second])
    by (vm_compute; reflexivity).
  split; [exact H|].
  destruct (@Answer_context_whole_chunks (@insertionSort) envChat "q" false
              (initWorld storeTie) _ H) as (n & Hn & _ & Heq & _).
  exists n. split; [exact Hn|exact Heq].
Defined.

(** X19.  [Answer] only reads the store: whatever the services answer,
    the store after the call is the store before it; exactly one
    embedding request is sent, the question alone, and at most one chat
    request, two when [global] is set, each starting with the system
    message and ending with the question.  When a response is returned it
    has at least one choice, the chat requests were all sent, and the
    result [query] is the empty string. *)
Theorem Answer_read_only
  (sort : forall A : Type, (A -> A -> bool) -> list A -> list A)
  (env : Env) (question : string) (global : bool) (w : World) :
  let w' := exec (Answer sort env question global) w in
  store w' = store w
  /\ embeddingLog w' = embeddingLog w ++ [[question]]
  /\ exists chats,
       chatLog w' = chatLog w ++ chats
       /\ length chats <= (if global then 2 else 1)
       /\ Forall (framed question) chats
       /\ (forall resp query,
             run (Answer sort env question global) w = Ok (resp, query) ->
             query = EmptyString
             /\ Choices resp <> []
             /\ length chats = (if global then 2 else 1)).
Proof.
  cbv zeta.
  pose proof (FindChunks_store sort env question 0 w) as Hs.
  destruct (FindChunks_logs sort env question 0 w) as (He & Hc).
  unfold Answer, run, exec, bind in *.
  assert (Hfail : forall r : outcome (ChatResponse * string),
             (forall resp query, r <> Ok (resp, query)) ->
             forall w1, store w1 = store w ->
             embeddingLog w1 = embeddingLog w ++ [[question]] ->
             chatLog w1 = chatLog w ->
             store w1 = store w
             /\ embeddingLog w1 = embeddingLog w ++ [[question]]
             /\ exists chats,
                  chatLog w1 = chatLog w ++ chats
                  /\ length chats <= (if global then 2 else 1)
                  /\ Forall (framed question) chats
                  /\ (forall resp query,
                        r = Ok (resp, query) ->
                        query = EmptyString
                        /\ Choices resp <> []
                        /\ length chats = (if global then 2 else 1))).
  { intros r Hr w1 H1 H2 H3. split; [exact H1|]. split; [exact H2|].
    exists []. rewrite app_nil_r. split; [exact H3|].
    split; [destruct global; simpl; lia|]. split; [constructor|].
    intros resp query H. exfalso. exact (Hr resp query H). }
  destruct (FindChunks sort env question 0 w) as [[chunks|e| |] w1];
    simpl in *;
    try (apply Hfail; auto; intros ? ? H; discriminate H).
  unfold getStore; simpl.
  set (ctxt := contextLoop _ chunks EmptyString).
  destruct (Generate_effect env question ctxt global w1)
    as (Gs & Ge & chats & Gc & Glen & Gfr & Gok).
  cbv zeta in Gs, Ge, Gc, Gok. unfold run, exec in *.
  destruct (Generate env question ctxt global w1) as [r w2]; simpl in *.
  split; [congruence|]. split; [congruence|].
  exists chats. split; [congruence|]. split; [exact Glen|].
  split; [exact Gfr|].
  intros resp query H. destruct (Gok resp query H) as (H1 & H2 & H3 & _).
  auto.
Qed.

(** A question to the store of three chunks, with a service that
    answers. *)
Lemma Answer_read_only_witness :
  run (Answer (@insertionSort) envChat "q" true) (initWorld store4000)
  = Ok (mkChatResponse ["yes"%string] 7, EmptyString)
  /\ store (exec (Answer (@insertionSort) envChat "q" true)
              (initWorld store4000)) = store4000
  /\ embeddingLog (exec (Answer (@insertionSort) envChat "q" true)
                     (initWorld store4000)) = [["q"%string]].
Proof.
  assert (H : run (Answer (@insertionSort) envChat "q" true)
                (initWorld store4000)
              = Ok (mkChatResponse ["yes"%string] 7, EmptyString))
    by (vm_compute; reflexivity).
  split; [exact H|].
  destruct (@Answer_read_only (@insertionSort) envChat "q" true
              (initWorld store4000)) as (Hs & He & _).
  split; [exact Hs|exact He].
Defined.

(** * Package aidda *)

(** ** The prompt file *)

Lemma readLines_stop lib pre :
  forall i stop post post' lines,
    Aidda.HasPrefix stop ".stop" = true ->
    Aidda.readLines lib i (pre ++ stop :: post) lines
    = Aidda.readLines lib i (pre ++ stop :: post') lines.
Proof.
  induction pre as [|line pre IH]; intros i stop post post' lines Hstop;
    simpl.
  - rewrite Hstop. reflexivity.
  - rewrite (IH (S i) stop post post' (lines ++ [line]) Hstop). reflexivity.
Qed.

Lemma expandDirs_ext sys d d' fs :
  (forall f, Aidda.Stat sys d' f = Aidda.Stat sys d f) ->
  Aidda.expandDirs sys d' fs = Aidda.expandDirs sys d fs.
Proof.
  intros H. induction fs as [|f fs IH]; simpl; [reflexivity|].
  rewrite H, IH. reflexivity.
Qed.

(** X20.  [readPrompt] reads nothing after a [.stop] line: two prompt
    files with the same lines up to a line that starts with [.stop] give
    the same result, prompt or error, whatever follows that line. *)
Theorem readPrompt_ignores_after_stop
  (lib : Aidda.Lib) (sys : Aidda.Sys) (path : string) (d d' : Aidda.Disk)
  (c c' : string) (pre : list string) (stop : string)
  (post post' : list string) :
  d path = Some c ->
  d' path = Some c' ->
  (forall p, p <> path -> d' p = d p) ->
  Split c newline = pre ++ stop :: post ->
  Split c' newline = pre ++ stop :: post' ->
  Aidda.HasPrefix stop ".stop" = true ->
  Aidda.readPrompt lib sys path d' = Aidda.readPrompt lib sys path d.
Proof.
  intros Hc Hc' Hother Hs Hs' Hstop.
  assert (Hstat : forall f, Aidda.Stat sys d' f = Aidda.Stat sys d f).
  { intros f. unfold Aidda.Stat.
    destruct (String.eqb_spec f path) as [->|Hne].
    - rewrite Hc, Hc'. reflexivity.
    - rewrite (Hother f Hne). reflexivity. }
  unfold Aidda.readPrompt, Aidda.ReadFile. rewrite Hc, Hc'.
  destruct (Aidda.readFails sys path); [reflexivity|].
  rewrite Hs, Hs'.
  rewrite (@readLines_stop lib pre 0 stop post' post [] Hstop).
  destruct (Aidda.readLines lib 0 (pre ++ stop :: post) []) as [lines|e];
    [|reflexivity].
  cbv zeta.
  destruct (length _ <=? _); [reflexivity|].
  destruct (Aidda.extractHeaders lib _) as [headerMap|e]; [|reflexivity].
  rewrite (@expandDirs_ext sys d d' _ Hstat). reflexivity.
Qed.

(** Two prompt files that differ after the [.stop] line. *)
Lemma readPrompt_ignores_after_stop_witness :
  Aidda.readPrompt asciiLib sysFine ".aidda/prompt" diskStop2
  = Aidda.readPrompt asciiLib sysFine ".aidda/prompt" diskStop1
  /\ Aidda.readPrompt asciiLib sysFine ".aidda/prompt" diskStop1
     = Aidda.Done (Aidda.mkPrompt "" ["main.go"%string] []
                     ("fix the bug" ++ newline)).
Proof.
  split; [|vm_compute; reflexivity].
  apply (@readPrompt_ignores_after_stop asciiLib sysFine ".aidda/prompt"
           diskStop1 diskStop2
           (promptHead ++ "# notes")%string
           (promptHead ++ "In: other.go" ++ newline)%string
           ["fix the bug"%string; ""%string; "In: main.go"%string]
           ".stop"%string ["# notes"%string]
           ["In: other.go"%string; ""%string]).
  - reflexivity.
  - reflexivity.
  - intros p Hp. unfold diskStop1, diskStop2, Aidda.writeDisk.
    destruct (String.eqb_spec p ".aidda/prompt") as [E|_];
      [contradiction|reflexivity].
  - vm_compute; reflexivity.
  - vm_compute; reflexivity.
  - reflexivity.
Defined.

Lemma readLines_comment lib s :
  Aidda.readLines lib 0 (Split (String "#" s) newline) [] = Aidda.Fail Aidda.ErrComment.
Proof.
  unfold Split. cbn [Split_from].
  change (prefix newline (String "#" s)) with false. cbv iota.
  destruct (Split_from newline 0 s) as [|p ps]; [reflexivity|].
  destruct p; reflexivity.
Qed.

Lemma promptTemplate_comment inFns :
  exists s, Aidda.promptTemplate inFns = String "#" s.
Proof. unfold Aidda.promptTemplate. simpl. eexists. reflexivity. Qed.

Lemma readPrompt_template lib sys path d inFns :
  Aidda.readFails sys path = false ->
  d path = Some (Aidda.promptTemplate inFns) ->
  Aidda.readPrompt lib sys path d = Aidda.Fail Aidda.ErrComment.
Proof.
  intros Hr Hd. unfold Aidda.readPrompt, Aidda.ReadFile. rewrite Hr, Hd.
  destruct (promptTemplate_comment inFns) as [s ->]. cbv zeta.
  rewrite readLines_comment. reflexivity.
Qed.

Lemma writeDisk_other d path data p :
  p <> path -> Aidda.writeDisk d path data p = d p.
Proof.
  intros H. unfold Aidda.writeDisk.
  destruct (String.eqb_spec p path); [contradiction|reflexivity].
Qed.

Lemma writeDisk_same d path data : Aidda.writeDisk d path data path = Some data.
Proof. unfold Aidda.writeDisk. rewrite String.eqb_refl. reflexivity. Qed.

Lemma WriteString_effect sys path data d :
  let '(r, d') := Aidda.WriteString sys path data d in
  (forall p, p <> path -> d' p = d p)
  /\ match r with
     | Aidda.Done _ =>
         Aidda.writeFails sys path data = false
         /\ d' path = Some (match d path with
                            | Some old => old ++ data
                            | None => data
                            end)%string
     | Aidda.Fail e =>
         e = Aidda.ErrWrite /\ Aidda.writeFails sys path data = true
         /\ d' = d
     end.
Proof.
  unfold Aidda.WriteString.
  destruct (Aidda.writeFails sys path data) eqn:E.
  - split; [reflexivity|]. repeat split; reflexivity.
  - destruct (d path) as [old|]; (split; [intros p Hp; apply writeDisk_other; exact Hp|]);
      (split; [reflexivity|apply writeDisk_same]).
Qed.

(** What [createPromptFile] leaves on the disk. *)
Lemma createPromptFile_effect sys path d :
  let '(r, d') := Aidda.createPromptFile sys path d in
  (forall p, p <> path -> d' p = d p)
  /\ match r with
     | Aidda.Done _ =>
         exists inFns,
           Aidda.getFiles sys = Some inFns
           /\ d' path = Some (Aidda.promptTemplate inFns)
     | Aidda.Fail e =>
         (e = Aidda.ErrCreate /\ Aidda.createFails sys path = true /\ d' = d)
         \/ (e = Aidda.ErrGetFiles /\ Aidda.getFiles sys = None
             /\ d' path = Some EmptyString)
         \/ (e = Aidda.ErrWrite
             /\ exists data, Aidda.writeFails sys path data = true)
     end.
Proof.
  unfold Aidda.createPromptFile, Aidda.io_bind, Aidda.Create.
  destruct (Aidda.createFails sys path) eqn:Ec.
  { split; [reflexivity|]. left. repeat split; reflexivity. }
  set (d0 := Aidda.writeDisk d path EmptyString).
  assert (H0 : forall p, p <> path -> d0 p = d p)
    by (intros p Hp; apply writeDisk_other; exact Hp).
  assert (P0 : d0 path = Some EmptyString) by apply writeDisk_same.
  destruct (Aidda.getFiles sys) as [inFns|] eqn:Eg.
  2:{ unfold Aidda.io_fail. split; [exact H0|]. right. left.
      split; [reflexivity|]. split; [reflexivity|exact P0]. }
  cbv zeta. unfold Aidda.io_bind.
  set (w1 := ("# write commit message here -- it will be used as the LLM prompt"
                ++ newline ++ newline)%string).
  set (w2 := ("Sysmsg: " ++ Aidda.DefaultSysmsg ++ newline)%string).
  set (w3 := ("In: " ++ String.concat " " inFns ++ newline)%string).
  set (w4 := ("Out: " ++ String.concat " " inFns ++ newline)%string).
  pose proof (WriteString_effect sys path w1 d0) as E1.
  destruct (Aidda.WriteString sys path w1 d0) as [[[]|e1] d1].
  2:{ destruct E1 as (O1 & -> & F1 & ->). split; [exact H0|].
      right. right. split; [reflexivity|]. exists w1. exact F1. }
  destruct E1 as (O1 & _ & P1). rewrite P0 in P1.
  pose proof (WriteString_effect sys path w2 d1) as E2.
  destruct (Aidda.WriteString sys path w2 d1) as [[[]|e2] d2].
  2:{ destruct E2 as (O2 & -> & F2 & ->).
      split; [intros p Hp; rewrite (O1 p Hp); apply H0; exact Hp|].
      right. right. split; [reflexivity|]. exists w2. exact F2. }
  destruct E2 as (O2 & _ & P2). rewrite P1 in P2.
  pose proof (WriteString_effect sys path w3 d2) as E3.
  destruct (Aidda.WriteString sys path w3 d2) as [[[]|e3] d3].
  2:{ destruct E3 as (O3 & -> & F3 & ->).
      split; [intros p Hp; rewrite (O2 p Hp), (O1 p Hp); apply H0; exact Hp|].
      right. right. split; [reflexivity|]. exists w3. exact F3. }
  destruct E3 as (O3 & _ & P3). rewrite P2 in P3.
  pose proof (WriteString_effect sys path w4 d3) as E4.
  destruct (Aidda.WriteString sys path w4 d3) as [[[]|e4] d4].
  2:{ destruct E4 as (O4 & -> & F4 & ->).
      split; [intros p Hp; rewrite (O3 p Hp), (O2 p Hp), (O1 p Hp);
              apply H0; exact Hp|].
      right. right. split; [reflexivity|]. exists w4. exact F4. }
  destruct E4 as (O4 & _ & P4). rewrite P3 in P4.
  split; [intros p Hp; rewrite (O4 p Hp), (O3 p Hp), (O2 p Hp), (O1 p Hp);
          apply H0; exact Hp|].
  exists inFns. split; [reflexivity|]. rewrite P4. reflexivity.
Qed.

(** X21.  [NewPrompt] on a path where no file is never returns a prompt:
    it creates the file and refuses it.  No other file is touched.  When
    the error is that the prompt file starts with a comment, the file
    holds the template written by [createPromptFile], and [NewPrompt]
    fails in the same way as long as the file is not edited; this is the
    error whenever no call of the operating system fails. *)
Theorem NewPrompt_new_file_is_refused
  (lib : Aidda.Lib) (sys : Aidda.Sys) (path : string) (d : Aidda.Disk) :
  Aidda.Stat sys d path = Aidda.NotExist ->
  exists e d',
    Aidda.NewPrompt lib sys path d = (Aidda.Fail e, d')
    /\ (forall p, p <> path -> d' p = d p)
    /\ (e = Aidda.ErrComment ->
        (exists inFns,
           Aidda.getFiles sys = Some inFns
           /\ d' path = Some (Aidda.promptTemplate inFns))
        /\ Aidda.NewPrompt lib sys path d' = (Aidda.Fail Aidda.ErrComment, d'))
    /\ (Aidda.createFails sys path = false ->
        Aidda.getFiles sys <> None ->
        (forall data, Aidda.writeFails sys path data = false) ->
        Aidda.readFails sys path = false ->
        e = Aidda.ErrComment).
Proof.
  intros Hstat.
  assert (Hsys : Aidda.statFails sys path = false
                 /\ Aidda.isDir sys path = false).
  { unfold Aidda.Stat in Hstat.
    destruct (Aidda.statFails sys path); [discriminate Hstat|].
    destruct (Aidda.isDir sys path); [discriminate Hstat|]. auto. }
  destruct Hsys as [Hsf Hdir].
  unfold Aidda.NewPrompt at 1. rewrite Hstat.
  pose proof (createPromptFile_effect sys path d) as Hc.
  destruct (Aidda.createPromptFile sys path d) as [[[]|e] d1].
  - destruct Hc as (Hother & inFns & Hg & Hfile).
    assert (Hstat1 : Aidda.Stat sys d1 path = Aidda.Found false).
    { unfold Aidda.Stat. rewrite Hsf, Hdir, Hfile. reflexivity. }
    destruct (Aidda.readFails sys path) eqn:Hr.
    + exists Aidda.ErrReadFile, d1. split.
      { unfold Aidda.readPrompt, Aidda.ReadFile. rewrite Hr. reflexivity. }
      split; [exact Hother|].
      split; [intros H; discriminate H|].
      intros _ _ _ H; discriminate H.
    + pose proof (@readPrompt_template lib sys path d1 inFns Hr Hfile) as Hrp.
      exists Aidda.ErrComment, d1. rewrite Hrp.
      split; [reflexivity|]. split; [exact Hother|].
      split; [|reflexivity].
      intros _. split; [exists inFns; split; assumption|].
      unfold Aidda.NewPrompt. rewrite Hstat1, Hrp. reflexivity.
  - exists e, d1. split; [reflexivity|].
    destruct Hc as (Hother & Hc). split; [exact Hother|].
    destruct Hc as [(-> & Hcf & _)|[(-> & Hg & _)|(-> & data & Hw)]].
    + split; [intros H; discriminate H|]. intros H; congruence.
    + split; [intros H; discriminate H|]. intros _ H; congruence.
    + split; [intros H; discriminate H|].
      intros _ _ H. rewrite H in Hw. discriminate Hw.
Qed.

(** An empty disk and an operating system where nothing fails. *)
Lemma NewPrompt_new_file_is_refused_witness :
  Aidda.Stat sysFine emptyDisk ".aidda/prompt" = Aidda.NotExist
  /\ exists d',
       Aidda.NewPrompt asciiLib sysFine ".aidda/prompt" emptyDisk
       = (Aidda.Fail Aidda.ErrComment, d')
       /\ Aidda.NewPrompt asciiLib sysFine ".aidda/prompt" d'
          = (Aidda.Fail Aidda.ErrComment, d').
Proof.
  assert (H : Aidda.Stat sysFine emptyDisk ".aidda/prompt" = Aidda.NotExist)
    by reflexivity.
  split; [exact H|].
  destruct (@NewPrompt_new_file_is_refused asciiLib sysFine ".aidda/prompt"
              emptyDisk H) as (e & d' & Hrun & _ & Hcomment & Hfine).
  assert (He : e = Aidda.ErrComment).
  { apply Hfine; try reflexivity. intros E; discriminate E. }
  exists d'. rewrite <- He at 1. split; [exact Hrun|].
  exact (proj2 (Hcomment He)).
Defined.

(** ** The ignore file *)

(** X22.  [ensureIgnoreFile] touches no other file, never a file that is
    there, and nothing when the path is a directory: it then returns
    without error, unless [os.Stat] fails, and there is still no file.
    When it returns without error on a path that is no directory, the
    file is there afterwards, with the default patterns if it was
    missing.  After a call that returned without error a second call
    returns without error and changes nothing. *)
Theorem ensureIgnoreFile_once
  (sys : Aidda.Sys) (fn : string) (d : Aidda.Disk) :
  let r := fst (Aidda.ensureIgnoreFile sys fn d) in
  let d' := snd (Aidda.ensureIgnoreFile sys fn d) in
  (forall p, p <> fn -> d' p = d p)
  /\ (forall c, d fn = Some c -> d' = d)
  /\ (Aidda.isDir sys fn = true ->
      d' = d /\ (Aidda.statFails sys fn = false -> r = Aidda.Done tt))
  /\ (r = Aidda.Done tt ->
      Aidda.ensureIgnoreFile sys fn d' = (Aidda.Done tt, d')
      /\ (Aidda.isDir sys fn = false ->
          d' fn = match d fn with
                  | Some c => Some c
                  | None => Some Aidda.defaultIgnore
                  end)).
Proof.
  cbv zeta.
  assert (Hagain : forall d1,
             Aidda.statFails sys fn = false ->
             (Aidda.isDir sys fn = true \/ d1 fn <> None) ->
             Aidda.ensureIgnoreFile sys fn d1 = (Aidda.Done tt, d1)).
  { intros d1 Hsf Hthere. unfold Aidda.ensureIgnoreFile, Aidda.Stat.
    rewrite Hsf. destruct (Aidda.isDir sys fn); [reflexivity|].
    destruct (d1 fn); [reflexivity|].
    destruct Hthere as [H|H]; [discriminate H|congruence]. }
  destruct (Aidda.ensureIgnoreFile sys fn d) as [r d'] eqn:E.
  cbn [fst snd]. unfold Aidda.ensureIgnoreFile, Aidda.Stat in E.
  destruct (Aidda.statFails sys fn) eqn:Hsf.
  { injection E as <- <-. split; [reflexivity|]. split; [reflexivity|].
    split; [intros _; split; [reflexivity|intros H; discriminate H]|].
    intros H; discriminate H. }
  destruct (Aidda.isDir sys fn) eqn:Hdir.
  { injection E as <- <-. split; [reflexivity|]. split; [reflexivity|].
    split; [intros _; split; reflexivity|].
    intros _. split; [|intros H; discriminate H].
    apply Hagain; [reflexivity|left; reflexivity]. }
  destruct (d fn) as [c|] eqn:Hd.
  { injection E as <- <-. split; [reflexivity|]. split; [reflexivity|].
    split; [intros H; discriminate H|].
    intros _. split; [|intros _; exact Hd].
    apply Hagain; [reflexivity|right; congruence]. }
  unfold Aidda.io_bind, Aidda.Create in E.
  destruct (Aidda.createFails sys fn).
  { injection E as <- <-. split; [reflexivity|].
    split; [intros c H; congruence|].
    split; [intros H; discriminate H|]. intros H; discriminate H. }
  pose proof (WriteString_effect sys fn Aidda.defaultIgnore
                (Aidda.writeDisk d fn EmptyString)) as Hw.
  rewrite E in Hw. destruct Hw as (Hother & Hw).
  split; [intros p Hp; rewrite (Hother p Hp); apply writeDisk_other;
          exact Hp|].
  split; [intros c H; congruence|].
  split; [intros H; discriminate H|].
  intros ->. destruct Hw as (_ & Hfile). rewrite writeDisk_same in Hfile.
  split; [|intros _; exact Hfile].
  apply Hagain; [reflexivity|right; congruence].
Qed.

(** An empty disk. *)
Lemma ensureIgnoreFile_once_witness :
  fst (Aidda.ensureIgnoreFile sysFine ".aidda/ignore" emptyDisk)
  = Aidda.Done tt
  /\ snd (Aidda.ensureIgnoreFile sysFine ".aidda/ignore" emptyDisk)
       ".aidda/ignore"%string = Some Aidda.defaultIgnore.
Proof.
  assert (H : fst (Aidda.ensureIgnoreFile sysFine ".aidda/ignore" emptyDisk)
              = Aidda.Done tt) by reflexivity.
  split; [exact H|].
  destruct (@ensureIgnoreFile_once sysFine ".aidda/ignore" emptyDisk)
    as (_ & _ & _ & Hok).
  exact (proj2 (Hok H) eq_refl).
Defined.

(** * Persistence *)

Lemma ValidString_coerce s :
  forall skip, ValidString_from skip s = true -> coerceUTF8_from skip s = s.
Proof.
  induction s as [|c s IH]; intros skip H; [reflexivity|].
  destruct skip as [|k].
  - cbn [ValidString_from coerceUTF8_from] in *.
    destruct (runeLen (String c s)) as [|k]; [discriminate H|].
    rewrite (IH k H). reflexivity.
  - cbn [ValidString_from coerceUTF8_from] in *.
    rewrite (IH k H). reflexivity.
Qed.

(** Coercion leaves a valid string as it is. *)
Lemma coerceUTF8_valid s : ValidString s = true -> coerceUTF8 s = s.
Proof. apply ValidString_coerce. Qed.

Lemma map_coerceDocument docs :
  forallb (fun d => ValidString (Path d)) docs = true ->
  map coerceDocument docs = docs.
Proof.
  induction docs as [|d docs IH]; simpl; intros H; [reflexivity|].
  apply andb_true_iff in H. destruct H as [Hd Hrest].
  rewrite (IH Hrest). unfold coerceDocument. rewrite (coerceUTF8_valid _ Hd).
  destruct d; reflexivity.
Qed.

Lemma map_coerceChunk chunks :
  forallb (fun c => ValidString (Path (ChunkDocument c))
                    && ValidString (Text c)) chunks = true ->
  map coerceChunk chunks = chunks.
Proof.
  induction chunks as [|c chunks IH]; simpl; intros H; [reflexivity|].
  apply andb_true_iff in H. destruct H as [Hc Hrest].
  apply andb_true_iff in Hc. destruct Hc as [Hp Ht].
  rewrite (IH Hrest). unfold coerceChunk, coerceDocument.
  rewrite (coerceUTF8_valid _ Hp), (coerceUTF8_valid _ Ht).
  destruct c as [[p] t e]; reflexivity.
Qed.

(** What [Save] writes and what [Load] makes of it, for any encoder and
    decoder that meet the contract. *)
Lemma Save_then_Load bytes
  (Marshal : Grokker -> option bytes)
  (Unmarshal : bytes -> Grokker -> Grokker * bool) (g : Grokker) :
  json_contract Marshal Unmarshal ->
  (finiteNumbers g = false
   /\ forall w, Save Marshal g w = (PanicsWithError EMarshal, w))
  \/ (finiteNumbers g = true
      /\ exists data g',
           Save Marshal g (mkWriter false [])
           = (Returns None, mkWriter false [data])
           /\ Load Unmarshal (Some data) = Returns (g', None)
           /\ Root g' = coerceUTF8 (Root g)
           /\ elems (Documents g') = map coerceDocument (elems (Documents g))
           /\ Chunks g' = map coerceChunk (Chunks g)
           /\ MaxChunkSize g' = MaxChunkSize g
           /\ CharsPerToken g' = CharsPerToken g).
Proof.
  intros Hc. specialize (Hc g). unfold Save, Load.
  destruct (Marshal g) as [data|].
  - right. destruct Hc as [Hfin Hdec]. split; [exact Hfin|].
    destruct (Hdec New eq_refl eq_refl)
      as (v' & Hu & H1 & H2 & H3 & H4 & H5).
    exists data, v'. rewrite Hu. simpl.
    repeat (split; [first [reflexivity | assumption]|]). assumption.
  - left. split; [exact Hc|]. intros w. reflexivity.
Qed.

(** C8, amended.  For every store whose numbers are finite and whose
    strings are valid UTF-8, and every encoder and decoder that meet the
    contract of [json.Marshal] and [json.Unmarshal]: [Save] to a writer
    that takes the data returns without error, and [Load] of the data
    written returns without error a store with the same root, the same
    document list, the same chunk list (document path, text and
    embedding of each chunk) and the same [MaxChunkSize] and
    [CharsPerToken]. *)
Theorem Save_Load_round_trip (bytes : Type)
  (Marshal : Grokker -> option bytes)
  (Unmarshal : bytes -> Grokker -> Grokker * bool) (g : Grokker) :
  json_contract Marshal Unmarshal ->
  finiteNumbers g = true ->
  validStrings g = true ->
  exists data g',
    Save Marshal g (mkWriter false []) = (Returns None, mkWriter false [data])
    /\ Load Unmarshal (Some data) = Returns (g', None)
    /\ Root g' = Root g
    /\ elems (Documents g') = elems (Documents g)
    /\ Chunks g' = Chunks g
    /\ MaxChunkSize g' = MaxChunkSize g
    /\ CharsPerToken g' = CharsPerToken g.
Proof.
  intros Hc Hfin Hvalid.
  destruct (Save_then_Load g Hc) as [[Hnot _]|[_ H]]; [congruence|].
  destruct H as (data & g' & Hs & Hl & H1 & H2 & H3 & H4 & H5).
  unfold validStrings in Hvalid.
  apply andb_true_iff in Hvalid. destruct Hvalid as [Hvalid Hchunks].
  apply andb_true_iff in Hvalid. destruct Hvalid as [Hroot Hdocs].
  exists data, g'. split; [exact Hs|]. split; [exact Hl|].
  split; [rewrite H1; apply coerceUTF8_valid; exact Hroot|].
  split; [rewrite H2; apply map_coerceDocument; exact Hdocs|].
  split; [rewrite H3; apply map_coerceChunk; exact Hchunks|].
  split; assumption.
Qed.

Lemma traverse_map {A B C} (enc : A -> B) (dec : B -> option C)
  (f : A -> C) (l : list A) :
  (forall a, dec (enc a) = Some (f a)) ->
  traverse dec (map enc l) = Some (map f l).
Proof.
  intros H. induction l as [|a l IH]; simpl; [reflexivity|].
  rewrite H, IH. reflexivity.
Qed.

Lemma decode_encodeDocument d :
  decodeDocument (encodeDocument d) = Some (coerceDocument d).
Proof. reflexivity. Qed.

Lemma decode_encodeChunk c :
  decodeChunk (encodeChunk c) = Some (coerceChunk c).
Proof.
  unfold decodeChunk, encodeChunk. cbn [String.eqb Ascii.eqb andb].
  simpl.
  rewrite (@traverse_map _ _ _ JFloat decodeFloat (fun f => f) (Embedding c))
    by reflexivity.
  rewrite map_id. reflexivity.
Qed.

(** The encoder and the decoder of syntax trees meet the contract. *)
Lemma treeCodec_contract : json_contract treeMarshal treeUnmarshal.
Proof.
  intros g. unfold treeMarshal.
  destruct (finiteNumbers g) eqn:Hfin; [|reflexivity].
  split; [reflexivity|]. intros v _ _.
  eexists. split.
  - unfold treeUnmarshal. simpl.
    rewrite (@traverse_map _ _ _ encodeDocument decodeDocument coerceDocument
               _ decode_encodeDocument).
    rewrite (@traverse_map _ _ _ encodeChunk decodeChunk coerceChunk
               _ decode_encodeChunk).
    reflexivity.
  - simpl. rewrite elems_of_list. repeat split; reflexivity.
Qed.

(** The store of two documents, saved and loaded. *)
Lemma Save_Load_round_trip_witness :
  (json_contract treeMarshal treeUnmarshal
   /\ finiteNumbers storeAB = true
   /\ validStrings storeAB = true)
  /\ exists data g',
       Save treeMarshal storeAB (mkWriter false [])
       = (Returns None, mkWriter false [data])
       /\ Load treeUnmarshal (Some data) = Returns (g', None)
       /\ Root g' = Root storeAB
       /\ elems (Documents g') = elems (Documents storeAB)
       /\ Chunks g' = Chunks storeAB
       /\ MaxChunkSize g' = MaxChunkSize storeAB
       /\ CharsPerToken g' = CharsPerToken storeAB.
Proof.
  assert (Hfin : finiteNumbers storeAB = true) by (vm_compute; reflexivity).
  assert (Hvalid : validStrings storeAB = true) by (vm_compute; reflexivity).
  split; [exact (conj treeCodec_contract (conj Hfin Hvalid))|].
  exact (@Save_Load_round_trip json treeMarshal treeUnmarshal storeAB
           treeCodec_contract Hfin Hvalid).
Defined.

(** C8, counterexample.  [AddDocument] on a new store, for a file that
    is one paragraph of 16383 bytes "a" followed by a character of two
    bytes: [chunkStrings] cuts the paragraph after 16384 bytes, inside
    the character, and the second chunk is the one byte 0xA9, which is
    not valid UTF-8.  Whatever encoder and decoder meet the contract,
    [Save] returns without error, and after [Load] the text of that
    chunk is the replacement character, of three bytes.  And a store
    with a NaN in an embedding is not saved at all: [Save] panics with
    the error of [json.Marshal]. *)
Lemma Save_Load_alters_cut_text :
  let g := store (exec (AddDocument envCut "a.txt") (initWorld New)) in
  let cut := String (ascii_of_nat 169) EmptyString in
  (run (AddDocument envCut "a.txt") (initWorld New) = Ok tt
   /\ map Text (skipn 1 (Chunks g)) = [cut]
   /\ finiteNumbers g = true)
  /\ (forall (bytes : Type) (Marshal : Grokker -> option bytes)
             (Unmarshal : bytes -> Grokker -> Grokker * bool),
        json_contract Marshal Unmarshal ->
        exists data g',
          Save Marshal g (mkWriter false [])
          = (Returns None, mkWriter false [data])
          /\ Load Unmarshal (Some data) = Returns (g', None)
          /\ map Text (skipn 1 (Chunks g')) = [replacement]
          /\ Chunks g' <> Chunks g)
  /\ json_contract treeMarshal treeUnmarshal
  /\ (forall (bytes : Type) (Marshal : Grokker -> option bytes)
             (Unmarshal : bytes -> Grokker -> Grokker * bool)
             (w : Writer bytes),
        json_contract Marshal Unmarshal ->
        Save Marshal storeNaN w = (PanicsWithError EMarshal, w)).
Proof.
  cbv zeta.
  assert (Hrun : run (AddDocument envCut "a.txt") (initWorld New) = Ok tt)
    by (vm_compute; reflexivity).
  assert (Hcut : map Text (skipn 1 (Chunks (store (exec
                   (AddDocument envCut "a.txt") (initWorld New)))))
                 = [String (ascii_of_nat 169) EmptyString])
    by (vm_compute; reflexivity).
  assert (Hfin : finiteNumbers (store (exec (AddDocument envCut "a.txt")
                                         (initWorld New))) = true)
    by (vm_compute; reflexivity).
  split; [exact (conj Hrun (conj Hcut Hfin))|].
  split.
  - intros bytes Marshal Unmarshal Hc.
    destruct (Save_then_Load
                (store (exec (AddDocument envCut "a.txt") (initWorld New)))
                Hc) as [[Hnot _]|[_ H]]; [congruence|].
    destruct H as (data & g' & Hs & Hl & _ & _ & H3 & _).
    exists data, g'. split; [exact Hs|]. split; [exact Hl|].
    assert (Ht : map Text (skipn 1 (Chunks g')) = [replacement]).
    { rewrite H3, skipn_map, map_map.
      change (fun x => Text (coerceChunk x))
        with (fun x => coerceUTF8 (Text x)).
      rewrite <- (map_map Text coerceUTF8), Hcut. reflexivity. }
    split; [exact Ht|].
    intros Heq. rewrite Heq, Hcut in Ht. discriminate Ht.
  - split; [exact treeCodec_contract|].
    intros bytes Marshal Unmarshal w Hc.
    destruct (Save_then_Load storeNaN Hc) as [[_ H]|[Hfin' _]];
      [apply H|].
    vm_compute in Hfin'. discriminate Hfin'.
Qed.
